(** * DarkWS: a shallow embedding of [src/index.ts]

    The client class [DarkWS] is embedded as a record of its fields together
    with the part of the JavaScript environment its methods touch (the
    promise store, the timer table, the sockets, the console).  Every method
    and every socket handler is a function on that world, written in a small
    state-and-exception monad.  [JSON.parse], [JSON.stringify] and the bodies
    of the subscribed handlers are parameters of the development.  Time is
    not measured: a timer is an entry of the timer table, and its coming due
    is an input like the events of the socket.  The debug output is left
    out.  The URL of the socket is computed by [url] from the fields of the
    options that only it reads; no operation on a socket depends on it. *)

From Stdlib Require Import ZArith Ascii.
From stdpp Require Import gmap strings list fin_maps pretty.

Set Warnings "-register-all".

(** ** JavaScript strings and arrays *)

Module Js.

(** [s.split(sep)] for a one-character separator: every occurrence of the
    separator cuts, and the result always holds at least one piece. *)
Fixpoint split (sep : ascii) (s : string) : list string :=
  match s with
  | EmptyString => [EmptyString]
  | String c rest =>
      if Ascii.eqb c sep then EmptyString :: split sep rest
      else match split sep rest with
           | [] => [String c EmptyString]
           | piece :: pieces => String c piece :: pieces
           end
  end.

(** [s.split(sep, limit)]: the pieces are those of [s.split(sep)], cut
    after the first [limit] of them. *)
Definition split_limit (sep : ascii) (limit : nat) (s : string) : list string :=
  take limit (split sep s).

(** [s.substring(start, end)]: both indices are clamped to the length and
    swapped when out of order. *)
Definition substring (s : string) (start stop : nat) : string :=
  let len := String.length s in
  let a := Nat.min start len in
  let b := Nat.min stop len in
  let lo := Nat.min a b in
  let hi := Nat.max a b in
  String.substring lo (hi - lo) s.

(** [arr.indexOf(x)]: index of the first element equal to [x], or -1. *)
Fixpoint indexOf_from `{EqDecision A} (x : A) (arr : list A) (i : Z) : Z :=
  match arr with
  | [] => (-1)%Z
  | y :: rest => if decide (y = x) then i else indexOf_from x rest (i + 1)%Z
  end.

Definition indexOf `{EqDecision A} (x : A) (arr : list A) : Z :=
  indexOf_from x arr 0%Z.

(** [arr.splice(start, deleteCount)] as ECMAScript defines it: a negative
    [start] counts from the end, and the number of removed elements is
    clamped to what is left after the start.  Returns the array after the
    removal. *)
Definition splice {A} (arr : list A) (start deleteCount : Z) : list A :=
  let len := Z.of_nat (length arr) in
  let actualStart :=
    if (start <? 0)%Z then Z.max (len + start) 0 else Z.min start len in
  let actualDeleteCount := Z.min (Z.max deleteCount 0) (len - actualStart) in
  take (Z.to_nat actualStart) arr
    ++ drop (Z.to_nat (actualStart + actualDeleteCount)) arr.

End Js.

(** ** JSON values, as [JSON.parse] returns them *)

Inductive JsonValue : Type :=
| JNull
| JBool (b : bool)
| JNumber (mantissa exponent : Z)      (* mantissa * 10 ^ exponent *)
| JString (s : string)
| JArray (items : list JsonValue)
| JObject (fields : list (string * JsonValue)).

(** A JavaScript value met on the paths modelled here is either [undefined]
    or a JSON value. *)
Definition JsValue : Type := option JsonValue.

(** What a [throw] carries.  An [Error] object is given by
    [ex instanceof SyntaxError] and by its [message]; this is what the
    runtime itself throws.  A handler may throw any other value as well:
    [undefined], or a JSON value, [null] included. *)
Inductive Exception : Type :=
| mkException (instanceof_SyntaxError : bool) (message_of : string)
| ThrownValue (value : JsValue).

Module Json.

(** Own property of a parsed object; the last binding of a duplicated
    name is the one [JSON.parse] keeps. *)
Fixpoint get_field (name : string) (fields : list (string * JsonValue)) : JsValue :=
  match fields with
  | [] => None
  | (k, v) :: rest =>
      match get_field name rest with
      | Some later => Some later
      | None => if String.eqb k name then Some v else None
      end
  end.

(** The message of the TypeError raised by a property read on [null]. *)
Definition null_read_message (name : string) : string :=
  "Cannot read properties of null (reading '" +:+ name +:+ "')".

(** The same on [undefined]. *)
Definition undefined_read_message (name : string) : string :=
  "Cannot read properties of undefined (reading '" +:+ name +:+ "')".

(** [v.name]: a property read throws on [null], finds own fields on an
    object, and is [undefined] on the other JSON values for the names read
    by the source ([error], [code] and [message]). *)
Definition get (v : JsonValue) (name : string) : Exception + JsValue :=
  match v with
  | JNull => inl (mkException false (null_read_message name))
  | JObject fields => inr (get_field name fields)
  | _ => inr None
  end.

(** [v?.name] on a value that may be [undefined]. *)
Definition get_opt (v : JsValue) (name : string) : JsValue :=
  match v with
  | None => None
  | Some JNull => None
  | Some (JObject fields) => get_field name fields
  | Some _ => None
  end.

(** Truthiness of a JavaScript value. *)
Definition truthy (v : JsValue) : bool :=
  match v with
  | None => false
  | Some JNull => false
  | Some (JBool b) => b
  | Some (JNumber m _) => negb (m =? 0)%Z
  | Some (JString s) => negb (String.eqb s "")
  | Some (JArray _) => true
  | Some (JObject _) => true
  end.

End Json.

(** ** The data of the client *)

(** The six keys of [DarkWSInterceptorMap]. *)
Inductive Category : Type :=
| Open | Close | Error | Reconnect | Message | Broadcast.

#[global] Instance Category_eq_dec : EqDecision Category.
Proof. solve_decision. Defined.

(** The fields of [DarkWSOptions] read by the connection, reconnection and
    request code.  The source types [reconnectAttempts] as [number] and
    documents it as a count of attempts: it is a natural number here, and a
    limit that is negative, fractional or [NaN] is outside the model. *)
Record DarkWSOptions : Type := mkOptions {
  reconnect : bool;
  reconnectTimeout : Z;      (* milliseconds *)
  reconnectAttempts : nat;   (* a count *)
  requestTimeout : Z         (* milliseconds *)
}.

Definition defaultOptions : DarkWSOptions :=
  {| reconnect := true;
     reconnectTimeout := 1000;
     reconnectAttempts := 120;
     requestTimeout := 1000 * 60 * 5 |}%Z.

(** The DOM events handed to the socket handlers. *)
Record CloseEvent : Type := mkCloseEvent {
  wasClean : bool;
  code : nat;
  reason : string
}.

Inductive Event : Type :=
| OpenEvent
| ErrorEvent
| ClosedEvent (e : CloseEvent)
| MessageEvent (data : string).

(** An argument passed to a subscribed handler. *)
Inductive Arg : Type :=
| ArgEvent (e : Event)
| ArgNumber (n : nat)
| ArgJson (v : JsonValue).

(** A subscribed handler is a function object; what [indexOf] compares is
    its identity. *)
Definition Handler : Type := nat.

Inductive ReadyState : Type := CONNECTING | OPEN | CLOSING | CLOSED.

#[global] Instance ReadyState_eq_dec : EqDecision ReadyState.
Proof. solve_decision. Defined.

(** A [WebSocket] object: its state and the texts handed to [send]. *)
Record WebSocket : Type := mkWebSocket {
  readyState : ReadyState;
  sent : list string
}.

(** An entry of [this.requests].  Both closures settle the promise
    [promise]; [resolve] is the wrapper that first calls [clearTimeout] on
    [timeout_handle] when the request was registered with a timeout, and
    [reject] is the bare [reject] of the promise in both cases. *)
Record Resolver : Type := mkResolver {
  promise : nat;
  timeout_handle : option nat
}.

(** What [_send(data).then(...)] goes on with once the text is sent. *)
Inductive Continuation : Type :=
| AfterPing                                  (* debug('Ping handled') *)
| AfterSend                                  (* nothing: the public send *)
| AfterRequest (key : string) (p : nat).     (* register the request *)

(** One [.then] attached by [_send] to the promise of [waitForConnection]. *)
Record Job : Type := mkJob {
  job_data : string;
  job_then : Continuation
}.

(** The promise [request] returns to its caller. *)
Inductive Promise : Type :=
| Pending
| Fulfilled (value : JsonValue)
| Rejected (why : JsonValue).

(** The [Promise<WebSocket>] made by [waitForConnection], with the
    callbacks attached to it while it is pending; it is never rejected. *)
Inductive Connecting : Type :=
| Waiting (thens : list Job)
| Connected (s : nat).

(** The callbacks held by the timer table, with their delay in ms. *)
Inductive Timer : Type :=
| ReconnectTimer (delay : Z)                         (* () => this.connect() *)
| RequestTimer (key : string) (p : nat) (delay : Z)  (* the timeout of a request *)
| PollTimer (p : nat) (every : Z).                   (* the poll of waitForConnection *)

(** What the client does to the outside, in order. *)
Inductive Effect : Type :=
| Fired (event : Category) (args : list Arg)   (* callInterceptors entered *)
| Called (func : Handler) (args : list Arg)    (* a handler invoked *)
| Warned (text : string)                       (* console.warn of a string *)
| WarnedValue (value : JsValue).               (* console.warn of another value *)

(** The fields of a [DarkWS] instance, followed by the part of the
    environment it acts on. *)
Record World : Type := mkWorld {
  options : DarkWSOptions;
  socket : option nat;
  requests : gmap string Resolver;
  connectingPromise : option nat;
  reconnectAttempt : nat;
  interceptors : Category -> list Handler;
  (* environment *)
  sockets : gmap nat WebSocket;
  promises : gmap nat Promise;
  waiting : gmap nat Connecting;
  timers : gmap nat Timer;
  next_id : nat;
  trace : list Effect
}.

(** Writing one field. *)
Definition set_socket (x : option nat) (w : World) : World :=
  mkWorld (options w) x (requests w) (connectingPromise w)
    (reconnectAttempt w) (interceptors w) (sockets w) (promises w)
    (waiting w) (timers w) (next_id w) (trace w).
Definition set_requests (x : gmap string Resolver) (w : World) : World :=
  mkWorld (options w) (socket w) x (connectingPromise w)
    (reconnectAttempt w) (interceptors w) (sockets w) (promises w)
    (waiting w) (timers w) (next_id w) (trace w).
Definition set_connectingPromise (x : option nat) (w : World) : World :=
  mkWorld (options w) (socket w) (requests w) x
    (reconnectAttempt w) (interceptors w) (sockets w) (promises w)
    (waiting w) (timers w) (next_id w) (trace w).
Definition set_reconnectAttempt (x : nat) (w : World) : World :=
  mkWorld (options w) (socket w) (requests w) (connectingPromise w)
    x (interceptors w) (sockets w) (promises w)
    (waiting w) (timers w) (next_id w) (trace w).
Definition set_interceptors (x : Category -> list Handler) (w : World) : World :=
  mkWorld (options w) (socket w) (requests w) (connectingPromise w)
    (reconnectAttempt w) x (sockets w) (promises w)
    (waiting w) (timers w) (next_id w) (trace w).
Definition set_sockets (x : gmap nat WebSocket) (w : World) : World :=
  mkWorld (options w) (socket w) (requests w) (connectingPromise w)
    (reconnectAttempt w) (interceptors w) x (promises w)
    (waiting w) (timers w) (next_id w) (trace w).
Definition set_promises (x : gmap nat Promise) (w : World) : World :=
  mkWorld (options w) (socket w) (requests w) (connectingPromise w)
    (reconnectAttempt w) (interceptors w) (sockets w) x
    (waiting w) (timers w) (next_id w) (trace w).
Definition set_waiting (x : gmap nat Connecting) (w : World) : World :=
  mkWorld (options w) (socket w) (requests w) (connectingPromise w)
    (reconnectAttempt w) (interceptors w) (sockets w) (promises w)
    x (timers w) (next_id w) (trace w).
Definition set_timers (x : gmap nat Timer) (w : World) : World :=
  mkWorld (options w) (socket w) (requests w) (connectingPromise w)
    (reconnectAttempt w) (interceptors w) (sockets w) (promises w)
    (waiting w) x (next_id w) (trace w).
Definition set_next_id (x : nat) (w : World) : World :=
  mkWorld (options w) (socket w) (requests w) (connectingPromise w)
    (reconnectAttempt w) (interceptors w) (sockets w) (promises w)
    (waiting w) (timers w) x (trace w).
Definition set_trace (x : list Effect) (w : World) : World :=
  mkWorld (options w) (socket w) (requests w) (connectingPromise w)
    (reconnectAttempt w) (interceptors w) (sockets w) (promises w)
    (waiting w) (timers w) (next_id w) x.

(** ** The monad of the methods: state, and an exception or a result *)

Inductive Completion (A : Type) : Type :=
| Normal (a : A)
| Throw (ex : Exception).
Arguments Normal {A} a.
Arguments Throw {A} ex.

Definition M (A : Type) : Type := World -> Completion A * World.

Definition ret {A} (a : A) : M A := fun w => (Normal a, w).
Definition throw {A} (ex : Exception) : M A := fun w => (Throw ex, w).
Definition bind {A B} (m : M A) (f : A -> M B) : M B :=
  fun w => match m w with
           | (Normal a, w') => f a w'
           | (Throw ex, w') => (Throw ex, w')
           end.
Definition try_catch {A} (body : M A) (handler : Exception -> M A) : M A :=
  fun w => match body w with
           | (Normal a, w') => (Normal a, w')
           | (Throw ex, w') => handler ex w'
           end.
Definition gets {A} (f : World -> A) : M A := fun w => (Normal (f w), w).
Definition modify (f : World -> World) : M unit := fun w => (Normal tt, f w).

Notation "x <- m ;; k" := (bind m (fun x => k))
  (at level 100, m at next level, right associativity).
Notation "m ;;; k" := (bind m (fun _ => k))
  (at level 100, right associativity).

(** The world after a computation, whatever its completion. *)
Definition after {A} (m : M A) (w : World) : World := snd (m w).

(** ** [generateKey] *)

(** The value of [Math.random()], a double in [0, 1), given by the digits
    that [toString(26)] prints after the point: none for zero, at least one
    otherwise, each below 26. *)
Record Random : Type := mkRandom {
  fraction : list nat;
  fraction_ok : forallb (fun d => Nat.ltb d 26) fraction = true
}.

Definition digits26 : string := "0123456789abcdefghijklmnop".

Definition digit (d : nat) : ascii :=
  match String.get d digits26 with
  | Some c => c
  | None => "?"%char
  end.

(** [x.toString(26)] for [x] in [0, 1): no exponent is printed in a radix
    other than ten. *)
Definition toString26 (x : Random) : string :=
  match fraction x with
  | [] => "0"
  | ds => "0." +:+ String.string_of_list_ascii (map digit ds)
  end.

(** [Math.random().toString(26).substring(2, 8)] *)
Definition generateKey (random : Random) : string :=
  Js.substring (toString26 random) 2 8.

(** ** The methods of [DarkWS] *)

(** [{code: 'timeout', message: 'Request cancelled by timeout'}] *)
Definition timeout_error : JsonValue :=
  JObject [("code", JString "timeout");
           ("message", JString "Request cancelled by timeout")].

(** The property names every object literal inherits from
    [Object.prototype]: [this.requests[key]] is truthy for them although
    no request was stored under them. *)
Definition Object_prototype_keys : list string :=
  ["constructor"; "__proto__"; "hasOwnProperty"; "isPrototypeOf";
   "propertyIsEnumerable"; "toLocaleString"; "toString"; "valueOf";
   "__defineGetter__"; "__defineSetter__"; "__lookupGetter__";
   "__lookupSetter__"].

(** The outcome of [this.requests[key]]. *)
Inductive Lookup : Type :=
| Own (resolver : Resolver)
| Inherited
| Undefined.

Definition requests_get (key : string) (w : World) : Lookup :=
  match requests w !! key with
  | Some resolver => Own resolver
  | None => if bool_decide (key ∈ Object_prototype_keys) then Inherited
            else Undefined
  end.

Definition update {A} (f : Category -> A) (c : Category) (x : A) : Category -> A :=
  fun c' => if decide (c' = c) then x else f c'.

Section Client.

(** [JSON.parse]: [None] when it throws a SyntaxError. *)
Variable JSON_parse : string -> option JsonValue.
Variable JSON_stringify : JsonValue -> string.
(** The body of a subscribed handler: [None] when it returns, the
    exception when it throws.  Handlers do not call back into the client
    while they run. *)
Variable run : Handler -> list Arg -> option Exception.

Definition log (e : Effect) : M unit :=
  modify (fun w => set_trace (trace w ++ [e]) w).

Definition fresh : M nat :=
  fun w => (Normal (next_id w), set_next_id (S (next_id w)) w).

(** [setTimeout] and [setInterval]: the handle is the key of the table. *)
Definition setTimer (t : Timer) : M nat :=
  h <- fresh ;;
  modify (fun w => set_timers (<[h := t]> (timers w)) w) ;;;
  ret h.

(** [clearTimeout] and [clearInterval]. *)
Definition clearTimer (h : nat) : M unit :=
  modify (fun w => set_timers (delete h (timers w)) w).

(** The loop of [callInterceptors]. *)
Fixpoint call_each (funcs : list Handler) (args : list Arg) : M unit :=
  match funcs with
  | [] => ret tt
  | func :: rest =>
      log (Called func args) ;;;
      match run func args with
      | None => call_each rest args
      | Some ex => throw ex
      end
  end.

Definition callInterceptors (event : Category) (args : list Arg) : M unit :=
  log (Fired event args) ;;;
  group <- gets (fun w => interceptors w event) ;;
  if negb (Nat.eqb (length group) 0) then call_each group args else ret tt.

(** [socket.close()] *)
Definition WebSocket_close (s : nat) : M unit :=
  modify (fun w =>
    set_sockets
      (alter (fun ws =>
                match readyState ws with
                | CONNECTING | OPEN => mkWebSocket CLOSING (sent ws)
                | CLOSING | CLOSED => ws
                end) s (sockets w)) w).

(** [connect]: the four handlers it installs are [onopen], [onclose],
    [onerror] and [onmessage] below; they close over [this], so they are
    the same for every socket. *)
Definition connect : M unit :=
  old <- gets socket ;;
  match old with
  | Some s => WebSocket_close s
  | None => ret tt
  end ;;;
  s <- fresh ;;
  modify (fun w => set_sockets (<[s := mkWebSocket CONNECTING []]> (sockets w)) w) ;;;
  modify (set_socket (Some s)).

Definition onopen (event : Event) : M unit :=
  callInterceptors Open [ArgEvent event].

Definition onclose (event : CloseEvent) : M unit :=
  (if wasClean event then ret tt
   else
     opts <- gets options ;;
     attempt <- gets reconnectAttempt ;;
     if reconnect opts && Nat.ltb attempt (reconnectAttempts opts) then
       setTimer (ReconnectTimer (reconnectTimeout opts)) ;;;
       modify (fun w => set_reconnectAttempt (S (reconnectAttempt w)) w) ;;;
       n <- gets reconnectAttempt ;;
       callInterceptors Reconnect [ArgNumber n]
     else ret tt) ;;;
  callInterceptors Close [ArgEvent (ClosedEvent event)].

Definition onerror (event : Event) : M unit :=
  callInterceptors Error [ArgEvent event].

(** The [resolve] and [reject] of a promise: only a pending promise
    changes. *)
Definition settle (p : nat) (outcome : Promise) : M unit :=
  state <- gets (fun w => promises w !! p) ;;
  match state with
  | Some Pending => modify (fun w => set_promises (<[p := outcome]> (promises w)) w)
  | _ => ret tt
  end.

(** [resolve(this.socket)] in the poll: the callbacks attached to the
    promise are handed back to be run. *)
Definition resolve_connecting (p s : nat) : M (list Job) :=
  state <- gets (fun w => waiting w !! p) ;;
  match state with
  | Some (Waiting thens) =>
      modify (fun w => set_waiting (<[p := Connected s]> (waiting w)) w) ;;;
      ret thens
  | _ => ret []
  end.

(** [this.socket?.send(data)]: a socket still connecting throws, an open
    one takes the text, a closing or closed one drops it. *)
Definition socket_send (data : string) : M unit :=
  s <- gets socket ;;
  ss <- gets sockets ;;
  match s with
  | None => ret tt
  | Some sid =>
      match ss !! sid with
      | None => ret tt
      | Some ws =>
          match readyState ws with
          | CONNECTING => throw (mkException false "InvalidStateError")
          | OPEN =>
              modify (fun w =>
                set_sockets (<[sid := mkWebSocket OPEN (sent ws ++ [data])]> (sockets w)) w)
          | CLOSING | CLOSED => ret tt
          end
      end
  end.

(** The callback [request] chains after [_send]. *)
Definition register (key : string) (p : nat) : M unit :=
  opts <- gets options ;;
  if negb (requestTimeout opts =? 0)%Z then
    handle <- setTimer (RequestTimer key p (requestTimeout opts)) ;;
    modify (fun w => set_requests (<[key := mkResolver p (Some handle)]> (requests w)) w)
  else
    modify (fun w => set_requests (<[key := mkResolver p None]> (requests w)) w).

Definition continue (k : Continuation) : M unit :=
  match k with
  | AfterPing => ret tt
  | AfterSend => ret tt
  | AfterRequest key p => register key p
  end.

(** The callbacks of a resolved [waitForConnection] promise run as
    microtasks: first the [send] of every job in the order attached, then
    what each [_send(...).then] chained, skipping those whose [send]
    threw. *)
Fixpoint send_all (jobs : list Job) : M (list Continuation) :=
  match jobs with
  | [] => ret []
  | job :: rest =>
      k <- try_catch (socket_send (job_data job) ;;; ret [job_then job])
                     (fun _ => ret []) ;;
      ks <- send_all rest ;;
      ret (k ++ ks)
  end.

Fixpoint continue_all (ks : list Continuation) : M unit :=
  match ks with
  | [] => ret tt
  | k :: rest => continue k ;;; continue_all rest
  end.

Definition run_thens (jobs : list Job) : M unit :=
  ks <- send_all jobs ;;
  continue_all ks.

Definition waitForConnection : M nat :=
  pending <- gets connectingPromise ;;
  match pending with
  | Some p => ret p
  | None =>
      p <- fresh ;;
      modify (fun w => set_waiting (<[p := Waiting []]> (waiting w)) w) ;;;
      setTimer (PollTimer p 50%Z) ;;;
      modify (set_connectingPromise (Some p)) ;;;
      ret p
  end.

(** [promise.then(job)] *)
Definition then_ (p : nat) (job : Job) : M unit :=
  state <- gets (fun w => waiting w !! p) ;;
  match state with
  | Some (Waiting thens) =>
      modify (fun w => set_waiting (<[p := Waiting (thens ++ [job])]> (waiting w)) w)
  | Some (Connected _) => run_thens [job]
  | None => ret tt
  end.

Definition _send (data : string) (k : Continuation) : M unit :=
  p <- waitForConnection ;;
  then_ p (mkJob data k).

(** The callback of the interval started by [waitForConnection], with
    handle [handle] and promise [p] in its closure. *)
Definition poll (handle p : nat) : M unit :=
  s <- gets socket ;;
  ss <- gets sockets ;;
  match s with
  | None => ret tt
  | Some sid =>
      match ss !! sid with
      | None => ret tt
      | Some ws =>
          if decide (readyState ws = OPEN) then
            clearTimer handle ;;;
            thens <- resolve_connecting p sid ;;
            modify (set_connectingPromise None) ;;;
            run_thens thens
          else ret tt
      end
  end.

(** The callback of the timeout of a request. *)
Definition request_timeout (key : string) (p : nat) : M unit :=
  modify (fun w => set_requests (delete key (requests w)) w) ;;;
  settle p (Rejected timeout_error).

(** A timer comes due.  A cleared timer is no longer in the table and
    does nothing; a timeout leaves the table when it runs, an interval
    stays until it is cleared. *)
Definition fire (handle : nat) : M unit :=
  table <- gets timers ;;
  match table !! handle with
  | None => ret tt
  | Some (ReconnectTimer _) => clearTimer handle ;;; connect
  | Some (RequestTimer key p _) => clearTimer handle ;;; request_timeout key p
  | Some (PollTimer p _) => poll handle p
  end.

(** [resolver.resolve(data)] and [resolver.reject(data)] *)
Definition resolver_resolve (resolver : Resolver) (data : JsonValue) : M unit :=
  match timeout_handle resolver with
  | Some handle => clearTimer handle
  | None => ret tt
  end ;;;
  settle (promise resolver) (Fulfilled data).

Definition resolver_reject (resolver : Resolver) (data : JsonValue) : M unit :=
  settle (promise resolver) (Rejected data).

(** [data.error?.code] *)
Definition error_code (data : JsonValue) : M JsValue :=
  match Json.get data "error" with
  | inl ex => throw ex
  | inr err => ret (Json.get_opt err "code")
  end.

Definition JSON_parse_or_throw (text : string) : M JsonValue :=
  match JSON_parse text with
  | Some v => ret v
  | None => throw (mkException true "Unexpected token")
  end.

(** The destructuring [const [key = '@', _data] = event.data.split('|', 2)]:
    [_data] is [None] when it is [undefined]. *)
Definition split_frame (data : string) : string * option string :=
  let parts := Js.split_limit "|"%char 2 data in
  (default "@" (parts !! 0), parts !! 1).

(** The argument of [JSON.parse] converted to a string. *)
Definition ToString (text : option string) : string :=
  default "undefined" text.

(** [console.warn(value)] *)
Definition console_warn (value : JsValue) : Effect :=
  match value with
  | Some (JString text) => Warned text
  | _ => WarnedValue value
  end.

(** The [catch] clause of the message handler:
    [console.warn(ex instanceof SyntaxError ? 'Received invalid JSON.' : ex.message)].
    Reading [ex.message] throws when what was thrown is [null] or
    [undefined], and that TypeError leaves the handler. *)
Definition report (ex : Exception) : M unit :=
  match ex with
  | mkException syntax message =>
      log (Warned (if syntax then "Received invalid JSON." else message))
  | ThrownValue None =>
      throw (mkException false (Json.undefined_read_message "message"))
  | ThrownValue (Some value) =>
      match Json.get value "message" with
      | inl raised => throw raised
      | inr message => log (console_warn message)
      end
  end.

Definition onmessage (event : string) : M unit :=
  if String.eqb event "ping" then
    _send "pong" AfterPing
  else
    try_catch
      (let '(key, _data) := split_frame event in
       data <- JSON_parse_or_throw (ToString _data) ;;
       if String.eqb key "@" then
         callInterceptors Broadcast [ArgJson data; ArgEvent (MessageEvent event)]
       else
         resolver <- gets (requests_get key) ;;
         match resolver with
         | Undefined => ret tt
         | Inherited =>
             c <- error_code data ;;
             if Json.truthy c
             then throw (mkException false "resolver.reject is not a function")
             else throw (mkException false "resolver.resolve is not a function")
         | Own resolver =>
             c <- error_code data ;;
             (if Json.truthy c then resolver_reject resolver data
              else resolver_resolve resolver data) ;;;
             modify (fun w => set_requests (delete key (requests w)) w)
         end ;;;
         callInterceptors Message [ArgJson data; ArgEvent (MessageEvent event)])
      report.

(** [send(data)] *)
Definition send (data : JsonValue) : M unit :=
  _send ("@|" +:+ JSON_stringify data) AfterSend.

(** The text of a request. *)
Definition request_frame (key action : string) (data : option JsonValue) : string :=
  key +:+ "|" +:+ action +:+
  match data with
  | Some d => "|" +:+ JSON_stringify d
  | None => ""
  end.

(** [request(action, data)], with the value [Math.random()] returns to
    [generateKey]; the result is the promise handed to the caller. *)
Definition request (random : Random) (action : string) (data : option JsonValue) : M nat :=
  p <- fresh ;;
  modify (fun w => set_promises (<[p := Pending]> (promises w)) w) ;;;
  let key := generateKey random in
  _send (request_frame key action data) (AfterRequest key p) ;;;
  ret p.

(** [intercept(event, handler)] pushes the handler; the action it returns
    is [unsubscribe event handler]. *)
Definition intercept (event : Category) (handler : Handler) : M unit :=
  modify (fun w =>
    set_interceptors
      (update (interceptors w) event (interceptors w event ++ [handler])) w).

(** [() => group.splice(group.indexOf(handler), 1)] *)
Definition unsubscribe (event : Category) (handler : Handler) : M unit :=
  modify (fun w =>
    let group := interceptors w event in
    set_interceptors
      (update (interceptors w) event (Js.splice group (Js.indexOf handler group) 1)) w).

(** [new DarkWS(options)] *)
Definition empty_world (opts : DarkWSOptions) : World :=
  {| options := opts; socket := None; requests := ∅;
     connectingPromise := None; reconnectAttempt := 0;
     interceptors := fun _ => [];
     sockets := ∅; promises := ∅; waiting := ∅; timers := ∅;
     next_id := 0; trace := [] |}.

Definition new_DarkWS (opts : DarkWSOptions) : World :=
  after connect (empty_world opts).

(** ** What happens to a client *)

(** The transport reports on a socket, a timer comes due, or the caller
    uses the public interface. *)
Inductive Input : Type :=
| SocketOpens (s : nat)
| SocketCloses (s : nat) (event : CloseEvent)
| SocketFails (s : nat)
| SocketReceives (s : nat) (text : string)
| TimerFires (handle : nat)
| CallSend (data : JsonValue)
| CallRequest (random : Random) (action : string) (data : option JsonValue)
| CallIntercept (event : Category) (handler : Handler)
| CallUnsubscribe (event : Category) (handler : Handler).

Definition set_readyState (s : nat) (state : ReadyState) : M unit :=
  modify (fun w =>
    set_sockets (alter (fun ws => mkWebSocket state (sent ws)) s (sockets w)) w).

Definition deliver (i : Input) : M unit :=
  match i with
  | SocketOpens s => set_readyState s OPEN ;;; onopen OpenEvent
  | SocketCloses s event => set_readyState s CLOSED ;;; onclose event
  | SocketFails s => onerror ErrorEvent
  | SocketReceives s text => onmessage text
  | TimerFires handle => fire handle
  | CallSend data => send data
  | CallRequest random action data => request random action data ;;; ret tt
  | CallIntercept event handler => intercept event handler
  | CallUnsubscribe event handler => unsubscribe event handler
  end.

Definition step (w : World) (i : Input) : World := after (deliver i) w.

Definition steps (w : World) (inputs : list Input) : World :=
  fold_left step inputs w.

End Client.

(** ** Handlers that call back into the client

    [callInterceptors] above is written for handlers that leave the client
    alone while they run.  A handler holds the client and the action that
    [intercept] returned, and may use them while it runs.  In this module a
    handler makes a list of calls of the public interface and then returns
    or throws, and the loop of [callInterceptors] reads the array of the
    category as the [for ... of] of the source does: the iterator of an
    array keeps an index, and at each step looks at the array as it is
    then.  A handler that subscribes a handler to the category it is
    invoked for at every call keeps that loop running for ever; hence the
    fuel, and a result that says whether the loop came to its end. *)

Module Live.

(** A call made by a handler: of [send], [request], [intercept], or of an
    action that [intercept] returned. *)
Inductive Call : Type :=
| DoSend (data : JsonValue)
| DoRequest (random : Random) (action : string) (data : option JsonValue)
| DoIntercept (event : Category) (handler : Handler)
| DoUnsubscribe (event : Category) (handler : Handler).

(** The call touches the array of [event]. *)
Definition subscribes (event : Category) (c : Call) : bool :=
  match c with
  | DoIntercept event' _ | DoUnsubscribe event' _ => bool_decide (event' = event)
  | _ => false
  end.

Section Dispatch.

Variable JSON_stringify : JsonValue → string.
(** What a handler does when it is invoked: the calls it makes, and the
    value it throws, if it throws. *)
Variable behaviour : Handler → list Arg → list Call * option Exception.

Definition perform (c : Call) : M unit :=
  match c with
  | DoSend data => send JSON_stringify data
  | DoRequest random action data =>
      request JSON_stringify random action data ;;; ret tt
  | DoIntercept event handler => intercept event handler
  | DoUnsubscribe event handler => unsubscribe event handler
  end.

Fixpoint perform_all (calls : list Call) : M unit :=
  match calls with
  | [] => ret tt
  | c :: rest => perform c ;;; perform_all rest
  end.

(** [func(...args)] *)
Definition invoke (func : Handler) (args : list Arg) : M unit :=
  perform_all (fst (behaviour func args)) ;;;
  match snd (behaviour func args) with
  | None => ret tt
  | Some ex => throw ex
  end.

(** [for (const func of this.interceptors[event]) func(...args)], from
    the index the iterator is at.  [true]: the iterator found the end of
    the array; [false]: the fuel ran out first. *)
Fixpoint for_of (fuel : nat) (event : Category) (args : list Arg) (index : nat)
  : M bool :=
  match fuel with
  | 0 => ret false
  | S fuel' =>
      group <- gets (fun w => interceptors w event) ;;
      match group !! index with
      | None => ret true
      | Some func =>
          log (Called func args) ;;;
          invoke func args ;;;
          for_of fuel' event args (S index)
      end
  end.

Definition callInterceptors (fuel : nat) (event : Category) (args : list Arg)
  : M bool :=
  log (Fired event args) ;;;
  group <- gets (fun w => interceptors w event) ;;
  if negb (Nat.eqb (length group) 0) then for_of fuel event args 0 else ret true.

End Dispatch.

End Live.

(** ** The address of the socket *)

(** [window.location], as far as [defaultOptions] reads it. *)
Record Location : Type := mkLocation {
  location_protocol : string;     (* 'http:', 'https:', ... *)
  location_host : string;         (* the host name, then ':' and the port if the page has one *)
  location_port : string          (* the decimal digits of the port, or empty *)
}.

Definition digit_of (c : ascii) : option N :=
  let n := N_of_ascii c in
  if (48 <=? n)%N && (n <=? 57)%N then Some (n - 48)%N else None.

Fixpoint parseInt_from (acc : option N) (text : string) : option N :=
  match text with
  | EmptyString => acc
  | String c rest =>
      match digit_of c with
      | Some d => parseInt_from (Some (10 * default 0%N acc + d)%N) rest
      | None => acc
      end
  end.

(** [parseInt(text)] for a text that begins with neither a blank, a sign
    nor [0x], as the port of a location does: the number written by its
    leading decimal digits, and [NaN], here [None], when it has none. *)
Definition parseInt (text : string) : option N := parseInt_from None text.

Inductive Protocol : Type := WS | WSS.

Definition protocol_text (p : Protocol) : string :=
  match p with
  | WS => "ws"
  | WSS => "wss"
  end.

(** The fields of [DarkWSOptions] read by the [url] getter.  The port is a
    non-negative integer, or [None] for [undefined] and for [NaN], which
    are both falsy and are only tested for truth. *)
Record UrlOptions : Type := mkUrlOptions {
  protocol : Protocol;
  host : string;
  port : option N;
  path : string
}.

(** These fields in [defaultOptions]. *)
Definition defaultUrlOptions (location : Location) : UrlOptions :=
  {| protocol := if String.eqb (location_protocol location) "https:" then WSS else WS;
     host := location_host location;
     port := if negb (String.eqb (location_port location) "")
             then parseInt (location_port location) else None;
     path := "/ws/" |}.

(** [path.replace(/^\/+/, '')] *)
Fixpoint strip_slashes (path : string) : string :=
  match path with
  | String c rest => if Ascii.eqb c "/" then strip_slashes rest else path
  | EmptyString => EmptyString
  end.

(** The getter [url]. *)
Definition url (o : UrlOptions) : string :=
  protocol_text (protocol o) +:+ "://" +:+ host o
  +:+ match port o with
      | Some n => if (n =? 0)%N then "" else ":" +:+ pretty n
      | None => ""
      end
  +:+ "/"
  +:+ (if negb (String.eqb (path o) "") then strip_slashes (path o) else "").

(** ** A reader of JSON texts

    The theorems below hold for every [JSON.parse] and [JSON.stringify];
    this reader and this printer are the ones the worked examples run with.
    The reader follows the JSON grammar, except that a [\u] escape in a
    string is refused. *)

Module JsonText.

Definition is_space (c : ascii) : bool :=
  let n := nat_of_ascii c in
  Nat.eqb n 32 || Nat.eqb n 9 || Nat.eqb n 10 || Nat.eqb n 13.

Definition is_digit (c : ascii) : bool :=
  let n := nat_of_ascii c in Nat.leb 48 n && Nat.leb n 57.

Definition digit_value (c : ascii) : Z := Z.of_nat (nat_of_ascii c - 48).

Fixpoint skip_spaces (s : list ascii) : list ascii :=
  match s with
  | c :: rest => if is_space c then skip_spaces rest else s
  | [] => []
  end.

(** The longest prefix of digits, and what follows it. *)
Fixpoint digits (s : list ascii) : list ascii * list ascii :=
  match s with
  | c :: rest =>
      if is_digit c then let '(ds, rest') := digits rest in (c :: ds, rest')
      else ([], s)
  | [] => ([], [])
  end.

Definition to_Z (ds : list ascii) : Z :=
  fold_left (fun acc c => (10 * acc + digit_value c)%Z) ds 0%Z.

(** [expect word s]: [s] without its prefix [word]. *)
Fixpoint expect (word s : list ascii) : option (list ascii) :=
  match word, s with
  | [], _ => Some s
  | c :: word', d :: s' => if Ascii.eqb c d then expect word' s' else None
  | _ :: _, [] => None
  end.

(** number = [-] int [frac] [exp] *)
Definition number (s : list ascii) : option (JsonValue * list ascii) :=
  let '(negative, s1) :=
    match s with
    | c :: rest => if Ascii.eqb c "-" then (true, rest) else (false, s)
    | [] => (false, s)
    end in
  let '(int, s2) := digits s1 in
  match int with
  | [] => None
  | first :: more =>
      if Ascii.eqb first "0" && negb (Nat.eqb (length more) 0) then None
      else
        frac_part ← match s2 with
                    | c :: rest =>
                        if Ascii.eqb c "." then
                          let '(frac, rest') := digits rest in
                          match frac with
                          | [] => None
                          | _ => Some (frac, rest')
                          end
                        else Some ([], s2)
                    | [] => Some ([], s2)
                    end;
        let '(frac, s3) := frac_part in
        exp_part ← match s3 with
                   | c :: rest =>
                       if Ascii.eqb c "e" || Ascii.eqb c "E" then
                         let '(minus, rest1) :=
                           match rest with
                           | d :: rest' =>
                               if Ascii.eqb d "-" then (true, rest')
                               else if Ascii.eqb d "+" then (false, rest')
                               else (false, rest)
                           | [] => (false, rest)
                           end in
                         let '(ds, rest2) := digits rest1 in
                         match ds with
                         | [] => None
                         | _ => Some (if minus then (- to_Z ds)%Z else to_Z ds, rest2)
                         end
                       else Some (0%Z, s3)
                   | [] => Some (0%Z, s3)
                   end;
        let '(e, s4) := exp_part in
        let m := to_Z (int ++ frac) in
        Some (JNumber (if negative then (- m)%Z else m)
                      (e - Z.of_nat (length frac))%Z, s4)
  end.

Definition unescape (c : ascii) : option ascii :=
  if Ascii.eqb c "034" then Some "034"%char
  else if Ascii.eqb c "092" then Some "092"%char
  else if Ascii.eqb c "/" then Some "/"%char
  else if Ascii.eqb c "b" then Some "008"%char
  else if Ascii.eqb c "f" then Some "012"%char
  else if Ascii.eqb c "n" then Some "010"%char
  else if Ascii.eqb c "r" then Some "013"%char
  else if Ascii.eqb c "t" then Some "009"%char
  else None.

(** The characters of a string up to its closing quote. *)
Fixpoint chars (s : list ascii) : option (list ascii * list ascii) :=
  match s with
  | [] => None
  | c :: rest =>
      if Ascii.eqb c "034" then Some ([], rest)
      else if Ascii.eqb c "092" then
        match rest with
        | e :: rest' =>
            u ← unescape e;
            '(cs, rest'') ← chars rest';
            Some (u :: cs, rest'')
        | [] => None
        end
      else if Nat.ltb (nat_of_ascii c) 32 then None
      else '(cs, rest') ← chars rest; Some (c :: cs, rest')
  end.

Definition quoted (s : list ascii) : option (string * list ascii) :=
  match s with
  | c :: rest =>
      if Ascii.eqb c "034" then
        '(cs, rest') ← chars rest; Some (String.string_of_list_ascii cs, rest')
      else None
  | [] => None
  end.

Definition literal (word : string) (v : JsonValue) (s : list ascii)
  : option (JsonValue * list ascii) :=
  rest ← expect (String.list_ascii_of_string word) s; Some (v, rest).

Fixpoint value (fuel : nat) (s : list ascii) : option (JsonValue * list ascii) :=
  match fuel with
  | 0 => None
  | S fuel' =>
      match skip_spaces s with
      | [] => None
      | c :: rest =>
          if Ascii.eqb c "n" then literal "null" JNull (c :: rest)
          else if Ascii.eqb c "t" then literal "true" (JBool true) (c :: rest)
          else if Ascii.eqb c "f" then literal "false" (JBool false) (c :: rest)
          else if Ascii.eqb c "034" then
            '(str, rest') ← quoted (c :: rest); Some (JString str, rest')
          else if Ascii.eqb c "[" then
            match skip_spaces rest with
            | d :: rest' =>
                if Ascii.eqb d "]" then Some (JArray [], rest')
                else '(items, rest'') ← elements fuel' rest; Some (JArray items, rest'')
            | [] => None
            end
          else if Ascii.eqb c "{" then
            match skip_spaces rest with
            | d :: rest' =>
                if Ascii.eqb d "}" then Some (JObject [], rest')
                else '(fields, rest'') ← members fuel' rest; Some (JObject fields, rest'')
            | [] => None
            end
          else number (c :: rest)
      end
  end
with elements (fuel : nat) (s : list ascii) : option (list JsonValue * list ascii) :=
  match fuel with
  | 0 => None
  | S fuel' =>
      '(v, rest) ← value fuel' s;
      match skip_spaces rest with
      | c :: rest' =>
          if Ascii.eqb c "," then
            '(vs, rest'') ← elements fuel' rest'; Some (v :: vs, rest'')
          else if Ascii.eqb c "]" then Some ([v], rest')
          else None
      | [] => None
      end
  end
with members (fuel : nat) (s : list ascii)
  : option (list (string * JsonValue) * list ascii) :=
  match fuel with
  | 0 => None
  | S fuel' =>
      '(name, rest) ← quoted (skip_spaces s);
      match skip_spaces rest with
      | c :: rest1 =>
          if Ascii.eqb c ":" then
            '(v, rest2) ← value fuel' rest1;
            match skip_spaces rest2 with
            | d :: rest3 =>
                if Ascii.eqb d "," then
                  '(fields, rest4) ← members fuel' rest3;
                  Some ((name, v) :: fields, rest4)
                else if Ascii.eqb d "}" then Some ([(name, v)], rest3)
                else None
            | [] => None
            end
          else None
      | [] => None
      end
  end.

(** [JSON.parse(text)]: one value, and nothing but spaces after it. *)
Definition parse (text : string) : option JsonValue :=
  let s := String.list_ascii_of_string text in
  '(v, rest) ← value (2 * length s + 2) s;
  match skip_spaces rest with
  | [] => Some v
  | _ :: _ => None
  end.

(** The characters of a string, escaped for a JSON text. *)
Fixpoint escape (s : string) : string :=
  match s with
  | EmptyString => EmptyString
  | String c rest =>
      if Ascii.eqb c "034" then String "092" (String "034" (escape rest))
      else if Ascii.eqb c "092" then String "092" (String "092" (escape rest))
      else if Ascii.eqb c "010" then String "092" (String "n" (escape rest))
      else if Ascii.eqb c "013" then String "092" (String "r" (escape rest))
      else if Ascii.eqb c "009" then String "092" (String "t" (escape rest))
      else if Ascii.eqb c "008" then String "092" (String "b" (escape rest))
      else if Ascii.eqb c "012" then String "092" (String "f" (escape rest))
      else String c (escape rest)
  end.

Definition print_string (s : string) : string :=
  String "034" (escape s) +:+ String "034" EmptyString.

(** A JSON text of a value, without spaces.  A number is written as its
    mantissa followed by its exponent when that is not zero, which reads
    back as the same number. *)
Fixpoint print (v : JsonValue) : string :=
  match v with
  | JNull => "null"
  | JBool true => "true"
  | JBool false => "false"
  | JNumber m e => pretty m +:+ (if (e =? 0)%Z then "" else "e" +:+ pretty e)
  | JString s => print_string s
  | JArray items =>
      "[" +:+ (fix go (l : list JsonValue) : string :=
                 match l with
                 | [] => ""
                 | x :: rest =>
                     print x +:+ match rest with
                                 | [] => ""
                                 | _ :: _ => "," +:+ go rest
                                 end
                 end) items +:+ "]"
  | JObject fields =>
      "{" +:+ (fix go (l : list (string * JsonValue)) : string :=
                 match l with
                 | [] => ""
                 | (name, x) :: rest =>
                     print_string name +:+ ":" +:+ print x
                     +:+ match rest with
                         | [] => ""
                         | _ :: _ => "," +:+ go rest
                         end
                 end) fields +:+ "}"
  end.

(** Writing examples: the text with every ['] replaced by a double
    quote. *)
Fixpoint q (text : string) : string :=
  match text with
  | EmptyString => EmptyString
  | String c rest => String (if Ascii.eqb c "'" then "034"%char else c) (q rest)
  end.

End JsonText.

(** ** Vocabulary of the statements *)

(** The digits of radix 26. *)
Definition base26 (c : ascii) : bool :=
  existsb (Ascii.eqb c) (String.list_ascii_of_string digits26).

(** The handlers [call_each] gets to invoke: those up to and including the
    first that throws. *)
Fixpoint invoked (run : Handler → list Arg → option Exception)
    (funcs : list Handler) (args : list Arg) : list Handler :=
  match funcs with
  | [] => []
  | func :: rest =>
      func :: match run func args with
              | None => invoked run rest args
              | Some _ => []
              end
  end.

(** The exception of the first handler that throws, if any does. *)
Fixpoint raised (run : Handler → list Arg → option Exception)
    (funcs : list Handler) (args : list Arg) : option Exception :=
  match funcs with
  | [] => None
  | func :: rest =>
      match run func args with
      | None => raised run rest args
      | Some ex => Some ex
      end
  end.

Definition completion_of (ex : option Exception) : Completion unit :=
  match ex with
  | None => Normal tt
  | Some ex => Throw ex
  end.

(** The trace of one [callInterceptors(event, ...args)] over [funcs]. *)
Definition dispatch_trace (run : Handler → list Arg → option Exception)
    (event : Category) (funcs : list Handler) (args : list Arg) : list Effect :=
  Fired event args :: map (fun func => Called func args) (invoked run funcs args).

Definition is_Fired (event : Category) (e : Effect) : bool :=
  match e with
  | Fired event' _ => bool_decide (event' = event)
  | _ => false
  end.

Definition is_dispatch (e : Effect) : bool :=
  match e with
  | Fired _ _ | Called _ _ => true
  | Warned _ | WarnedValue _ => false
  end.

(** [preserves f m]: running [m] leaves the observation [f] of the world
    as it was, whether [m] returns or throws. *)
Definition preserves {A B} (f : World → B) (m : M A) : Prop :=
  ∀ w, f (snd (m w)) = f w.

(** [returns m]: [m] never throws. *)
Definition returns {A} (m : M A) : Prop :=
  ∀ w, ∃ a, fst (m w) = Normal a.

(** [ignores set f]: the observation [f] does not read the field that
    [set] writes. *)
Definition ignores {X C} (set : X → World → World) (f : World → C) : Prop :=
  ∀ x w, f (set x w) = f w.

(** [keeps P m]: running [m] in a world where [P] holds leaves a world
    where it holds. *)
Definition keeps {A} (P : World → Prop) (m : M A) : Prop :=
  ∀ w, P w → P (snd (m w)).

Definition is_poll (t : Timer) : bool :=
  match t with
  | PollTimer _ _ => true
  | _ => false
  end.

(** The worlds a client can be in: handles and promises are below the next
    fresh identifier, the pending promise of [waitForConnection] is the one
    its only poll will resolve, and no stored request holds the handle of
    that poll. *)
Record wf (w : World) : Prop := mk_wf {
  wf_timers : ∀ h, next_id w ≤ h → timers w !! h = None;
  wf_promises : ∀ p, next_id w ≤ p → promises w !! p = None;
  wf_waiting : ∀ p, next_id w ≤ p → waiting w !! p = None;
  wf_handles : ∀ key r h t,
    requests w !! key = Some r → timeout_handle r = Some h →
    h < next_id w ∧ (timers w !! h = Some t → is_poll t = false);
  wf_connecting : ∀ p,
    connectingPromise w = Some p → ∃ thens, waiting w !! p = Some (Waiting thens);
  wf_poll : ∀ p,
    connectingPromise w = Some p → ∃ h, timers w !! h = Some (PollTimer p 50);
  wf_poll_current : ∀ h p every,
    timers w !! h = Some (PollTimer p every) → connectingPromise w = Some p;
  wf_poll_unique : ∀ h1 h2 t1 t2,
    timers w !! h1 = Some t1 → timers w !! h2 = Some t2 →
    is_poll t1 = true → is_poll t2 = true → h1 = h2
}.

(** The fields [wf] reads. *)
Definition wf_fields (w : World) :=
  (next_id w, timers w, promises w, waiting w, requests w, connectingPromise w).

(** The worlds a client gets into: the one its constructor makes, and those
    any sequence of inputs leads to from there. *)
Inductive reachable (JSON_parse : string → option JsonValue)
    (JSON_stringify : JsonValue → string)
    (run : Handler → list Arg → option Exception) : World → Prop :=
| reachable_new opts : reachable JSON_parse JSON_stringify run (new_DarkWS opts)
| reachable_step w i :
    reachable JSON_parse JSON_stringify run w →
    reachable JSON_parse JSON_stringify run (step JSON_parse JSON_stringify run w i).

(** [emits Q m]: whatever [m] adds to the trace satisfies [Q]. *)
Definition emits {A} (Q : Effect → Prop) (m : M A) : Prop :=
  ∀ w, ∃ new, trace (snd (m w)) = trace w ++ new ∧ Forall Q new.

(** What the [catch] of the message handler makes of an exception: the
    warning it prints, or the TypeError it raises itself when what was
    thrown is [null] or [undefined]. *)
Definition reported (ex : Exception) : Completion unit * list Effect :=
  match ex with
  | mkException syntax message =>
      (Normal tt, [Warned (if syntax then "Received invalid JSON." else message)])
  | ThrownValue None =>
      (Throw (mkException false (Json.undefined_read_message "message")), [])
  | ThrownValue (Some value) =>
      match Json.get value "message" with
      | inl raised => (Throw raised, [])
      | inr message => (Normal tt, [console_warn message])
      end
  end.

(** The outcome of a [callInterceptors] made inside the [try] of the
    message handler: how the handler completes, and its trace: the dispatch,
    then the warning if one is printed. *)
Definition guarded_completion (run : Handler → list Arg → option Exception)
    (funcs : list Handler) (args : list Arg) : Completion unit :=
  match raised run funcs args with
  | Some ex => fst (reported ex)
  | None => Normal tt
  end.

Definition guarded_dispatch_trace (run : Handler → list Arg → option Exception)
    (event : Category) (funcs : list Handler) (args : list Arg) : list Effect :=
  dispatch_trace run event funcs args
  ++ match raised run funcs args with
     | Some ex => snd (reported ex)
     | None => []
     end.

(** [grows m]: [m] never gives back a fresh identifier. *)
Definition grows {A} (m : M A) : Prop :=
  ∀ w, next_id w ≤ next_id (snd (m w)).

(** Every promise of a request named by a stored request, by a timer or by
    a queued job is below [n]. *)
Record refs_below (n : nat) (w : World) : Prop := mk_refs_below {
  refs_entries : ∀ k r, requests w !! k = Some r → promise r < n;
  refs_timers : ∀ h k q d, timers w !! h = Some (RequestTimer k q d) → q < n;
  refs_jobs : ∀ cp jobs job k q,
    waiting w !! cp = Some (Waiting jobs) → job ∈ jobs →
    job_then job = AfterRequest k q → q < n
}.

(** What the world of a client satisfies at every moment. *)
Definition sound (w : World) : Prop := wf w ∧ refs_below (next_id w) w.

(** The request with promise [p], made under [key], is pending, and what
    names it in the world does so under [key]. *)
Record safe (key : string) (p : nat) (w : World) : Prop := mk_safe {
  safe_pending : promises w !! p = Some Pending;
  safe_entries : ∀ k r, requests w !! k = Some r → promise r = p → k = key;
  safe_handles : ∀ k r h k' d,
    requests w !! k = Some r → timeout_handle r = Some h →
    timers w !! h = Some (RequestTimer k' p d) → k = key;
  safe_jobs : ∀ cp jobs job k,
    waiting w !! cp = Some (Waiting jobs) → job ∈ jobs →
    job_then job = AfterRequest k p → k = key
}.

(** An input that is neither a response framed by [key] nor the timeout of
    the request with promise [p] coming due. *)
Definition quiet (key : string) (p : nat) (w : World) (i : Input) : Prop :=
  match i with
  | SocketReceives _ text => text = "ping" ∨ fst (split_frame text) ≠ key
  | TimerFires h => ∀ k d, timers w !! h ≠ Some (RequestTimer k p d)
  | _ => True
  end.

(** A run made of such inputs. *)
Fixpoint quiet_run (JSON_parse : string → option JsonValue)
    (JSON_stringify : JsonValue → string)
    (run : Handler → list Arg → option Exception)
    (key : string) (p : nat) (w : World) (inputs : list Input) : Prop :=
  match inputs with
  | [] => True
  | i :: rest =>
      quiet key p w i
      ∧ quiet_run JSON_parse JSON_stringify run key p
          (step JSON_parse JSON_stringify run w i) rest
  end.

(** The fields [refs_below] reads. *)
Definition refs_fields (w : World) := (timers w, waiting w, requests w).

Definition names_below (n : nat) (k : Continuation) : Prop :=
  match k with
  | AfterRequest _ q => q < n
  | _ => True
  end.

(** The fields [safe] reads. *)
Definition safe_fields (w : World) := (timers w, promises w, waiting w, requests w).

(** A continuation that, if it registers the request with promise [p],
    does so under [key]. *)
Definition under (key : string) (p : nat) (k : Continuation) : Prop :=
  match k with
  | AfterRequest key' q => q = p → key' = key
  | _ => True
  end.

(** The timer of the request, once it is scheduled: handle, key and
    delay. *)
Definition scheduled (timer : option (nat * string * Z)) (p : nat) (w : World) : Prop :=
  match timer with
  | Some (h, k, d) => timers w !! h = Some (RequestTimer k p d)
  | None => True
  end.

(** Clearing [h'] spares that timer. *)
Definition spares (timer : option (nat * string * Z)) (h' : nat) : Prop :=
  match timer with
  | Some (h, _, _) => h' ≠ h
  | None => True
  end.

(** The request is pending, isolated under its key, and its timer, if it
    has been scheduled, still is. *)
Definition held (key : string) (p : nat) (timer : option (nat * string * Z))
    (w : World) : Prop :=
  wf w ∧ safe key p w ∧ scheduled timer p w.

(** [k] slashes put before a text. *)
Fixpoint slashes (k : nat) (rest : string) : string :=
  match k with
  | 0 => rest
  | S k' => String "/" (slashes k' rest)
  end.

(** The job [send] attaches to the promise of [waitForConnection]. *)
Definition send_job (JSON_stringify : JsonValue → string) (data : JsonValue) : Job :=
  mkJob ("@|" +:+ JSON_stringify data) AfterSend.

(** [socket.close()] on the socket itself. *)
Definition close_socket (ws : WebSocket) : WebSocket :=
  match readyState ws with
  | CONNECTING | OPEN => mkWebSocket CLOSING (sent ws)
  | CLOSING | CLOSED => ws
  end.

Definition is_reconnect (t : Timer) : bool :=
  match t with
  | ReconnectTimer _ => true
  | _ => false
  end.

Definition is_request (t : Timer) : bool :=
  match t with
  | RequestTimer _ _ _ => true
  | _ => false
  end.

(** The fields [old_timers] reads. *)
Definition timers_fields (w : World) := (options w, timers w).

(** [old_timers kind w0 w]: the options are those of [w0], and every
    timer of [w] of the kind [kind] was scheduled in [w0] already. *)
Definition old_timers (kind : Timer → bool) (w0 w : World) : Prop :=
  options w = options w0
  ∧ ∀ h t, timers w !! h = Some t → kind t = true → timers w0 !! h = Some t.

(** The input is an unclean close that the client answers by scheduling a
    reconnect. *)
Definition retries (w : World) (i : Input) : bool :=
  match i with
  | SocketCloses _ event =>
      negb (wasClean event) && reconnect (options w)
      && Nat.ltb (reconnectAttempt w) (reconnectAttempts (options w))
  | _ => false
  end.

(** An input that is not a response framed by [key]. *)
Definition unanswered (key : string) (i : Input) : Prop :=
  match i with
  | SocketReceives _ text => text = "ping" ∨ fst (split_frame text) ≠ key
  | _ => True
  end.

(** The promise [p] is in the state [state], and is not a fresh one. *)
Definition settled (p : nat) (state : Promise) (w : World) : Prop :=
  promises w !! p = Some state ∧ p < next_id w.

(** [this.socket] is a socket of the environment. *)
Definition has_socket (w : World) : Prop :=
  ∃ s, socket w = Some s ∧ is_Some (sockets w !! s).

(** The fields [has_socket] reads. *)
Definition socket_fields (w : World) := (socket w, sockets w).

(** What [Live.callInterceptors] gives when the loop comes to its end
    with the completion [c]. *)
Definition finished (c : Completion unit) : Completion bool :=
  match c with
  | Normal _ => Normal true
  | Throw ex => Throw ex
  end.

(** The socket at hand is open: what the poll of [waitForConnection]
    tests at every tick. *)
Definition ready (w : World) : bool :=
  match socket w with
  | Some s =>
      match sockets w !! s with
      | Some ws => bool_decide (readyState ws = OPEN)
      | None => false
      end
  | None => false
  end.

(** The input is a tick of a poll that finds the socket open. *)
Definition ready_tick (w : World) (i : Input) : bool :=
  match i with
  | TimerFires h =>
      match timers w !! h with
      | Some (PollTimer _ _) => ready w
      | _ => false
      end
  | _ => false
  end.

(** A run in which no tick of the poll finds the socket open. *)
Fixpoint waits (JSON_parse : string → option JsonValue)
    (JSON_stringify : JsonValue → string)
    (run : Handler → list Arg → option Exception)
    (w : World) (inputs : list Input) : Prop :=
  match inputs with
  | [] => True
  | i :: rest =>
      ready_tick w i = false
      ∧ waits JSON_parse JSON_stringify run (step JSON_parse JSON_stringify run w i) rest
  end.

(** [extends w0 w]: since [w0] nothing that waits for the connection has
    been let go.  The texts queued on the pending promise of
    [waitForConnection] are still queued on it, in their order, with later
    ones behind them; its poll is still running; no socket has been handed
    a text; no request has been registered and no timeout of a request
    scheduled; and a promise that no stored request and no timeout names
    is still pending. *)
Record extends (w0 w : World) : Prop := mk_extends {
  ext_queue : ∀ p jobs,
    connectingPromise w0 = Some p → waiting w0 !! p = Some (Waiting jobs) →
    connectingPromise w = Some p
    ∧ ∃ more, waiting w !! p = Some (Waiting (jobs ++ more));
  ext_poll : ∀ h p every,
    timers w0 !! h = Some (PollTimer p every) →
    timers w !! h = Some (PollTimer p every);
  ext_timers : ∀ h t,
    timers w !! h = Some t → is_request t = true → timers w0 !! h = Some t;
  ext_requests : ∀ k r, requests w !! k = Some r → requests w0 !! k = Some r;
  ext_sent : ∀ s ws,
    sockets w !! s = Some ws →
    sent ws = [] ∨ ∃ ws0, sockets w0 !! s = Some ws0 ∧ sent ws = sent ws0;
  ext_pending : ∀ q,
    promises w0 !! q = Some Pending →
    (∀ k r, requests w0 !! k = Some r → promise r ≠ q) →
    (∀ h k d, timers w0 !! h ≠ Some (RequestTimer k q d)) →
    promises w !! q = Some Pending
}.

(** A well-formed world that extends [w0]. *)
Definition still (w0 w : World) : Prop := wf w ∧ extends w0 w.

(** The fields [still] reads. *)
Definition still_fields (w : World) :=
  (next_id w, timers w, promises w, waiting w, requests w, connectingPromise w,
   sockets w).

(** The job [request] attaches to the promise of [waitForConnection]. *)
Definition request_job (JSON_stringify : JsonValue → string) (random : Random)
    (action : string) (data : option JsonValue) (p : nat) : Job :=
  mkJob (request_frame JSON_stringify (generateKey random) action data)
        (AfterRequest (generateKey random) p).

(** ** Worked examples *)

Module Examples.

(** The handlers of the examples: handler 7 throws an [Error] with the
    message [boom], every other handler returns. *)
Definition run (func : Handler) (args : list Arg) : option Exception :=
  if Nat.eqb func 7 then Some (mkException false "boom") else None.

(** The [JSON.stringify] of the examples. *)
Definition stringify (v : JsonValue) : string := JsonText.print v.

Definition play : World → list Input → World :=
  steps JsonText.parse stringify run.

Definition unclean : CloseEvent :=
  {| wasClean := false; code := 1006; reason := "" |}.

(** [Math.random()] printing as [0.12pa0345] in radix 26. *)
Definition random : Random := mkRandom [1; 2; 25; 10; 0; 3; 4; 5] eq_refl.

(** A client with default options whose socket has opened. *)
Definition opened : World :=
  play (new_DarkWS defaultOptions) [SocketOpens 0].

(** Two handlers on [message], the one subscribed last unsubscribed
    twice. *)
Definition unsubscribed_once : World :=
  play opened
    [CallIntercept Message 1; CallIntercept Message 2; CallUnsubscribe Message 2].

Definition unsubscribed_twice : World :=
  play unsubscribed_once [CallUnsubscribe Message 2].

(** A request whose text has gone out: [request('echo', {a: 1})] was
    called and the poll (timer 3) has found the socket open. *)
Definition requested : World :=
  play opened
    [CallIntercept Message 1;
     CallRequest random "echo" (Some (JObject [("a", JNumber 1 0)]));
     TimerFires 3].

(** The server echoes the payload of the request. *)
Definition echo_reply : string := JsonText.q "12pa03|{'a':1}".

(** The server answers the request with an error payload. *)
Definition error_reply : string := JsonText.q "12pa03|{'error':{'code':'E42'}}".

Definition rejected : World := play requested [SocketReceives 0 error_reply].

(** The server answers with a payload that holds the delimiter. *)
Definition bar_reply : string := JsonText.q "12pa03|{'a':'x|y'}".

(** A throwing handler subscribed to [broadcast] before another one. *)
Definition with_thrower : World :=
  play opened [CallIntercept Broadcast 7; CallIntercept Broadcast 4].

(** Two failed connections, then one that opens. *)
Definition reopened : World :=
  play (new_DarkWS defaultOptions)
    [SocketCloses 0 unclean; TimerFires 1; SocketCloses 2 unclean;
     TimerFires 3; SocketOpens 4].

(** A client whose socket closed uncleanly, with a text queued since. *)
Definition disconnected : World :=
  play (new_DarkWS defaultOptions) [SocketCloses 0 unclean; CallSend JNull].

(** What the handlers of the examples do when they may call back: handler
    8 calls the action that its [intercept] on [open] returned, every
    other handler makes no call and returns or throws as [run] says. *)
Definition behaviour (func : Handler) (args : list Arg)
  : list Live.Call * option Exception :=
  if Nat.eqb func 8 then ([Live.DoUnsubscribe Open 8], None) else ([], run func args).

(** The handlers of [run], as handlers that make no call. *)
Definition calm (func : Handler) (args : list Arg)
  : list Live.Call * option Exception :=
  ([], run func args).


(** A close the server announced. *)
Definition clean : CloseEvent :=
  {| wasClean := true; code := 1000; reason := "" |}.

(** The server pings, then closes the connection for good. *)
Definition pinged_then_closed : World :=
  play opened [SocketReceives 0 "ping"; SocketCloses 0 clean].

(** [request('echo')] on a client whose connection the server has closed
    for good. *)
Definition asked_while_closed : World :=
  play opened [SocketCloses 0 clean; CallRequest random "echo" None].

End Examples.

(** * Properties *)

(** ** Strings and arrays *)

Section JsFacts.

Import Js.

Lemma split_not_nil sep s : split sep s ≠ [].
Proof.
  induction s as [|c rest IH]; simpl; [done|].
  destruct (Ascii.eqb c sep); [done|].
  destruct (split sep rest); done.
Qed.

(** A piece free of the separator, followed by the separator, is the
    first piece of the split. *)
Lemma split_app sep (piece rest : string) :
  sep ∉ String.list_ascii_of_string piece →
  split sep (piece +:+ String sep rest) = piece :: split sep rest.
Proof.
  induction piece as [|c piece IH]; simpl; intros Hfree.
  - by rewrite Ascii.eqb_refl.
  - destruct (Ascii.eqb c sep) eqn:Heq.
    + apply Ascii.eqb_eq in Heq. subst. exfalso. apply Hfree. by left.
    + rewrite IH; [done|]. intros Hin. apply Hfree. by right.
Qed.

Lemma substring_take_drop n m s :
  String.list_ascii_of_string (String.substring n m s)
  = take m (drop n (String.list_ascii_of_string s)).
Proof.
  revert n m.
  induction s as [|c s IH]; intros [|n] [|m]; simpl;
  rewrite ?IH, ?drop_0; done.
Qed.

Lemma indexOf_from_absent `{EqDecision A} (x : A) arr i :
  x ∉ arr → indexOf_from x arr i = (-1)%Z.
Proof.
  revert i. induction arr as [|y rest IH]; intros i Hx; simpl; [done|].
  destruct (decide (y = x)) as [->|_].
  - exfalso. apply Hx. by left.
  - apply IH. intros Hin. apply Hx. by right.
Qed.

(** [indexOf] finds the first occurrence. *)
Lemma indexOf_from_present `{EqDecision A} (x : A) before after_ i :
  x ∉ before →
  indexOf_from x (before ++ x :: after_) i = (i + Z.of_nat (length before))%Z.
Proof.
  revert i. induction before as [|y rest IH]; intros i Hx; simpl.
  - rewrite decide_True by done. lia.
  - destruct (decide (y = x)) as [->|_].
    + exfalso. apply Hx. by left.
    + rewrite IH; [lia|]. intros Hin. apply Hx. by right.
Qed.

(** [splice(i, 1)] at an index inside the array removes that element. *)
Lemma splice_at {A} (before after_ : list A) (x : A) :
  splice (before ++ x :: after_) (Z.of_nat (length before)) 1 = before ++ after_.
Proof.
  unfold splice. rewrite length_app. simpl.
  rewrite (proj2 (Z.ltb_ge _ _)) by lia.
  rewrite Z.min_l by lia.
  rewrite (Z.min_l (Z.max 1 0)) by lia.
  rewrite Nat2Z.id.
  replace (Z.to_nat (Z.of_nat (length before) + Z.max 1 0))
    with (length before + 1) by lia.
  rewrite take_app_length.
  f_equal. rewrite drop_app_ge by lia.
  by replace (length before + 1 - length before) with 1 by lia.
Qed.

(** [splice(-1, 1)] removes the last element, whatever it is. *)
Lemma splice_minus_one {A} (arr : list A) :
  splice arr (-1) 1 = removelast arr.
Proof.
  unfold splice.
  change (-1 <? 0)%Z with true. cbv iota.
  destruct (decide (arr = [])) as [->|Hne]; [done|].
  destruct (exists_last Hne) as (front & x & ->).
  rewrite removelast_last, length_app. simpl.
  rewrite Z.max_l by lia.
  rewrite (Z.min_l (Z.max 1 0)) by lia.
  replace (Z.to_nat (Z.of_nat (length front + 1) + -1)) with (length front) by lia.
  replace (Z.to_nat (Z.of_nat (length front + 1) + -1 + Z.max 1 0))
    with (length front + 1) by lia.
  rewrite take_app_length.
  rewrite drop_ge; [by rewrite app_nil_r|].
  rewrite length_app. simpl. lia.
Qed.

End JsFacts.

(** ** Correlation keys *)

Section Keys.

Lemma length_of_list_ascii (cs : list ascii) :
  String.length (String.string_of_list_ascii cs) = length cs.
Proof. induction cs as [|c cs IH]; simpl; [done|by rewrite IH]. Qed.

Lemma digit_base26 d : d < 26 → base26 (digit d) = true.
Proof.
  intros Hd. do 26 (destruct d as [|d]; [reflexivity|]). lia.
Qed.

(** The key is made of the first six digits after the point. *)
Lemma generateKey_digits random :
  String.list_ascii_of_string (generateKey random)
  = take 6 (map digit (fraction random)).
Proof.
  unfold generateKey, Js.substring, toString26.
  destruct (fraction random) as [|d ds]; [reflexivity|].
  rewrite substring_take_drop.
  set (text := "0." +:+ String.string_of_list_ascii (map digit (d :: ds))).
  assert (String.list_ascii_of_string text
          = "0"%char :: "."%char :: map digit (d :: ds)) as Htext.
  { unfold text. simpl. by rewrite String.list_ascii_of_string_of_list_ascii. }
  assert (String.length text = 2 + length (map digit (d :: ds))) as Hlen.
  { rewrite <- (String.string_of_list_ascii_of_string text), Htext.
    simpl. by rewrite length_of_list_ascii. }
  rewrite Htext, Hlen.
  replace (2 `min` (2 + length (map digit (d :: ds)))) with 2 by lia.
  set (n := length (map digit (d :: ds))).
  replace (2 `min` (8 `min` (2 + n))) with 2 by lia.
  replace (2 `max` (8 `min` (2 + n)) - 2) with (6 `min` n) by lia.
  change (drop 2 ("0"%char :: "."%char :: map digit (d :: ds)))
    with (map digit (d :: ds)).
  unfold n. destruct (decide (6 ≤ length (map digit (d :: ds)))).
  - by rewrite Nat.min_l by lia.
  - rewrite Nat.min_r by lia. by rewrite !take_ge by lia.
Qed.

Lemma generateKey_length random : String.length (generateKey random) ≤ 6.
Proof.
  rewrite <- (String.string_of_list_ascii_of_string (generateKey random)).
  rewrite length_of_list_ascii, generateKey_digits.
  rewrite length_take. lia.
Qed.

Lemma generateKey_base26 random c :
  c ∈ String.list_ascii_of_string (generateKey random) → base26 c = true.
Proof.
  rewrite generateKey_digits. intros Hc.
  apply (subseteq_take 6) in Hc.
  apply list_elem_of_fmap in Hc as (d & -> & Hd).
  apply digit_base26.
  pose proof (fraction_ok random) as Hok.
  rewrite forallb_forall in Hok.
  apply list_elem_of_In, Hok, Nat.ltb_lt in Hd. done.
Qed.

Lemma generateKey_no_bar random :
  "|"%char ∉ String.list_ascii_of_string (generateKey random).
Proof. intros Hin. by apply generateKey_base26 in Hin. Qed.

Lemma generateKey_not_at random : generateKey random ≠ "@".
Proof.
  intros Heq.
  assert ("@"%char ∈ String.list_ascii_of_string (generateKey random)) as Hin.
  { rewrite Heq. by left. }
  by apply generateKey_base26 in Hin.
Qed.

Lemma generateKey_all_base26 random :
  forallb base26 (String.list_ascii_of_string (generateKey random)) = true.
Proof.
  apply forallb_forall. intros c Hc.
  by apply (generateKey_base26 random), list_elem_of_In.
Qed.

(** No name inherited from [Object.prototype] is a generated key. *)
Lemma generateKey_not_inherited random :
  generateKey random ∉ Object_prototype_keys.
Proof.
  intros Hin.
  assert (forallb (fun name =>
            negb (forallb base26 (String.list_ascii_of_string name)))
            Object_prototype_keys = true) as Hnames by reflexivity.
  rewrite forallb_forall in Hnames.
  apply list_elem_of_In, Hnames in Hin.
  by rewrite generateKey_all_base26 in Hin.
Qed.

End Keys.

(** ** Reasoning about the monad *)

Lemma set_trace_set_trace a b w : set_trace a (set_trace b w) = set_trace a w.
Proof. done. Qed.

Lemma set_trace_id w : set_trace (trace w) w = w.
Proof. by destruct w. Qed.

Lemma set_sockets_id w : set_sockets (sockets w) w = w.
Proof. by destruct w. Qed.

Section Monad.

Context {A B C : Type} (f : World → C).

Lemma preserves_ret (a : A) : preserves f (ret a).
Proof. done. Qed.

Lemma preserves_throw ex : preserves f (throw (A := A) ex).
Proof. done. Qed.

Lemma preserves_gets (g : World → A) : preserves f (gets g).
Proof. done. Qed.

Lemma preserves_modify g : (∀ w, f (g w) = f w) → preserves f (modify g).
Proof. intros Hg w. apply Hg. Qed.

Lemma preserves_bind (m : M A) (k : A → M B) :
  preserves f m → (∀ a, preserves f (k a)) → preserves f (bind m k).
Proof.
  intros Hm Hk w. unfold bind. specialize (Hm w).
  destruct (m w) as [[a|ex] w']; simpl in *; [|done].
  by rewrite Hk.
Qed.

Lemma preserves_try_catch (m : M A) (handler : Exception → M A) :
  preserves f m → (∀ ex, preserves f (handler ex)) →
  preserves f (try_catch m handler).
Proof.
  intros Hm Hh w. unfold try_catch. specialize (Hm w).
  destruct (m w) as [[a|ex] w']; simpl in *; [done|].
  by rewrite Hh.
Qed.

Lemma returns_ret (a : A) : returns (ret a).
Proof. intros w. by exists a. Qed.

Lemma returns_gets (g : World → A) : returns (gets g).
Proof. intros w. by eexists. Qed.

Lemma returns_bind (m : M A) (k : A → M B) :
  returns m → (∀ a, returns (k a)) → returns (bind m k).
Proof.
  intros Hm Hk w. unfold bind. destruct (Hm w) as [a Ha].
  destruct (m w) as [[a'|ex] w']; simpl in *; [|done].
  apply Hk.
Qed.

Lemma returns_try_catch (m : M A) (handler : Exception → M A) :
  (∀ ex, returns (handler ex)) → returns (try_catch m handler).
Proof.
  intros Hh w. unfold try_catch.
  destruct (m w) as [[a|ex] w']; simpl; [by exists a|apply Hh].
Qed.

End Monad.

Lemma returns_modify g : returns (modify g).
Proof. intros w. by exists tt. Qed.

Lemma returns_unit (m : M unit) w : returns m → fst (m w) = Normal tt.
Proof. intros Hm. destruct (Hm w) as [[] Ha]. done. Qed.

(** Goals [preserves f m] and [returns m] are split along the structure of
    [m]; what is left are the updates and the calls of other methods. *)
Ltac cases_of m :=
  match m with
  | match ?x with _ => _ end => destruct x eqn:?
  | bind ?m' _ => cases_of m'
  end.

Ltac frame_step :=
  lazymatch goal with
  | |- preserves _ (bind _ _) => apply preserves_bind; [|intros ?]
  | |- preserves _ (ret _) => apply preserves_ret
  | |- preserves _ (throw _) => apply preserves_throw
  | |- preserves _ (gets _) => apply preserves_gets
  | |- preserves _ (try_catch _ _) => apply preserves_try_catch; [|intros ?]
  | |- preserves _ (modify _) =>
      apply preserves_modify; intros ?;
      repeat match goal with H : ignores _ _ |- _ => rewrite H end; done
  | |- preserves _ (match ?x with _ => _ end) => destruct x eqn:?
  | |- returns (bind _ _) => apply returns_bind; [|intros ?]
  | |- returns (ret _) => apply returns_ret
  | |- returns (gets _) => apply returns_gets
  | |- returns (modify _) => apply returns_modify
  | |- returns (try_catch _ _) => apply returns_try_catch; intros ?
  | |- returns (match ?x with _ => _ end) => destruct x eqn:?
  end.

(** Running a computation symbolically. *)
Ltac run_m :=
  repeat (progress (unfold bind, ret, throw, gets, modify, try_catch; simpl)).

Create HintDb frame.

Ltac frame := repeat frame_step; eauto with frame.

#[global] Hint Extern 1 (ignores _ _) => (by intros ? ?) : frame.

(** ** What each method can change *)

Section Frames.

Variable JSON_parse : string → option JsonValue.
Variable JSON_stringify : JsonValue → string.
Variable run : Handler → list Arg → option Exception.

Context {C : Type} (f : World → C).

Lemma log_preserves e : ignores set_trace f → preserves f (log e).
Proof. intros. unfold log. frame. Qed.

Lemma call_each_preserves funcs args :
  ignores set_trace f → preserves f (call_each run funcs args).
Proof.
  intros Hf. induction funcs as [|func rest IH]; simpl; unfold log; frame.
Qed.

Lemma callInterceptors_preserves event args :
  ignores set_trace f → preserves f (callInterceptors run event args).
Proof.
  intros Hf. unfold callInterceptors, log. frame.
  all: by apply call_each_preserves.
Qed.

Lemma fresh_preserves : ignores set_next_id f → preserves f fresh.
Proof. intros Hf w. apply Hf. Qed.

Lemma setTimer_preserves t :
  ignores set_next_id f → ignores set_timers f → preserves f (setTimer t).
Proof. intros. unfold setTimer. frame. by apply fresh_preserves. Qed.

Lemma clearTimer_preserves h : ignores set_timers f → preserves f (clearTimer h).
Proof. intros. unfold clearTimer. frame. Qed.

Lemma connect_preserves :
  ignores set_next_id f → ignores set_sockets f → ignores set_socket f →
  preserves f connect.
Proof.
  intros. unfold connect, WebSocket_close. frame. by apply fresh_preserves.
Qed.

Lemma settle_preserves p outcome :
  ignores set_promises f → preserves f (settle p outcome).
Proof. intros. unfold settle. frame. Qed.

Lemma socket_send_preserves data :
  ignores set_sockets f → preserves f (socket_send data).
Proof. intros. unfold socket_send. frame. Qed.

Lemma register_preserves key p :
  ignores set_next_id f → ignores set_timers f → ignores set_requests f →
  preserves f (register key p).
Proof. intros. unfold register. frame. all: by apply setTimer_preserves. Qed.

Lemma send_all_preserves jobs :
  ignores set_sockets f → preserves f (send_all jobs).
Proof.
  intros. induction jobs as [|job rest IH]; simpl; frame.
  by apply socket_send_preserves.
Qed.

Lemma continue_all_preserves ks :
  ignores set_next_id f → ignores set_timers f → ignores set_requests f →
  preserves f (continue_all ks).
Proof.
  intros. induction ks as [|k rest IH]; simpl; frame.
  unfold continue. frame. by apply register_preserves.
Qed.

Lemma run_thens_preserves jobs :
  ignores set_next_id f → ignores set_timers f → ignores set_requests f →
  ignores set_sockets f → preserves f (run_thens jobs).
Proof.
  intros. unfold run_thens. frame.
  - by apply send_all_preserves.
  - by apply continue_all_preserves.
Qed.

Lemma waitForConnection_preserves :
  ignores set_next_id f → ignores set_timers f → ignores set_waiting f →
  ignores set_connectingPromise f → preserves f waitForConnection.
Proof.
  intros. unfold waitForConnection. frame.
  - by apply fresh_preserves.
  - by apply setTimer_preserves.
Qed.

Lemma _send_preserves data k :
  ignores set_next_id f → ignores set_timers f → ignores set_waiting f →
  ignores set_connectingPromise f → ignores set_requests f →
  ignores set_sockets f → preserves f (_send data k).
Proof.
  intros. unfold _send, then_. frame.
  - by apply waitForConnection_preserves.
  - by apply run_thens_preserves.
Qed.

Lemma fire_preserves handle :
  ignores set_next_id f → ignores set_timers f → ignores set_waiting f →
  ignores set_connectingPromise f → ignores set_requests f →
  ignores set_sockets f → ignores set_socket f → ignores set_promises f →
  preserves f (fire handle).
Proof.
  intros. unfold fire, poll, request_timeout, resolve_connecting. frame.
  all: first [ by apply clearTimer_preserves | by apply connect_preserves
             | by apply settle_preserves | by apply run_thens_preserves ].
Qed.

Lemma report_preserves ex : ignores set_trace f → preserves f (report ex).
Proof. intros. unfold report. frame. all: by apply log_preserves. Qed.

Lemma onmessage_preserves text :
  ignores set_next_id f → ignores set_timers f → ignores set_waiting f →
  ignores set_connectingPromise f → ignores set_requests f →
  ignores set_sockets f → ignores set_promises f → ignores set_trace f →
  preserves f (onmessage JSON_parse run text).
Proof.
  intros. unfold onmessage, JSON_parse_or_throw, error_code,
  resolver_reject, resolver_resolve.
  frame.
  all: first [ by apply _send_preserves | by apply callInterceptors_preserves
             | by apply settle_preserves | by apply clearTimer_preserves
             | by apply report_preserves ].
Qed.

Lemma send_preserves data :
  ignores set_next_id f → ignores set_timers f → ignores set_waiting f →
  ignores set_connectingPromise f → ignores set_requests f →
  ignores set_sockets f → preserves f (send JSON_stringify data).
Proof. intros. by apply _send_preserves. Qed.

Lemma request_preserves random action data :
  ignores set_next_id f → ignores set_timers f → ignores set_waiting f →
  ignores set_connectingPromise f → ignores set_requests f →
  ignores set_sockets f → ignores set_promises f →
  preserves f (request JSON_stringify random action data).
Proof.
  intros. unfold request. frame.
  - by apply fresh_preserves.
  - by apply _send_preserves.
Qed.

End Frames.

(** ** Dispatch *)

Section Dispatch.

Variable run : Handler → list Arg → option Exception.

Lemma call_each_spec funcs args w :
  call_each run funcs args w
  = (completion_of (raised run funcs args),
     set_trace (trace w ++ map (fun func => Called func args)
                             (invoked run funcs args)) w).
Proof.
  revert w. induction funcs as [|func rest IH]; intros w; simpl.
  - by rewrite app_nil_r, set_trace_id.
  - unfold bind, log, modify. simpl.
    destruct (run func args) as [ex|]; simpl.
    + done.
    + rewrite IH. simpl. by rewrite <- app_assoc.
Qed.

(** [callInterceptors] invokes the handlers of the category in the order
    they were pushed, stops at the first that throws, and lets its
    exception through. *)
Lemma callInterceptors_spec event args w :
  callInterceptors run event args w
  = (completion_of (raised run (interceptors w event) args),
     set_trace (trace w ++ dispatch_trace run event (interceptors w event) args) w).
Proof.
  unfold callInterceptors, bind, log, modify, gets, dispatch_trace. simpl.
  destruct (interceptors w event) as [|func rest] eqn:Hgroup; simpl.
  - done.
  - change (call_each run (func :: rest) args
              (set_trace (trace w ++ [Fired event args]) w)
            = (completion_of (raised run (func :: rest) args),
               set_trace (trace w ++ Fired event args ::
                  map (fun func => Called func args)
                      (invoked run (func :: rest) args)) w)).
    rewrite call_each_spec. simpl. by rewrite <- app_assoc.
Qed.

(** The [catch] clause of the message handler warns, or throws in its
    turn, as [reported] says. *)
Lemma report_spec ex w :
  report ex w = (fst (reported ex), set_trace (trace w ++ snd (reported ex)) w).
Proof.
  unfold report, reported.
  destruct ex as [syntax message|[value|]]; simpl; try done.
  - destruct (Json.get value "message") as [raised_|message]; simpl; [|done].
    by rewrite app_nil_r, set_trace_id.
  - by rewrite app_nil_r, set_trace_id.
Qed.

Lemma raised_None funcs args :
  raised run funcs args = None ↔ ∀ func, func ∈ funcs → run func args = None.
Proof.
  induction funcs as [|func rest IH]; simpl.
  - split; [|done]. intros _ func Hin. by apply elem_of_nil in Hin.
  - destruct (run func args) as [ex|] eqn:Hrun.
    + split; [done|]. intros Hall. rewrite Hall in Hrun; [done|by left].
    + rewrite IH. split.
      * intros Hall g Hg. apply elem_of_cons in Hg as [->|Hg]; auto.
      * intros Hall g Hg. apply Hall. by right.
Qed.

(** When nothing throws, every handler is invoked. *)
Lemma invoked_all funcs args :
  raised run funcs args = None → invoked run funcs args = funcs.
Proof.
  induction funcs as [|func rest IH]; simpl; [done|].
  destruct (run func args); [done|]. intros. by rewrite IH.
Qed.


End Dispatch.

(** ** Well-formed worlds *)

Section Keeps.

Context {A B : Type} (P : World → Prop).

Lemma keeps_ret (a : A) : keeps P (ret a).
Proof. by intros w. Qed.

Lemma keeps_throw ex : keeps P (throw (A := A) ex).
Proof. by intros w. Qed.

Lemma keeps_gets (g : World → A) : keeps P (gets g).
Proof. by intros w. Qed.

Lemma keeps_bind (m : M A) (k : A → M B) :
  keeps P m → (∀ a, keeps P (k a)) → keeps P (bind m k).
Proof.
  intros Hm Hk w Hw. unfold bind. specialize (Hm w Hw).
  destruct (m w) as [[a|ex] w']; simpl in *; [|done].
  by apply Hk.
Qed.

Lemma keeps_try_catch (m : M A) (handler : Exception → M A) :
  keeps P m → (∀ ex, keeps P (handler ex)) → keeps P (try_catch m handler).
Proof.
  intros Hm Hh w Hw. unfold try_catch. specialize (Hm w Hw).
  destruct (m w) as [[a|ex] w']; simpl in *; [done|].
  by apply Hh.
Qed.

End Keeps.

Ltac keeps_step :=
  lazymatch goal with
  | |- keeps _ (bind _ _) => apply keeps_bind; [|intros ?]
  | |- keeps _ (ret _) => apply keeps_ret
  | |- keeps _ (throw _) => apply keeps_throw
  | |- keeps _ (gets _) => apply keeps_gets
  | |- keeps _ (try_catch _ _) => apply keeps_try_catch; [|intros ?]
  | |- keeps _ (match ?x with _ => _ end) => destruct x eqn:?
  end.

Section Wf.

Variable JSON_parse : string → option JsonValue.
Variable JSON_stringify : JsonValue → string.
Variable run : Handler → list Arg → option Exception.

Lemma wf_agree w w' : wf_fields w' = wf_fields w → wf w → wf w'.
Proof.
  unfold wf_fields. intros [= Hn Ht Hp Hw Hr Hc] [].
  constructor; rewrite ?Hn, ?Ht, ?Hp, ?Hw, ?Hr, ?Hc; done.
Qed.

Lemma keeps_wf_preserves {X} (m : M X) : preserves wf_fields m → keeps wf m.
Proof. intros Hm w Hw. by apply (wf_agree w), Hw. Qed.

Lemma wf_empty opts : wf (empty_world opts).
Proof. constructor; simpl; intros; by simplify_map_eq. Qed.

(** A fresh identifier is taken. *)
Lemma wf_fresh : keeps wf fresh.
Proof.
  intros w []. constructor; simpl in *; intros; eauto with lia.
  edestruct wf_handles0; eauto.
Qed.

(** A timeout is scheduled. *)
Lemma wf_setTimer t : is_poll t = false → keeps wf (setTimer t).
Proof.
  intros Ht w []. constructor; simpl in *.
  - intros h Hh. rewrite lookup_insert_ne by lia. apply wf_timers0. lia.
  - intros. apply wf_promises0. lia.
  - intros. apply wf_waiting0. lia.
  - intros key r h t' Hr Hh. destruct (wf_handles0 key r h t' Hr Hh) as [Hlt Hnp].
    split; [lia|]. rewrite lookup_insert_ne by lia. done.
  - done.
  - intros p Hp. destruct (wf_poll0 p Hp) as [h Hh]. exists h.
    rewrite lookup_insert_ne; [done|]. intros <-.
    rewrite wf_timers0 in Hh; [done|lia].
  - intros h p every. rewrite lookup_insert. case_decide; [|by eauto].
    intros [= ->]. done.
  - intros h1 h2 t1 t2. rewrite !lookup_insert.
    repeat case_decide; intros; simplify_eq; try congruence; eauto.
Qed.

(** A timer other than the poll is cleared or has run. *)
Lemma wf_clearTimer h w :
  (∀ t, timers w !! h = Some t → is_poll t = false) →
  wf w → wf (after (clearTimer h) w).
Proof.
  intros Hh []. constructor; simpl in *; try done.
  - intros h' Hh'. rewrite lookup_delete. case_decide; eauto.
  - intros key r h' t Hr Hh'. destruct (wf_handles0 key r h' t Hr Hh') as [Hlt Hnp].
    split; [done|]. rewrite lookup_delete. case_decide; [done|]. done.
  - intros p Hp. destruct (wf_poll0 p Hp) as [h' Hh']. exists h'.
    rewrite lookup_delete_ne; [done|]. intros <-.
    by apply Hh in Hh'.
  - intros h' p every. rewrite lookup_delete. case_decide; [done|]. eauto.
  - intros h1 h2 t1 t2. rewrite !lookup_delete.
    repeat case_decide; try done. eauto.
Qed.

Lemma wf_settle p outcome : keeps wf (settle p outcome).
Proof.
  intros w Hw. unfold settle, bind, gets, modify. simpl.
  destruct (promises w !! p) as [[| |]|] eqn:Hp; simpl; try done.
  destruct Hw. constructor; simpl; try done.
  intros p' Hp'. rewrite lookup_insert_ne; [eauto|].
  intros <-. rewrite wf_promises0 in Hp; done.
Qed.

Lemma wf_delete_request key w :
  wf w → wf (set_requests (delete key (requests w)) w).
Proof.
  intros []. constructor; simpl; try done.
  intros key' r h t. rewrite lookup_delete. case_decide; [done|]. eauto.
Qed.

(** A request is stored, with its timeout when there is one. *)
Lemma wf_register key p : keeps wf (register key p).
Proof.
  intros w Hw. unfold register, bind, gets. simpl.
  destruct (negb (requestTimeout (options w) =? 0)%Z).
  - pose proof (wf_setTimer (RequestTimer key p (requestTimeout (options w)))
                  eq_refl w Hw) as Hw'.
    unfold setTimer, fresh, bind, modify, ret in *. simpl in *.
    destruct Hw'. constructor; simpl in *; try done.
    intros key' r h t. rewrite lookup_insert. case_decide.
    + intros [= <-] [= <-]. simpl. split; [lia|].
      rewrite lookup_insert_eq. by intros [= <-].
    + eauto.
  - unfold modify. simpl. destruct Hw. constructor; simpl; try done.
    intros key' r h t. rewrite lookup_insert. case_decide.
    + by intros [= <-] [=].
    + eauto.
Qed.

End Wf.

Create HintDb wf.

#[global] Hint Resolve wf_fresh wf_settle wf_register : wf.
#[global] Hint Extern 2 (keeps wf (setTimer _)) => (by apply wf_setTimer) : wf.
#[global] Hint Extern 5 (keeps wf _) =>
  (apply keeps_wf_preserves;
   first [ by apply callInterceptors_preserves
         | by apply send_all_preserves
         | by apply log_preserves
         | by (unfold WebSocket_close, set_readyState, intercept, unsubscribe;
               frame) ]) : wf.

Ltac keeps_wf := repeat keeps_step; eauto with wf.

Section WfMethods.

Variable JSON_parse : string → option JsonValue.
Variable JSON_stringify : JsonValue → string.
Variable run : Handler → list Arg → option Exception.

Lemma wf_connect : keeps wf connect.
Proof. unfold connect. keeps_wf. Qed.

Lemma wf_continue_all ks : keeps wf (continue_all ks).
Proof.
  induction ks as [|k rest IH]; simpl; keeps_wf.
  unfold continue. keeps_wf.
Qed.

Lemma wf_run_thens jobs : keeps wf (run_thens jobs).
Proof. unfold run_thens. keeps_wf. apply wf_continue_all. Qed.

(** The first caller of [waitForConnection] makes the promise and starts
    the poll; the world it leaves is described field by field. *)
Lemma waitForConnection_first w :
  connectingPromise w = None →
  waitForConnection w
  = (Normal (next_id w),
     set_connectingPromise (Some (next_id w))
       (set_timers (<[S (next_id w) := PollTimer (next_id w) 50]> (timers w))
          (set_next_id (S (S (next_id w)))
             (set_waiting (<[next_id w := Waiting []]> (waiting w)) w)))).
Proof.
  intros Hnone. unfold waitForConnection, bind, gets. simpl. by rewrite Hnone.
Qed.

(** Every later caller is handed the same promise, and nothing changes. *)
Lemma waitForConnection_again w p :
  connectingPromise w = Some p → waitForConnection w = (Normal p, w).
Proof.
  intros Hsome. unfold waitForConnection, bind, gets. simpl. by rewrite Hsome.
Qed.

Lemma wf_waitForConnection : keeps wf waitForConnection.
Proof.
  intros w Hw. destruct (connectingPromise w) as [p|] eqn:Hcp.
  - by rewrite (waitForConnection_again w p).
  - rewrite waitForConnection_first by done. destruct Hw.
    assert (∀ h t, timers w !! h = Some t → is_poll t = false) as Hnopoll.
    { intros h [| |p every] Hh; try done.
      apply wf_poll_current0 in Hh. congruence. }
    constructor; simpl.
    + intros h Hh. rewrite lookup_insert_ne by lia. apply wf_timers0. lia.
    + intros. apply wf_promises0. lia.
    + intros p Hp. rewrite lookup_insert_ne by lia. apply wf_waiting0. lia.
    + intros key r h t Hr Hh. destruct (wf_handles0 key r h t Hr Hh) as [Hlt Hnp].
      split; [lia|]. rewrite lookup_insert_ne by lia. done.
    + intros p [= <-]. exists []. by rewrite lookup_insert_eq.
    + intros p [= <-]. exists (S (next_id w)). by rewrite lookup_insert_eq.
    + intros h p every. rewrite lookup_insert. case_decide.
      * by intros [= <- _].
      * intros Hh. by apply Hnopoll in Hh.
    + intros h1 h2 t1 t2. rewrite !lookup_insert.
      repeat case_decide; intros H1 H2 Hp1 Hp2; simplify_eq; try done.
      * apply Hnopoll in H2. congruence.
      * apply Hnopoll in H1. congruence.
      * apply Hnopoll in H1. congruence.
Qed.

(** In a well-formed world the promise handed out is pending. *)
Lemma waitForConnection_pending w :
  wf w →
  ∃ p thens, fst (waitForConnection w) = Normal p
  ∧ connectingPromise (snd (waitForConnection w)) = Some p
  ∧ waiting (snd (waitForConnection w)) !! p = Some (Waiting thens)
  ∧ match connectingPromise w with
      | Some _ => waiting w !! p = Some (Waiting thens)
      | None => thens = []
      end.
Proof.
  intros Hw. destruct (connectingPromise w) as [p|] eqn:Hcp.
  - rewrite (waitForConnection_again w p) by done. simpl.
    destruct (wf_connecting w Hw p Hcp) as [thens Hthens].
    by exists p, thens.
  - rewrite waitForConnection_first by done. simpl.
    exists (next_id w), []. by rewrite lookup_insert_eq.
Qed.

Lemma wf_attach w p thens job :
  wf w → waiting w !! p = Some (Waiting thens) →
  wf (set_waiting (<[p := Waiting (thens ++ [job])]> (waiting w)) w).
Proof.
  intros [] Hp. constructor; simpl; try done.
  - intros p' Hp'. rewrite lookup_insert_ne; [eauto|].
    intros <-. rewrite wf_waiting0 in Hp; done.
  - intros p' Hp'. rewrite lookup_insert. case_decide; [by eexists|eauto].
Qed.

Lemma wf__send data k : keeps wf (_send data k).
Proof.
  intros w Hw. unfold _send, bind.
  pose proof (wf_waitForConnection w Hw) as Hw'.
  destruct (waitForConnection_pending w Hw) as (p & thens & Hp & _ & Hthens & _).
  destruct (waitForConnection w) as [[p'|ex] w']; simpl in *; [|done].
  injection Hp as ->.
  unfold then_, bind, gets, modify. simpl. rewrite Hthens. simpl.
  by apply wf_attach.
Qed.

End WfMethods.

(** ** The poll of [waitForConnection] *)

Section Poll.

Lemma socket_send_open data w s ws :
  socket w = Some s → sockets w !! s = Some ws → readyState ws = OPEN →
  socket_send data w
  = (Normal tt,
     set_sockets (<[s := mkWebSocket OPEN (sent ws ++ [data])]> (sockets w)) w).
Proof.
  intros Hs Hws Hopen. unfold socket_send, bind, gets. simpl.
  by rewrite Hs, Hws, Hopen.
Qed.

(** On an open socket every job is sent, in the order attached, and every
    continuation is kept. *)
Lemma send_all_open jobs w s ws :
  socket w = Some s → sockets w !! s = Some ws → readyState ws = OPEN →
  send_all jobs w
  = (Normal (map job_then jobs),
     set_sockets
       (<[s := mkWebSocket OPEN (sent ws ++ map job_data jobs)]> (sockets w)) w).
Proof.
  revert w ws. induction jobs as [|job rest IH]; intros w ws Hs Hws Hopen; simpl.
  - rewrite app_nil_r. destruct ws as [state texts]. simpl in *. subst.
    by rewrite insert_id, set_sockets_id.
  - unfold bind, try_catch. rewrite (socket_send_open _ w s ws) by done.
    unfold ret. simpl.
    rewrite (IH _ (mkWebSocket OPEN (sent ws ++ [job_data job])));
      [|done|simpl; by rewrite lookup_insert_eq|done].
    simpl. by rewrite insert_insert_eq, <- app_assoc.
Qed.

(** The tick that finds the socket open. *)
Lemma poll_ready handle p w s ws thens :
  socket w = Some s → sockets w !! s = Some ws → readyState ws = OPEN →
  waiting w !! p = Some (Waiting thens) →
  poll handle p w
  = run_thens thens
      (set_connectingPromise None
         (set_waiting (<[p := Connected s]> (waiting w))
            (set_timers (delete handle (timers w)) w))).
Proof.
  intros Hs Hws Hopen Hp.
  unfold poll, bind, gets, clearTimer, resolve_connecting, modify, ret. simpl.
  rewrite Hs, Hws. rewrite decide_True by done. run_m. rewrite Hp. by run_m.
Qed.

(** Any other tick changes nothing: the interval goes on. *)
Lemma poll_not_ready handle p w :
  (∀ s ws, socket w = Some s → sockets w !! s = Some ws → readyState ws ≠ OPEN) →
  poll handle p w = (Normal tt, w).
Proof.
  intros Hclosed. unfold poll, bind, gets. simpl.
  destruct (socket w) as [s|] eqn:Hs; [|done].
  destruct (sockets w !! s) as [ws|] eqn:Hws; [|done].
  rewrite decide_False; [done|]. by apply (Hclosed s).
Qed.

Lemma wf_resolved handle p every w s :
  wf w → timers w !! handle = Some (PollTimer p every) →
  wf (set_connectingPromise None
        (set_waiting (<[p := Connected s]> (waiting w))
           (set_timers (delete handle (timers w)) w))).
Proof.
  intros Hw Hh. pose proof Hw as [].
  assert (∀ h t, delete handle (timers w) !! h = Some t → is_poll t = false)
  as Hnopoll.
  { intros h t. rewrite lookup_delete. case_decide; [done|]. intros Ht.
    destruct (is_poll t) eqn:Hpoll; [|done].
    exfalso. apply H. symmetry. by eapply (wf_poll_unique0 h handle t). }
  constructor; simpl; try done.
  - intros h Hn. rewrite lookup_delete. case_decide; eauto.
  - intros p' Hn. rewrite lookup_insert_ne; [eauto|].
    intros <-. apply wf_poll_current0, wf_connecting0 in Hh as [thens Hthens].
    rewrite wf_waiting0 in Hthens; done.
  - intros key r h t Hr Hth.
    destruct (wf_handles0 key r h t Hr Hth) as [Hlt Hnp]. split; [done|].
    apply Hnopoll.
  - intros h p' every' Ht. by apply Hnopoll in Ht.
  - intros h1 h2 t1 t2 H1 _ Hp1. apply Hnopoll in H1. congruence.
Qed.

Lemma wf_poll_step handle p every w :
  wf w → timers w !! handle = Some (PollTimer p every) →
  wf (after (poll handle p) w).
Proof.
  intros Hw Hh. unfold after.
  destruct (socket w) as [s|] eqn:Hs;
  [destruct (sockets w !! s) as [ws|] eqn:Hws;
     [destruct (decide (readyState ws = OPEN)) as [Hopen|Hclosed]|]|].
  - pose proof Hh as Hcp.
    apply (wf_poll_current w Hw), (wf_connecting w Hw) in Hcp as [thens Hthens].
    rewrite (poll_ready handle p w s ws thens) by done.
    by eapply wf_run_thens, wf_resolved.
  - rewrite poll_not_ready; [done|]. intros s' ws' Hs' Hws'. congruence.
  - rewrite poll_not_ready; [done|]. intros s' ws' Hs' Hws'. congruence.
  - rewrite poll_not_ready; [done|]. intros s' ws' Hs' Hws'. congruence.
Qed.

Lemma wf_fire handle : keeps wf (fire handle).
Proof.
  intros w Hw. unfold fire, bind, gets. simpl.
  destruct (timers w !! handle) as [[delay|key p delay|p every]|] eqn:Hh; simpl.
  - change (wf (snd (connect (after (clearTimer handle) w)))).
    apply wf_connect, wf_clearTimer; [|done]. intros t. rewrite Hh. by intros [= <-].
  - change (wf (snd (request_timeout key p (after (clearTimer handle) w)))).
    assert (wf (after (clearTimer handle) w)) as Hw1.
    { apply wf_clearTimer; [|done]. intros t. rewrite Hh. by intros [= <-]. }
    unfold request_timeout, bind, modify. simpl.
    apply wf_settle.
    exact (wf_delete_request key (after (clearTimer handle) w) Hw1).
  - by eapply wf_poll_step.
  - done.
Qed.

End Poll.

(** ** Every reachable world is well formed *)

Section Reachable.

Variable JSON_parse : string → option JsonValue.
Variable JSON_stringify : JsonValue → string.
Variable run : Handler → list Arg → option Exception.

Lemma keeps_gets_bind {A B} (P : World → Prop) (g : World → A) (k : A → M B) :
  (∀ w, P w → P (snd (k (g w) w))) → keeps P (bind (gets g) k).
Proof. intros Hk w Hw. by apply Hk. Qed.

Lemma requests_get_Own key w r :
  requests_get key w = Own r → requests w !! key = Some r.
Proof.
  unfold requests_get. destruct (requests w !! key); [congruence|].
  by case_bool_decide.
Qed.

Lemma requests_get_Undefined key w :
  requests w !! key = None → requests_get key w ≠ Inherited →
  requests_get key w = Undefined.
Proof.
  unfold requests_get. intros ->. by case_bool_decide.
Qed.

Lemma wf_resolver_resolve w key r data :
  wf w → requests w !! key = Some r → wf (after (resolver_resolve r data) w).
Proof.
  intros Hw Hr. unfold resolver_resolve, after, bind.
  destruct (timeout_handle r) as [h|] eqn:Hh; simpl.
  - apply wf_settle. apply wf_clearTimer; [|done].
    intros t Ht. by destruct (wf_handles w Hw key r h t Hr Hh) as [_ ->].
  - by apply wf_settle.
Qed.

Lemma wf_onopen event : keeps wf (onopen run event).
Proof. unfold onopen. keeps_wf. Qed.

Lemma wf_onerror event : keeps wf (onerror run event).
Proof. unfold onerror. keeps_wf. Qed.

Lemma wf_onclose event : keeps wf (onclose run event).
Proof.
  unfold onclose. keeps_wf.
Qed.

Lemma wf_onmessage text : keeps wf (onmessage JSON_parse run text).
Proof.
  unfold onmessage.
  destruct (String.eqb text "ping"); [apply wf__send|].
  apply keeps_try_catch;
    [|intros ex; by apply keeps_wf_preserves, report_preserves].
  destruct (split_frame text) as [key _data].
  apply keeps_bind; [unfold JSON_parse_or_throw; keeps_wf|]. intros data.
  destruct (String.eqb key "@"); [keeps_wf|].
  apply keeps_gets_bind. intros w Hw.
  destruct (requests_get key w) as [r| |] eqn:Hget.
  - apply requests_get_Own in Hget.
    unfold error_code.
    destruct (Json.get data "error") as [ex|err]; [done|].
    run_m.
    destruct (Json.truthy (Json.get_opt err "code")).
    + pose proof (wf_settle (promise r) (Rejected data) w Hw) as Hw1.
      unfold resolver_reject.
      destruct (settle (promise r) (Rejected data) w) as [[[]|ex] w1];
        simpl in *; [|done].
      apply (keeps_wf_preserves (callInterceptors run Message _));
        [by apply callInterceptors_preserves|].
      by apply wf_delete_request.
    + pose proof (wf_resolver_resolve w key r data Hw Hget) as Hw1.
      unfold after in Hw1.
      destruct (resolver_resolve r data w) as [[[]|ex] w1];
        simpl in *; [|done].
      apply (keeps_wf_preserves (callInterceptors run Message _));
        [by apply callInterceptors_preserves|].
      by apply wf_delete_request.
  - unfold error_code.
    destruct (Json.get data "error") as [ex|err]; [done|].
    run_m. by destruct (Json.truthy (Json.get_opt err "code")).
  - run_m.
    apply (keeps_wf_preserves (callInterceptors run Message _));
      [by apply callInterceptors_preserves|done].
Qed.

Lemma wf_request random action data :
  keeps wf (request JSON_stringify random action data).
Proof.
  intros w Hw. unfold request.
  set (key := generateKey random).
  assert (wf (set_promises (<[next_id w := Pending]> (promises w))
                (set_next_id (S (next_id w)) w))) as Hw1.
  { destruct Hw. constructor; simpl; intros; eauto with lia.
  - rewrite lookup_insert_ne by lia. eauto with lia.
  - edestruct wf_handles0; eauto. }
    pose proof (wf__send (request_frame JSON_stringify key action data)
                (AfterRequest key (next_id w)) _ Hw1) as Hw2.
    unfold bind, fresh, modify. simpl.
    destruct (_send _ _ _) as [[[]|ex] w2]; simpl in *; done.
Qed.

Lemma wf_deliver i : keeps wf (deliver JSON_parse JSON_stringify run i).
Proof.
  destruct i; simpl.
  - apply keeps_bind; [keeps_wf|]. intros _. apply wf_onopen.
  - apply keeps_bind; [keeps_wf|]. intros _. apply wf_onclose.
  - apply wf_onerror.
  - apply wf_onmessage.
  - apply wf_fire.
  - apply wf__send.
  - apply keeps_bind; [apply wf_request|]. intros _. apply keeps_ret.
  - keeps_wf.
  - keeps_wf.
Qed.

Lemma wf_new_DarkWS opts : wf (new_DarkWS opts).
Proof. apply wf_connect, wf_empty. Qed.

Lemma wf_step w i : wf w → wf (step JSON_parse JSON_stringify run w i).
Proof. apply wf_deliver. Qed.

Lemma wf_steps inputs w :
  wf w → wf (steps JSON_parse JSON_stringify run w inputs).
Proof.
  revert w. induction inputs as [|i rest IH]; intros w Hw; simpl; [done|].
  by apply IH, wf_step.
Qed.

(** Every world a client gets into is well formed. *)
Lemma reachable_wf w : reachable JSON_parse JSON_stringify run w → wf w.
Proof.
  induction 1 as [opts|w i _ IH]; [apply wf_new_DarkWS|by apply wf_step].
Qed.

End Reachable.

(** ** What a method adds to the trace *)

Section Emits.

Context {A B : Type} (Q : Effect → Prop).

Lemma emits_preserves (m : M A) : preserves trace m → emits Q m.
Proof. intros Hm w. exists []. by rewrite app_nil_r, Hm. Qed.

Lemma emits_ret (a : A) : emits Q (ret a).
Proof. by apply emits_preserves. Qed.

Lemma emits_throw ex : emits Q (throw (A := A) ex).
Proof. by apply emits_preserves. Qed.

Lemma emits_bind (m : M A) (k : A → M B) :
  emits Q m → (∀ a, emits Q (k a)) → emits Q (bind m k).
Proof.
  intros Hm Hk w. unfold bind. destruct (Hm w) as (new & Hnew & HQ).
  destruct (m w) as [[a|ex] w']; simpl in *; [|by exists new].
  destruct (Hk a w') as (new' & Hnew' & HQ'). exists (new ++ new').
  rewrite Hnew', Hnew, app_assoc. split; [done|by apply Forall_app].
Qed.

Lemma emits_try_catch (m : M A) (handler : Exception → M A) :
  emits Q m → (∀ ex, emits Q (handler ex)) → emits Q (try_catch m handler).
Proof.
  intros Hm Hh w. unfold try_catch. destruct (Hm w) as (new & Hnew & HQ).
  destruct (m w) as [[a|ex] w']; simpl in *; [by exists new|].
  destruct (Hh ex w') as (new' & Hnew' & HQ'). exists (new ++ new').
  rewrite Hnew', Hnew, app_assoc. split; [done|by apply Forall_app].
Qed.

End Emits.

Lemma emits_log (Q : Effect → Prop) e : Q e → emits Q (log e).
Proof. intros He w. exists [e]. split; [done|by constructor]. Qed.

Lemma emits_callInterceptors (Q : Effect → Prop) run event args :
  Q (Fired event args) → (∀ func, Q (Called func args)) →
  emits Q (callInterceptors run event args).
Proof.
  intros HF HC w. rewrite callInterceptors_spec. simpl.
  eexists. split; [done|]. unfold dispatch_trace.
  constructor; [done|]. apply Forall_fmap, Forall_forall. intros func _. apply HC.
Qed.

Ltac emits_step :=
  lazymatch goal with
  | |- emits _ (bind _ _) => apply emits_bind; [|intros ?]
  | |- emits _ (ret _) => apply emits_ret
  | |- emits _ (throw _) => apply emits_throw
  | |- emits _ (gets _) => apply emits_preserves, preserves_gets
  | |- emits _ (try_catch _ _) => apply emits_try_catch; [|intros ?]
  | |- emits _ (match ?x with _ => _ end) => destruct x eqn:?
  end.

Lemma emits_report (Q : Effect → Prop) ex :
  (∀ text, Q (Warned text)) → (∀ value, Q (WarnedValue value)) →
  emits Q (report ex).
Proof.
  intros Hwarned Hvalue. unfold report. repeat emits_step.
  all: apply emits_log; unfold console_warn; repeat case_match; auto.
Qed.

(** ** C10: generated keys *)

Section GeneratedKeys.

Lemma split_frame_key key rest :
  "|"%char ∉ String.list_ascii_of_string key →
  fst (split_frame (key +:+ String "|" rest)) = key.
Proof.
  intros Hfree. unfold split_frame, Js.split_limit.
  rewrite split_app by done.
  pose proof (split_not_nil "|" rest).
  by destruct (Js.split "|" rest).
Qed.

Lemma not_ping key rest : String.eqb (key +:+ String "|" rest) "ping" = false.
Proof.
  apply String.eqb_neq.
  do 5 (destruct key as [|? key]; simpl; try discriminate).
Qed.

(** A text framed by a key other than ['@'] never fires the [broadcast]
    category. *)
Lemma onmessage_directed JSON_parse run text :
  fst (split_frame text) ≠ "@" →
  emits (fun e => is_Fired Broadcast e = false) (onmessage JSON_parse run text).
Proof.
  intros Hkey. unfold onmessage.
  destruct (String.eqb text "ping").
  { apply emits_preserves. by apply _send_preserves. }
  destruct (split_frame text) as [key _data]. simpl in Hkey.
  apply String.eqb_neq in Hkey. rewrite Hkey.
  unfold JSON_parse_or_throw, error_code, resolver_reject, resolver_resolve.
  repeat emits_step.
  all: first [ by apply emits_callInterceptors
             | by apply emits_report
             | apply emits_preserves ].
  all: first [ by apply settle_preserves | by apply clearTimer_preserves
             | by apply preserves_modify ].
Qed.

End GeneratedKeys.

(** C10.  Every generated correlation key has at most six characters, all
    of them digits of radix 26 ([0-9], [a-p]); so it is not the broadcast
    key ['@'] and holds no ['|'], an inbound text framed by it is never
    routed as a broadcast, and the key segment of the request text built
    from it is read back as that key. *)
Theorem generateKey_unambiguous (random : Random) :
  let key := generateKey random in
  String.length key ≤ 6
  ∧ forallb base26 (String.list_ascii_of_string key) = true
  ∧ key ≠ "@"
  ∧ ("|"%char ∉ String.list_ascii_of_string key)
  ∧ (∀ payload, fst (split_frame (key +:+ "|" +:+ payload)) = key)
  ∧ (∀ JSON_parse run payload w,
       ∃ new,
         trace (after (onmessage JSON_parse run (key +:+ "|" +:+ payload)) w)
         = trace w ++ new
         ∧ Forall (fun e => is_Fired Broadcast e = false) new)
  ∧ (∀ JSON_stringify action data,
       fst (split_frame (request_frame JSON_stringify key action data)) = key).
Proof.
  intros key.
  pose proof (generateKey_no_bar random) as Hbar.
  pose proof (generateKey_not_at random) as Hat.
  split; [apply generateKey_length|].
  split; [apply generateKey_all_base26|].
  split; [done|]. split; [done|].
  split; [intros payload; by apply split_frame_key|].
  split.
  - intros JSON_parse run payload w.
    apply onmessage_directed.
    change (fst (split_frame (key +:+ String "|" payload)) ≠ "@").
    by rewrite split_frame_key.
  - intros JSON_stringify action data. unfold request_frame.
    by apply split_frame_key.
Qed.

(** ** C2: the unsubscribe action *)

Section Unsubscribe.

Lemma update_same {A} (g : Category → A) c x : update g c x c = x.
Proof. unfold update. by rewrite decide_True. Qed.

Lemma update_other {A} (g : Category → A) c c' x :
  c' ≠ c → update g c x c' = g c'.
Proof. intros. unfold update. by rewrite decide_False. Qed.

(** [intercept] pushes the handler at the end of its category and leaves
    the other categories alone. *)
Lemma intercept_spec event handler w event' :
  interceptors (after (intercept event handler) w) event'
  = if decide (event' = event) then interceptors w event ++ [handler]
  else interceptors w event'.
Proof. done. Qed.

(** While the handler is subscribed, the action removes its first
    occurrence and nothing else. *)
Lemma unsubscribe_present event handler w before after_ :
  interceptors w event = before ++ handler :: after_ → handler ∉ before →
  interceptors (after (unsubscribe event handler) w) event = before ++ after_
  ∧ ∀ event', event' ≠ event →
      interceptors (after (unsubscribe event handler) w) event'
      = interceptors w event'.
Proof.
  intros Hgroup Hfirst. unfold after, unsubscribe, modify. simpl. split.
  - rewrite update_same, Hgroup. unfold Js.indexOf.
    rewrite indexOf_from_present by done. by rewrite Z.add_0_l, splice_at.
  - intros event' Hne. by rewrite update_other.
Qed.

(** Once the handler is gone, the action removes the last handler of the
    category, whichever it is. *)
Lemma unsubscribe_absent event handler w :
  handler ∉ interceptors w event →
  interceptors (after (unsubscribe event handler) w) event
  = removelast (interceptors w event).
Proof.
  intros Habsent. unfold after, unsubscribe, modify. simpl.
  rewrite update_same. unfold Js.indexOf.
  rewrite indexOf_from_absent by done. apply splice_minus_one.
Qed.

End Unsubscribe.

(** C2, at the input where the code departs from it.  Handlers 1 and 2 are
    subscribed to [message] and the action returned for handler 2 is called
    twice: the first call removes handler 2 and leaves handler 1, the second
    call removes handler 1, which was never unsubscribed. *)
Theorem unsubscribe_twice_removes_another :
  interceptors Examples.unsubscribed_once Message = [1]
  ∧ interceptors Examples.unsubscribed_twice Message = [].
Proof. apply conj; vm_compute; reflexivity. Qed.

(** ** C4: the split of an inbound text *)

Section SplitFrame.

Lemma split_pieces_free sep s piece :
  piece ∈ Js.split sep s → sep ∉ String.list_ascii_of_string piece.
Proof.
  revert piece. induction s as [|c rest IH]; intros piece; simpl.
  - intros ->%list_elem_of_singleton. apply not_elem_of_nil.
  - destruct (Ascii.eqb c sep) eqn:Hc.
    + intros [->|Hin]%elem_of_cons; [apply not_elem_of_nil|by apply IH].
    + pose proof (split_not_nil sep rest).
      destruct (Js.split sep rest) as [|first others]; [done|].
      intros [->|Hin]%elem_of_cons.
      * simpl. intros [->|Hin]%elem_of_cons.
        -- by rewrite Ascii.eqb_refl in Hc.
        -- revert Hin. apply IH. by left.
      * apply IH. by right.
Qed.

(** The text handed to [JSON.parse] never holds the delimiter: it stops
    before the second ['|'] of the inbound text. *)
Lemma split_frame_payload_free text payload :
  snd (split_frame text) = Some payload →
  "|"%char ∉ String.list_ascii_of_string payload.
Proof.
  unfold split_frame, Js.split_limit. simpl. intros Hpayload.
  apply (split_pieces_free _ text).
  apply (subseteq_take 2). by eapply list_elem_of_lookup_2.
Qed.

(** The default ['@'] of the destructuring is never taken: the split
    always has a first piece. *)
Lemma split_frame_key_is_first_piece text :
  ∃ piece, Js.split "|" text !! 0 = Some piece ∧ fst (split_frame text) = piece.
Proof.
  unfold split_frame, Js.split_limit. simpl.
  pose proof (split_not_nil "|" text).
  destruct (Js.split "|" text) as [|piece others]; [done|]. by exists piece.
Qed.

End SplitFrame.

(** C4, at the input where the code departs from it (texts are written
    with ['] for the double quote).  The reply [12pa03|{'a':'x|y'}] to a
    pending request carries a payload that is JSON, but [split('|', 2)]
    cuts it at its own bar: [JSON.parse] is handed [{'a':'x], throws, and
    the request stays pending behind a warning.  And a text without
    delimiter is taken whole as the key, not given the key ['@']. *)
Theorem payload_cut_at_second_bar :
  JsonText.parse (JsonText.q "{'a':'x|y'}") = Some (JObject [("a", JString "x|y")])
  ∧ split_frame Examples.bar_reply = ("12pa03", Some (JsonText.q "{'a':'x"))
  ∧ JsonText.parse (JsonText.q "{'a':'x") = None
  ∧ trace (Examples.play Examples.requested [SocketReceives 0 Examples.bar_reply])
    = trace Examples.requested ++ [Warned "Received invalid JSON."]
  ∧ promises (Examples.play Examples.requested [SocketReceives 0 Examples.bar_reply]) !! 1
    = Some Pending
  ∧ split_frame "abc" = ("abc", None).
Proof. repeat apply conj; vm_compute; reflexivity. Qed.

(** ** C3: settling a pending request *)

Section Settle.

(** [resolver.reject] settles the promise and touches no timer. *)
Lemma resolver_reject_keeps_timers resolver data :
  preserves timers (resolver_reject resolver data).
Proof. unfold resolver_reject. by apply settle_preserves. Qed.

(** [resolver.resolve] clears the timeout of the request. *)
Lemma resolver_resolve_clears_timer p handle data w :
  timers (after (resolver_resolve (mkResolver p (Some handle)) data) w) !! handle
  = None.
Proof.
  unfold after, resolver_resolve, bind, clearTimer, modify. simpl.
  rewrite (settle_preserves timers) by done. simpl. apply lookup_delete_eq.
Qed.

(** A directed message that finds its request, with a payload other than
    [null]: the entry is removed and the promise, if still pending, is
    settled with the payload; the timer of the request is cleared on the
    resolve path only. *)
Lemma onmessage_found JSON_parse run text data err r w :
  text ≠ "ping" → fst (split_frame text) ≠ "@" →
  JSON_parse (ToString (snd (split_frame text))) = Some data →
  requests w !! fst (split_frame text) = Some r →
  Json.get data "error" = inr err →
  let is_error := Json.truthy (Json.get_opt err "code") in
  let w' := after (onmessage JSON_parse run text) w in
  requests w' = delete (fst (split_frame text)) (requests w)
  ∧ promises w'
    = match promises w !! promise r with
      | Some Pending =>
          <[promise r := if is_error then Rejected data else Fulfilled data]>
            (promises w)
      | _ => promises w
      end
  ∧ timers w'
    = match timeout_handle r with
      | Some handle => if is_error then timers w else delete handle (timers w)
      | None => timers w
      end.
Proof.
  intros Hping Hkey Hdata Hr Herr is_error w'. unfold w', after, onmessage.
  apply String.eqb_neq in Hping. rewrite Hping.
  destruct (split_frame text) as [key _data]. simpl in *.
  apply String.eqb_neq in Hkey. rewrite Hkey.
  unfold try_catch, bind, JSON_parse_or_throw, gets, requests_get, error_code.
  rewrite Hdata. simpl. rewrite Hr, Herr. simpl. fold is_error.
  unfold resolver_reject, resolver_resolve, settle, clearTimer.
  destruct is_error; destruct (timeout_handle r) as [handle|]; run_m;
    destruct (promises w !! promise r) as [[| |]|]; run_m;
    rewrite callInterceptors_spec;
    match goal with
    | |- context [raised ?f ?funcs ?args] => destruct (raised f funcs args)
    end; simpl; rewrite ?report_spec; done.
Qed.

End Settle.

(** C3, at the input where the code departs from it.  A request with the
    default timeout is pending under key [12pa03] with timer 4.  The reply
    [12pa03|{'error':{'code':'E42'}}] (with ['] for the double quote)
    rejects its promise and removes its entry, but the timer is still
    scheduled afterwards; the reply [12pa03|{'a':1}] to the same request
    clears it. *)
Theorem reject_leaves_timeout_scheduled :
  requests Examples.requested !! "12pa03" = Some (mkResolver 1 (Some 4))
  ∧ timers Examples.requested !! 4 = Some (RequestTimer "12pa03" 1 300000)
  ∧ promises Examples.rejected !! 1
    = Some (Rejected (JObject [("error", JObject [("code", JString "E42")])]))
  ∧ requests Examples.rejected !! "12pa03" = None
  ∧ timers Examples.rejected !! 4 = Some (RequestTimer "12pa03" 1 300000)
  ∧ timers (Examples.play Examples.requested
              [SocketReceives 0 Examples.echo_reply]) !! 4 = None.
Proof. repeat apply conj; vm_compute; reflexivity. Qed.

(** The round trip of a request: [request('echo', {a: 1})] goes out as
    [12pa03|echo|{'a':1}], and the reply [12pa03|{'a':1}] fulfils its
    promise with the payload, removes its entry and clears its timer. *)
Example request_round_trip :
  (∃ ws, sockets Examples.requested !! 0 = Some ws
         ∧ sent ws = [JsonText.q "12pa03|echo|{'a':1}"])
  ∧ promises (Examples.play Examples.requested
                [SocketReceives 0 Examples.echo_reply]) !! 1
    = Some (Fulfilled (JObject [("a", JNumber 1 0)]))
  ∧ requests (Examples.play Examples.requested
                [SocketReceives 0 Examples.echo_reply]) !! "12pa03" = None
  ∧ timers (Examples.play Examples.requested
              [SocketReceives 0 Examples.echo_reply]) = ∅.
Proof.
  split; [eexists; split; vm_compute; reflexivity|].
  repeat apply conj; vm_compute; reflexivity.
Qed.

(** A reply whose payload is [null] finds the request but throws in
    [data.error]: the request stays stored and pending behind a warning,
    and [message] is not fired. *)
Example null_reply_unsettled :
  promises (Examples.play Examples.requested [SocketReceives 0 "12pa03|null"]) !! 1
  = Some Pending
  ∧ requests (Examples.play Examples.requested [SocketReceives 0 "12pa03|null"])
      !! "12pa03" = Some (mkResolver 1 (Some 4))
  ∧ trace (Examples.play Examples.requested [SocketReceives 0 "12pa03|null"])
    = trace Examples.requested
      ++ [Warned "Cannot read properties of null (reading 'error')"].
Proof. repeat apply conj; vm_compute; reflexivity. Qed.

(** ** C1 and C6: the reconnect counter *)

Section Reconnect.

Variable JSON_parse : string → option JsonValue.
Variable JSON_stringify : JsonValue → string.
Variable run : Handler → list Arg → option Exception.

Lemma onopen_preserves_reconnectAttempt event :
  preserves reconnectAttempt (onopen run event).
Proof. by apply callInterceptors_preserves. Qed.

(** A clean close, a disabled reconnect or an exhausted counter: the
    handler only fires [close]. *)
Lemma onclose_no_retry event w :
  wasClean event = true
  ∨ reconnect (options w)
  && Nat.ltb (reconnectAttempt w) (reconnectAttempts (options w)) = false →
  onclose run event w
  = callInterceptors run Close [ArgEvent (ClosedEvent event)] w.
Proof.
  intros Hno. unfold onclose. run_m.
  destruct (wasClean event); [done|]. by destruct Hno as [?| ->].
Qed.

(** An unclean close below the limit: the timer, the counter, [reconnect],
    and then [close] unless a [reconnect] handler threw. *)
Lemma onclose_retry event w :
  wasClean event = false →
  reconnect (options w)
  && Nat.ltb (reconnectAttempt w) (reconnectAttempts (options w)) = true →
  let scheduled :=
  set_reconnectAttempt (S (reconnectAttempt w))
      (set_timers
         (<[next_id w := ReconnectTimer (reconnectTimeout (options w))]> (timers w))
         (set_next_id (S (next_id w)) w)) in
  onclose run event w
  = bind (callInterceptors run Reconnect [ArgNumber (S (reconnectAttempt w))])
      (fun _ => callInterceptors run Close [ArgEvent (ClosedEvent event)])
      scheduled.
Proof.
  intros Hunclean Hretry. unfold onclose, setTimer, fresh. run_m.
  by rewrite Hunclean, Hretry.
Qed.

Lemma onclose_grows event w :
  reconnectAttempt w ≤ reconnectAttempt (after (onclose run event) w).
Proof.
  unfold after.
  destruct (wasClean event) eqn:Hclean;
  [|destruct (reconnect (options w)
                && Nat.ltb (reconnectAttempt w) (reconnectAttempts (options w)))
        eqn:Hretry].
  - rewrite onclose_no_retry by auto.
    by rewrite (callInterceptors_preserves run reconnectAttempt).
  - rewrite onclose_retry by done.
    rewrite (preserves_bind reconnectAttempt); simpl; [lia| |intros _].
  all: by apply callInterceptors_preserves.
  - rewrite onclose_no_retry by auto.
    by rewrite (callInterceptors_preserves run reconnectAttempt).
Qed.

Lemma step_grows w i :
  reconnectAttempt w ≤ reconnectAttempt (step JSON_parse JSON_stringify run w i).
Proof.
  unfold step, after. destruct i; simpl.
  - rewrite (preserves_bind reconnectAttempt); [done| |intros _].
    + unfold set_readyState. frame.
    + apply onopen_preserves_reconnectAttempt.
  - unfold bind, set_readyState, modify. simpl.
    apply (onclose_grows event (set_sockets _ w)).
  - unfold onerror. by rewrite (callInterceptors_preserves run reconnectAttempt).
  - by rewrite (onmessage_preserves JSON_parse run reconnectAttempt).
  - by rewrite (fire_preserves reconnectAttempt).
  - by rewrite (send_preserves JSON_stringify reconnectAttempt).
  - rewrite (preserves_bind reconnectAttempt); [done| |intros _; frame].
    by apply request_preserves.
  - done.
  - done.
Qed.

Lemma steps_grow inputs w :
  reconnectAttempt w
  ≤ reconnectAttempt (steps JSON_parse JSON_stringify run w inputs).
Proof.
  revert w. induction inputs as [|i rest IH]; intros w; simpl; [done|].
  etrans; [apply (step_grows w i)|apply IH].
Qed.

End Reconnect.

(** C1 as the code has it.  The open handler fires [open] and leaves
    [reconnectAttempt] as it is, and nothing else resets it either: along
    any sequence of inputs the counter never decreases. *)
Theorem reconnectAttempt_never_reset JSON_parse JSON_stringify run :
  (∀ event w, reconnectAttempt (after (onopen run event) w) = reconnectAttempt w)
  ∧ (∀ s w,
       reconnectAttempt (step JSON_parse JSON_stringify run w (SocketOpens s))
       = reconnectAttempt w)
  ∧ (∀ inputs w,
       reconnectAttempt w
       ≤ reconnectAttempt (steps JSON_parse JSON_stringify run w inputs)).
Proof.
  split; [|split].
  - intros event w. apply onopen_preserves_reconnectAttempt.
  - intros s w. unfold step, after. simpl.
    rewrite (preserves_bind reconnectAttempt); [done| |intros _].
    + unfold set_readyState. frame.
    + apply onopen_preserves_reconnectAttempt.
  - intros inputs w. apply steps_grow.
Qed.

(** C1 refuted as stated.  After two failed connections the third one
    opens: the counter is still 2 after the open, and the next unclean
    close fires [reconnect] with attempt 3, not 1. *)
Lemma open_does_not_reset_attempts :
  reconnectAttempt Examples.reopened = 2
  ∧ reconnectAttempt Examples.reopened ≠ 0
  ∧ trace (Examples.play Examples.reopened [SocketCloses 4 Examples.unclean])
    = trace Examples.reopened
      ++ [Fired Reconnect [ArgNumber 3];
          Fired Close [ArgEvent (ClosedEvent Examples.unclean)]].
Proof.
  split; [|split].
  - vm_compute. reflexivity.
  - vm_compute. discriminate.
  - vm_compute. reflexivity.
Qed.

(** C6.  On an unclean close, a reconnect is scheduled exactly when
    reconnect is enabled and the counter is below the limit.  Then one timer
    calling [connect] is added under a fresh handle with the configured
    delay, the counter grows by one, and [reconnect] fires with the new
    count before [close]; otherwise (in particular once the counter has
    reached the limit) no timer is added and only [close] fires. *)
Theorem onclose_unclean run event w :
  wf w → wasClean event = false →
  let w' := after (onclose run event) w in
  let n := reconnectAttempt w in
  let fired_close :=
    dispatch_trace run Close (interceptors w Close) [ArgEvent (ClosedEvent event)] in
  (reconnect (options w) = true ∧ n < reconnectAttempts (options w) →
     timers w !! next_id w = None
     ∧ timers w'
       = <[next_id w := ReconnectTimer (reconnectTimeout (options w))]> (timers w)
     ∧ reconnectAttempt w' = S n
     ∧ trace w'
       = trace w
         ++ dispatch_trace run Reconnect (interceptors w Reconnect) [ArgNumber (S n)]
         ++ match raised run (interceptors w Reconnect) [ArgNumber (S n)] with
            | None => fired_close
            | Some _ => []
            end)
  ∧ (¬ (reconnect (options w) = true ∧ n < reconnectAttempts (options w)) →
     timers w' = timers w
     ∧ reconnectAttempt w' = n
     ∧ trace w' = trace w ++ fired_close)
  ∧ (reconnectAttempts (options w) ≤ n → timers w' = timers w).
Proof.
  intros Hw Hunclean w' n fired_close.
  assert (¬ (reconnect (options w) = true ∧ n < reconnectAttempts (options w)) →
          timers w' = timers w ∧ reconnectAttempt w' = n
          ∧ trace w' = trace w ++ fired_close) as Hno.
  { intros Hcond. unfold w', after. rewrite onclose_no_retry.
    - by rewrite callInterceptors_spec.
    - right. apply andb_false_iff.
      destruct (reconnect (options w)); [right|by left].
      apply Nat.ltb_ge. fold n. apply Nat.nlt_ge. intros Hlt. by apply Hcond. }
  split; [|split; [done|]].
  - intros [Henabled Hbelow].
    split; [apply (wf_timers w Hw); lia|].
    unfold w', after. rewrite onclose_retry; [|done|].
    + unfold bind. rewrite callInterceptors_spec. fold n. simpl.
      destruct (raised run (interceptors w Reconnect) [ArgNumber (S n)]); simpl.
      * by rewrite app_nil_r.
      * rewrite callInterceptors_spec. simpl. by rewrite <- app_assoc.
    + rewrite Henabled. simpl. by apply Nat.ltb_lt.
  - intros Hlimit. apply Hno. intros [_ Hlt]. lia.
Qed.

Lemma onclose_unclean_witness :
  wf Examples.opened
  ∧ wasClean Examples.unclean = false
  ∧ reconnectAttempt (after (onclose Examples.run Examples.unclean) Examples.opened)
    = S (reconnectAttempt Examples.opened).
Proof.
  assert (wf Examples.opened) as Hwf by apply wf_steps, wf_new_DarkWS.
  split; [exact Hwf|]. split; [reflexivity|].
  destruct (onclose_unclean Examples.run Examples.unclean Examples.opened Hwf eq_refl)
    as [Hretry _].
  destruct Hretry as (_ & _ & Hcount & _); [|exact Hcount].
  split; vm_compute; [reflexivity|lia].
Defined.

(** ** C5: exceptions of handlers *)

Section Exceptions.

Variable JSON_parse : string → option JsonValue.
Variable run : Handler → list Arg → option Exception.

Lemma fresh_returns : returns fresh.
Proof. intros w. by eexists. Qed.

Lemma setTimer_returns t : returns (setTimer t).
Proof. unfold setTimer. frame. apply fresh_returns. Qed.

Lemma register_returns key p : returns (register key p).
Proof. unfold register. frame. all: apply setTimer_returns. Qed.

Lemma send_all_returns jobs : returns (send_all jobs).
Proof. induction jobs as [|job rest IH]; simpl; frame. Qed.

Lemma continue_all_returns ks : returns (continue_all ks).
Proof.
  induction ks as [|k rest IH]; simpl; frame.
  unfold continue. frame. apply register_returns.
Qed.

Lemma run_thens_returns jobs : returns (run_thens jobs).
Proof.
  unfold run_thens. frame; [apply send_all_returns|apply continue_all_returns].
Qed.

Lemma waitForConnection_returns : returns waitForConnection.
Proof.
  unfold waitForConnection. frame; [apply fresh_returns|apply setTimer_returns].
Qed.

Lemma _send_returns data k : returns (_send data k).
Proof.
  unfold _send, then_. frame;
    [apply waitForConnection_returns|apply run_thens_returns].
Qed.

Lemma guarded_dispatch event args w :
  try_catch (callInterceptors run event args) report w
  = (guarded_completion run (interceptors w event) args,
     set_trace (trace w ++ guarded_dispatch_trace run event
                             (interceptors w event) args) w).
Proof.
  unfold try_catch, guarded_dispatch_trace, guarded_completion.
  rewrite callInterceptors_spec.
  destruct (raised run (interceptors w event) args) as [ex|]; simpl.
  - rewrite report_spec. simpl. by rewrite <- app_assoc.
  - by rewrite app_nil_r.
Qed.

(** A broadcast: the handlers run inside the [try]. *)
Lemma onmessage_broadcast text data w :
  text ≠ "ping" → fst (split_frame text) = "@" →
  JSON_parse (ToString (snd (split_frame text))) = Some data →
  onmessage JSON_parse run text w
  = (guarded_completion run (interceptors w Broadcast)
       [ArgJson data; ArgEvent (MessageEvent text)],
     set_trace
       (trace w ++ guarded_dispatch_trace run Broadcast (interceptors w Broadcast)
                     [ArgJson data; ArgEvent (MessageEvent text)]) w).
Proof.
  intros Hping Hkey Hdata. unfold onmessage.
  apply String.eqb_neq in Hping. rewrite Hping.
  destruct (split_frame text) as [key _data]. simpl in *. subst key.
  rewrite <- guarded_dispatch.
  unfold try_catch, bind, JSON_parse_or_throw. by rewrite Hdata.
Qed.

(** A directed message for which no request is stored. *)
Lemma onmessage_unmatched text data w :
  text ≠ "ping" → fst (split_frame text) ≠ "@" →
  JSON_parse (ToString (snd (split_frame text))) = Some data →
  requests_get (fst (split_frame text)) w = Undefined →
  onmessage JSON_parse run text w
  = (guarded_completion run (interceptors w Message)
       [ArgJson data; ArgEvent (MessageEvent text)],
     set_trace
       (trace w ++ guarded_dispatch_trace run Message (interceptors w Message)
                     [ArgJson data; ArgEvent (MessageEvent text)]) w).
Proof.
  intros Hping Hkey Hdata Hget. unfold onmessage.
  apply String.eqb_neq in Hping. rewrite Hping.
  destruct (split_frame text) as [key _data]. simpl in *.
  apply String.eqb_neq in Hkey. rewrite Hkey.
  rewrite <- guarded_dispatch.
  unfold try_catch, bind, JSON_parse_or_throw, gets, ret.
  by rewrite Hdata, Hget.
Qed.

End Exceptions.

(** ** Dispatch over the live array *)

Section LiveDispatch.

Variable JSON_stringify : JsonValue → string.
Variable behaviour : Handler → list Arg → list Live.Call * option Exception.

Lemma perform_returns c : returns (Live.perform JSON_stringify c).
Proof.
  destruct c; simpl; unfold send, request, intercept, unsubscribe; frame.
  all: first [ apply _send_returns | apply fresh_returns ].
Qed.

Lemma perform_all_returns calls : returns (Live.perform_all JSON_stringify calls).
Proof. induction calls as [|c rest IH]; simpl; frame. apply perform_returns. Qed.

(** No call of the public interface writes to the trace. *)
Lemma perform_trace c : preserves trace (Live.perform JSON_stringify c).
Proof.
  destruct c; simpl.
  - by apply send_preserves.
  - apply preserves_bind; [by apply request_preserves|intros _; apply preserves_ret].
  - unfold intercept. frame.
  - unfold unsubscribe. frame.
Qed.

(** A call that does not subscribe to the category or unsubscribe from it
    leaves its array as it is. *)
Lemma perform_group event c :
  Live.subscribes event c = false →
  preserves (fun w => interceptors w event) (Live.perform JSON_stringify c).
Proof.
  destruct c as [data|random action data|event' handler|event' handler]; simpl.
  - intros _. by apply send_preserves.
  - intros _.
    apply preserves_bind; [by apply request_preserves|intros _; apply preserves_ret].
  - intros Hne%bool_decide_eq_false w. simpl. by rewrite update_other.
  - intros Hne%bool_decide_eq_false w. simpl. by rewrite update_other.
Qed.

Lemma perform_all_trace calls :
  preserves trace (Live.perform_all JSON_stringify calls).
Proof. induction calls as [|c rest IH]; simpl; frame. apply perform_trace. Qed.

Lemma perform_all_group event calls :
  Forall (fun c => Live.subscribes event c = false) calls →
  preserves (fun w => interceptors w event) (Live.perform_all JSON_stringify calls).
Proof.
  induction 1 as [|c rest Hc Hrest IH]; simpl; frame. by apply perform_group.
Qed.

(** A handler that leaves the array of the category alone: its calls are
    made, it returns or throws as it does, and the trace and that array are
    as before. *)
Lemma invoke_spec event func args w :
  Forall (fun c => Live.subscribes event c = false) (fst (behaviour func args)) →
  fst (Live.invoke JSON_stringify behaviour func args w)
  = completion_of (snd (behaviour func args))
  ∧ trace (snd (Live.invoke JSON_stringify behaviour func args w)) = trace w
  ∧ interceptors (snd (Live.invoke JSON_stringify behaviour func args w)) event
    = interceptors w event.
Proof.
  intros Hcalls. unfold Live.invoke, bind.
  pose proof (perform_all_returns (fst (behaviour func args)) w) as [[] Hret].
  pose proof (perform_all_trace (fst (behaviour func args)) w) as Htrace.
  pose proof (perform_all_group event _ Hcalls w) as Hgroup.
  destruct (Live.perform_all _ _ w) as [[[]|ex] w1]; simpl in *; [|done].
  by destruct (snd (behaviour func args)).
Qed.

(** One step of the iterator. *)
Lemma for_of_S fuel event args index w :
  Live.for_of JSON_stringify behaviour (S fuel) event args index w
  = match interceptors w event !! index with
    | None => (Normal true, w)
    | Some func =>
        match Live.invoke JSON_stringify behaviour func args
                (set_trace (trace w ++ [Called func args]) w) with
        | (Normal _, w') =>
            Live.for_of JSON_stringify behaviour fuel event args (S index) w'
        | (Throw ex, w') => (Throw ex, w')
        end
    end.
Proof.
  simpl. unfold bind at 1, gets. simpl.
  by destruct (interceptors w event !! index).
Qed.

Lemma for_of_steady event args group fuel :
  (∀ func, func ∈ group →
     Forall (fun c => Live.subscribes event c = false) (fst (behaviour func args))) →
  ∀ index w,
    interceptors w event = group → length group - index < fuel →
    let outcome := fun func args => snd (behaviour func args) in
    let r := Live.for_of JSON_stringify behaviour fuel event args index w in
    fst r = finished (completion_of (raised outcome (drop index group) args))
    ∧ trace (snd r)
      = trace w ++ map (fun func => Called func args)
                     (invoked outcome (drop index group) args)
    ∧ interceptors (snd r) event = group.
Proof.
  intros Hsteady. induction fuel as [|fuel IH]; intros index w Hgroup Hfuel; [lia|].
  cbv zeta. rewrite for_of_S, Hgroup.
  destruct (group !! index) as [func|] eqn:Hfunc.
  - rewrite (drop_S _ _ _ Hfunc). simpl.
    assert (func ∈ group) as Hin by (by eapply list_elem_of_lookup_2).
    set (w1 := set_trace (trace w ++ [Called func args]) w).
    destruct (invoke_spec event func args w1 (Hsteady func Hin))
      as (Hret & Htrace & Hsame).
    destruct (Live.invoke JSON_stringify behaviour func args w1) as [c w2].
    simpl in Hret, Htrace, Hsame. subst c.
    destruct (snd (behaviour func args)) as [ex|]; simpl.
    + rewrite Htrace. by rewrite Hsame.
    + apply lookup_lt_Some in Hfunc.
      destruct (IH (S index) w2) as (Hret' & Htrace' & Hsame'); [by rewrite Hsame|lia|].
      split; [done|]. split; [|done].
      rewrite Htrace', Htrace. simpl. by rewrite <- app_assoc.
  - apply lookup_ge_None in Hfunc. rewrite drop_ge by done. simpl.
    by rewrite app_nil_r.
Qed.

(** [callInterceptors] with handlers that leave the array of the category
    alone, whatever else they call: the handlers subscribed when it is
    entered are invoked in the order of the array, up to and including the
    first that throws, whose exception leaves [callInterceptors]. *)
Lemma live_dispatch_steady fuel event args w :
  let group := interceptors w event in
  let outcome := fun func args => snd (behaviour func args) in
  let r := Live.callInterceptors JSON_stringify behaviour fuel event args w in
  (∀ func c, func ∈ group → c ∈ fst (behaviour func args) →
     Live.subscribes event c = false) →
  length group < fuel →
  fst r = finished (completion_of (raised outcome group args))
  ∧ trace (snd r) = trace w ++ dispatch_trace outcome event group args
  ∧ interceptors (snd r) event = group.
Proof.
  intros group outcome r. unfold r, Live.callInterceptors. clear r.
  assert (interceptors w event = group) as Hgroup by done. clearbody group.
  intros Hsteady Hfuel.
  unfold bind at 1, log, modify. simpl. unfold bind, gets. simpl. rewrite Hgroup.
  destruct (decide (group = [])) as [Hnil|Hsome].
  - rewrite Hnil. simpl. by rewrite Hgroup, Hnil.
  - assert (Nat.eqb (length group) 0 = false) as ->.
    { apply Nat.eqb_neq. by destruct group. }
    simpl.
    destruct (for_of_steady event args group fuel) with
      (index := 0) (w := set_trace (trace w ++ [Fired event args]) w)
      as (Hret & Htrace & Hsame); [|done|lia|].
    { intros func Hin. apply Forall_forall. intros c Hc. by apply (Hsteady func). }
    rewrite drop_0 in Hret, Htrace. simpl in Htrace.
    split; [done|]. split; [|done].
    rewrite Htrace. unfold dispatch_trace. by rewrite <- app_assoc.
Qed.



End LiveDispatch.




(** ** The tick of the poll that finds the socket open *)

Section ReadyTick.

(** The continuations add timers under fresh handles only. *)
Lemma continue_all_old_timers ks w h :
  h < next_id w →
  timers (after (continue_all ks) w) !! h = timers w !! h
  ∧ next_id w ≤ next_id (after (continue_all ks) w).
Proof.
  revert w. induction ks as [|k rest IH]; intros w Hh; simpl; [done|].
  unfold after, bind.
  assert (timers (snd (continue k w)) !! h = timers w !! h
          ∧ next_id w ≤ next_id (snd (continue k w))) as [Ht Hn].
  { destruct k as [| |key p]; simpl; try done.
    unfold register, setTimer, fresh. run_m.
    destruct (negb (requestTimeout (options w) =? 0)%Z); simpl; [|done].
    rewrite lookup_insert_ne by lia. split; [done|lia]. }
  pose proof (continue_all_returns [k] w) as [[] Hret].
  destruct (continue k w) as [[[]|ex] w1] eqn:Hk; simpl in *.
  - destruct (IH w1) as [Ht' Hn']; [lia|]. unfold after in *.
    rewrite Ht', Ht. split; [done|lia].
  - done.
Qed.

Lemma fire_poll handle p every w :
  timers w !! handle = Some (PollTimer p every) → fire handle w = poll handle p w.
Proof. intros Hh. unfold fire, bind, gets. simpl. by rewrite Hh. Qed.

Lemma fire_cleared handle w :
  timers w !! handle = None → fire handle w = (Normal tt, w).
Proof. intros Hh. unfold fire, bind, gets. simpl. by rewrite Hh. Qed.

Lemma fire_ready handle p every w s ws jobs :
  wf w → timers w !! handle = Some (PollTimer p every) →
  waiting w !! p = Some (Waiting jobs) →
  socket w = Some s → sockets w !! s = Some ws → readyState ws = OPEN →
  let w' := after (fire handle) w in
  fst (fire handle w) = Normal tt
  ∧ wf w'
  ∧ sockets w' = <[s := mkWebSocket OPEN (sent ws ++ map job_data jobs)]> (sockets w)
  ∧ waiting w' = <[p := Connected s]> (waiting w)
  ∧ connectingPromise w' = None
  ∧ timers w' !! handle = None
  ∧ trace w' = trace w
  ∧ socket w' = Some s
  ∧ promises w' = promises w.
Proof.
  intros Hw Hh Hp Hs Hws Hopen w'.
  assert (wf w') as Hw' by apply wf_fire, Hw.
  assert (fst (fire handle w) = Normal tt) as Hret.
  { rewrite (fire_poll handle p every) by done.
    rewrite (poll_ready handle p w s ws jobs) by done.
    apply returns_unit, run_thens_returns. }
  split; [done|]. split; [done|].
  unfold w', after in *. rewrite (fire_poll handle p every) in * by done.
  rewrite (poll_ready handle p w s ws jobs) in * by done.
  set (w1 := set_connectingPromise None _) in *.
  unfold run_thens, bind in *.
  rewrite (send_all_open jobs w1 s ws) in * by done.
  set (w2 := set_sockets _ w1) in *.
  change (continue_all (map job_then jobs) w2).2
    with (after (continue_all (map job_then jobs)) w2) in *.
  unfold after.
  repeat apply conj.
  - by rewrite (continue_all_preserves sockets).
  - by rewrite (continue_all_preserves waiting).
  - by rewrite (continue_all_preserves connectingPromise).
  - assert (handle < next_id w2) as Hlt.
    { destruct (decide (handle < next_id w)) as [|Hge]; [done|].
      rewrite (wf_timers w Hw handle) in Hh by lia. done. }
    destruct (continue_all_old_timers (map job_then jobs) w2 handle Hlt)
      as [Hold _].
    unfold after in Hold. rewrite Hold. apply lookup_delete_eq.
  - by rewrite (continue_all_preserves trace).
  - by rewrite (continue_all_preserves socket).
  - by rewrite (continue_all_preserves promises).
Qed.

(** Under [wf], [_send] attaches its job to the pending promise. *)
Lemma _send_attaches data k w :
  wf w →
  ∃ p thens,
    let w' := snd (waitForConnection w) in
    _send data k w
    = (Normal tt, set_waiting (<[p := Waiting (thens ++ [mkJob data k])]> (waiting w')) w')
    ∧ connectingPromise w' = Some p
    ∧ waiting w' !! p = Some (Waiting thens)
    ∧ match connectingPromise w with
      | Some _ => waiting w !! p = Some (Waiting thens)
      | None => thens = []
      end.
Proof.
  intros Hw.
  destruct (waitForConnection_pending w Hw) as (p & thens & Hp & Hcp & Hthens & Hold).
  exists p, thens. simpl. split; [|done].
  unfold _send, bind.
  destruct (waitForConnection w) as [[p'|ex] w']; simpl in *; [|done].
  injection Hp as ->. unfold then_, bind, gets, modify. simpl. by rewrite Hthens.
Qed.

End ReadyTick.

(** ** The timeout of a request *)

Section Timeout.

Variable JSON_parse : string → option JsonValue.
Variable JSON_stringify : JsonValue → string.
Variable run : Handler → list Arg → option Exception.

(** With a nonzero timeout, registering schedules the timer of the request
    under a fresh handle and stores the request with that handle. *)
Lemma register_with_timeout key p w :
  requestTimeout (options w) ≠ 0%Z →
  register key p w
  = (Normal tt,
     set_requests (<[key := mkResolver p (Some (next_id w))]> (requests w))
       (set_timers
          (<[next_id w := RequestTimer key p (requestTimeout (options w))]> (timers w))
          (set_next_id (S (next_id w)) w))).
Proof.
  intros Hnonzero. unfold register, setTimer, fresh. run_m.
  apply Z.eqb_neq in Hnonzero. by rewrite Hnonzero.
Qed.

(** Without one, it stores the request alone. *)
Lemma register_without_timeout key p w :
  requestTimeout (options w) = 0%Z →
  register key p w
  = (Normal tt, set_requests (<[key := mkResolver p None]> (requests w)) w).
Proof. intros Hzero. unfold register. run_m. by rewrite Hzero. Qed.

Lemma continue_all_app ks ks' w :
  continue_all (ks ++ ks') w = continue_all ks' (after (continue_all ks) w).
Proof.
  revert w. induction ks as [|k rest IH]; intros w; simpl; [done|].
  unfold after, bind.
  assert (returns (continue k)) as Hk.
  { unfold continue. frame. apply register_returns. }
  destruct (Hk w) as [[] Hret].
  destruct (continue k w) as [[[]|ex] w1]; simpl in *; [|done].
  apply IH.
Qed.

(** The timer of a request comes due while the request is pending. *)
Lemma fire_request_timeout handle key p delay w :
  timers w !! handle = Some (RequestTimer key p delay) →
  promises w !! p = Some Pending →
  fire handle w
  = (Normal tt,
     set_promises (<[p := Rejected timeout_error]> (promises w))
       (set_requests (delete key (requests w))
          (set_timers (delete handle (timers w)) w))).
Proof.
  intros Hh Hp. unfold fire, request_timeout, clearTimer, settle. run_m.
  rewrite Hh. run_m. by rewrite Hp.
Qed.

(** A message whose key has no stored request settles no promise. *)
Lemma onmessage_unknown_key text w :
  requests w !! fst (split_frame text) = None →
  promises (after (onmessage JSON_parse run text) w) = promises w.
Proof.
  intros Hnone. unfold after, onmessage.
  destruct (String.eqb text "ping").
  { by apply _send_preserves. }
  destruct (split_frame text) as [key _data]. simpl in Hnone.
  assert (∀ r, requests_get key w ≠ Own r) as Hget.
  { intros r Hr. apply requests_get_Own in Hr. congruence. }
  unfold try_catch, bind, JSON_parse_or_throw, gets, error_code.
  destruct (JSON_parse (ToString _data)) as [data|]; simpl; [|done].
  destruct (String.eqb key "@").
  { rewrite callInterceptors_spec.
    destruct (raised run (interceptors w Broadcast) _); simpl;
      rewrite ?report_spec; done. }
  destruct (requests_get key w) as [r| |] eqn:Hr; [by destruct (Hget r)| |].
  - destruct (Json.get data "error") as [ex|err]; simpl;
      [by rewrite report_spec|].
    by destruct (Json.truthy (Json.get_opt err "code")).
  - unfold ret. rewrite callInterceptors_spec.
    destruct (raised run (interceptors w Message) _); simpl;
      rewrite ?report_spec; done.
Qed.

Lemma wf_new_promise w :
  wf w →
  wf (set_promises (<[next_id w := Pending]> (promises w))
        (set_next_id (S (next_id w)) w)).
Proof.
  intros []. constructor; simpl; intros; eauto with lia.
  - rewrite lookup_insert_ne by lia. eauto with lia.
  - edestruct wf_handles0; eauto.
Qed.

(** From the call of [request] to the stored request: once the poll finds
    the socket open, the text has gone out, the request is stored under its
    key with a timer of the configured duration, and its promise is
    pending. *)
Lemma request_registered random action data w s ws :
  wf w → socket w = Some s → sockets w !! s = Some ws → readyState ws = OPEN →
  requestTimeout (options w) ≠ 0%Z →
  let key := generateKey random in
  let w1 := after (request JSON_stringify random action data) w in
  ∃ p pending poll_handle,
    fst (request JSON_stringify random action data w) = Normal p
    ∧ promises w1 !! p = Some Pending
    ∧ connectingPromise w1 = Some pending
    ∧ timers w1 !! poll_handle = Some (PollTimer pending 50)
    ∧ let w2 := after (fire poll_handle) w1 in
      ∃ handle,
        timers w2 !! handle
        = Some (RequestTimer key p (requestTimeout (options w)))
        ∧ requests w2 !! key = Some (mkResolver p (Some handle))
        ∧ promises w2 !! p = Some Pending.
Proof.
  intros Hw Hs Hws Hopen Htimeout key w1.
  pose proof (wf_new_promise w Hw) as Hw0.
  set (w0 := set_promises _ _) in Hw0.
  set (frame := request_frame JSON_stringify key action data).
  destruct (_send_attaches frame (AfterRequest key (next_id w)) w0 Hw0)
    as (cp & queued & Hsend & Hcp & Hqueued & _).
  simpl in Hsend.
  assert (request JSON_stringify random action data w
          = (Normal (next_id w),
             set_waiting
               (<[cp := Waiting (queued ++ [mkJob frame (AfterRequest key (next_id w))])]>
                  (waiting (snd (waitForConnection w0))))
               (snd (waitForConnection w0)))) as Hrequest.
  { unfold request, bind, fresh, modify. simpl. fold key frame w0.
    by rewrite Hsend. }
  unfold w1, after. rewrite Hrequest. simpl.
  set (w1' := set_waiting _ _).
  assert (wf w1') as Hw1.
  { pose proof (wf__send frame (AfterRequest key (next_id w)) w0 Hw0) as H.
    by rewrite Hsend in H. }
  assert (promises w1' !! next_id w = Some Pending) as Hpending.
  { unfold w1'. simpl. rewrite (waitForConnection_preserves promises) by done.
    apply lookup_insert_eq. }
  assert (connectingPromise w1' = Some cp) as Hcp1 by done.
  destruct (wf_poll _ Hw1 cp Hcp1) as [poll_handle Hpoll].
  exists (next_id w), cp, poll_handle.
  split; [done|]. split; [done|]. split; [done|]. split; [done|].
  assert (socket w1' = Some s) as Hs1.
  { unfold w1'. simpl. by rewrite (waitForConnection_preserves socket). }
  assert (sockets w1' !! s = Some ws) as Hws1.
  { unfold w1'. simpl. by rewrite (waitForConnection_preserves sockets). }
  assert (waiting w1' !! cp
          = Some (Waiting (queued ++ [mkJob frame (AfterRequest key (next_id w))])))
    as Hjobs by apply lookup_insert_eq.
  unfold after.
  rewrite (fire_poll poll_handle cp 50) by done.
  rewrite (poll_ready poll_handle cp w1' s ws _ Hs1 Hws1 Hopen Hjobs).
  set (w1r := set_connectingPromise None _).
  unfold run_thens, bind.
  rewrite (send_all_open _ w1r s ws) by done.
  set (w1s := set_sockets _ w1r).
  rewrite map_app. simpl. rewrite continue_all_app. simpl.
  set (w1c := after (continue_all (map job_then queued)) w1s).
  assert (options w1c = options w) as Hoptions.
  { unfold w1c, after. rewrite (continue_all_preserves options) by done.
    unfold w1s, w1r, w1'. simpl.
    by rewrite (waitForConnection_preserves options). }
  assert (promises w1c = promises w1') as Hpromises.
  { unfold w1c, after. by rewrite (continue_all_preserves promises). }
  unfold bind. rewrite register_with_timeout by (by rewrite Hoptions).
  simpl. exists (next_id w1c).
  rewrite !lookup_insert_eq, Hoptions, Hpromises. done.
Qed.

End Timeout.

(** ** Fresh identifiers only grow *)

Section Grows.

Context {A B : Type}.

Lemma grows_ret (a : A) : grows (ret a).
Proof. by intros w. Qed.

Lemma grows_throw ex : grows (throw (A := A) ex).
Proof. by intros w. Qed.

Lemma grows_gets (g : World → A) : grows (gets g).
Proof. by intros w. Qed.

Lemma grows_preserves (m : M A) : preserves next_id m → grows m.
Proof. intros Hm w. by rewrite Hm. Qed.

Lemma grows_bind (m : M A) (k : A → M B) :
  grows m → (∀ a, grows (k a)) → grows (bind m k).
Proof.
  intros Hm Hk w. unfold bind. specialize (Hm w).
  destruct (m w) as [[a|ex] w']; simpl in *; [|done].
  etrans; [exact Hm|apply Hk].
Qed.

Lemma grows_try_catch (m : M A) (handler : Exception → M A) :
  grows m → (∀ ex, grows (handler ex)) → grows (try_catch m handler).
Proof.
  intros Hm Hh w. unfold try_catch. specialize (Hm w).
  destruct (m w) as [[a|ex] w']; simpl in *; [done|].
  etrans; [exact Hm|apply Hh].
Qed.

End Grows.

Lemma grows_fresh : grows fresh.
Proof. intros w. simpl. lia. Qed.

Ltac grows_step :=
  lazymatch goal with
  | |- grows (bind _ _) => apply grows_bind; [|intros ?]
  | |- grows (ret _) => apply grows_ret
  | |- grows (throw _) => apply grows_throw
  | |- grows (gets _) => apply grows_gets
  | |- grows (try_catch _ _) => apply grows_try_catch; [|intros ?]
  | |- grows (modify _) => apply grows_preserves; frame
  | |- grows fresh => apply grows_fresh
  | |- grows (match ?x with _ => _ end) => destruct x eqn:?
  end.

Create HintDb grows.

Ltac grows_all := repeat grows_step; eauto with grows.

Section GrowsMethods.

Variable JSON_parse : string → option JsonValue.
Variable JSON_stringify : JsonValue → string.
Variable run : Handler → list Arg → option Exception.

Lemma grows_callInterceptors event args : grows (callInterceptors run event args).
Proof. apply grows_preserves. by apply callInterceptors_preserves. Qed.

Lemma grows_setTimer t : grows (setTimer t).
Proof. unfold setTimer. grows_all. Qed.

Lemma grows_connect : grows connect.
Proof. unfold connect, WebSocket_close. grows_all. Qed.

Lemma grows_register key p : grows (register key p).
Proof. unfold register. grows_all; apply grows_setTimer. Qed.

Lemma grows_continue_all ks : grows (continue_all ks).
Proof.
  induction ks as [|k rest IH]; simpl; grows_all.
  unfold continue. grows_all. apply grows_register.
Qed.

Lemma grows_run_thens jobs : grows (run_thens jobs).
Proof.
  unfold run_thens. grows_all.
  - apply grows_preserves. by apply send_all_preserves.
  - apply grows_continue_all.
Qed.

Lemma grows_waitForConnection : grows waitForConnection.
Proof. unfold waitForConnection. grows_all. apply grows_setTimer. Qed.

Lemma grows__send data k : grows (_send data k).
Proof.
  unfold _send, then_. grows_all;
    [apply grows_waitForConnection|apply grows_run_thens].
Qed.

Lemma grows_fire handle : grows (fire handle).
Proof.
  unfold fire, poll, request_timeout, clearTimer, settle, resolve_connecting.
  grows_all; first [apply grows_connect | apply grows_run_thens].
Qed.

Lemma grows_onclose event : grows (onclose run event).
Proof.
  unfold onclose. grows_all;
    first [apply grows_setTimer | apply grows_callInterceptors].
Qed.

Lemma grows_onmessage text : grows (onmessage JSON_parse run text).
Proof.
  unfold onmessage, JSON_parse_or_throw, error_code, resolver_reject,
    resolver_resolve, settle, clearTimer, log.
  grows_all;
    first [ apply grows__send | apply grows_callInterceptors
          | by apply grows_preserves, report_preserves ].
Qed.

Lemma grows_request random action data :
  grows (request JSON_stringify random action data).
Proof. unfold request. grows_all. apply grows__send. Qed.

Lemma grows_deliver i : grows (deliver JSON_parse JSON_stringify run i).
Proof.
  destruct i; simpl; unfold set_readyState, onopen, onerror, send, intercept,
    unsubscribe; grows_all;
    first [ apply grows_callInterceptors | apply grows_onclose
          | apply grows_onmessage | apply grows_fire | apply grows__send
          | apply grows_request ].
Qed.

End GrowsMethods.

(** ** The promises named in a world are below the fresh identifier *)

Create HintDb refs.

Section Refs.

Variable JSON_parse : string → option JsonValue.
Variable JSON_stringify : JsonValue → string.
Variable run : Handler → list Arg → option Exception.
Variable n : nat.

Lemma refs_agree w w' :
  refs_fields w' = refs_fields w → refs_below n w → refs_below n w'.
Proof.
  unfold refs_fields. intros [= Ht Hw Hr] [].
  constructor; rewrite ?Ht, ?Hw, ?Hr; done.
Qed.

Lemma keeps_refs_preserves {X} (m : M X) :
  preserves refs_fields m → keeps (refs_below n) m.
Proof. intros Hm w Hw. by apply (refs_agree w), Hw. Qed.

Lemma refs_mono m w : n ≤ m → refs_below n w → refs_below m w.
Proof.
  intros Hle []. constructor; intros.
  - eapply Nat.lt_le_trans; [eapply refs_entries0|]; done.
  - eapply Nat.lt_le_trans; [eapply refs_timers0|]; done.
  - eapply Nat.lt_le_trans; [eapply refs_jobs0|]; done.
Qed.

Lemma refs_fresh : keeps (refs_below n) fresh.
Proof. by apply keeps_refs_preserves, fresh_preserves. Qed.

Lemma refs_setTimer t :
  (∀ k q d, t = RequestTimer k q d → q < n) → keeps (refs_below n) (setTimer t).
Proof.
  intros Ht w []. constructor; simpl; try done.
  intros h k q d. rewrite lookup_insert. case_decide; [|by eauto].
  intros [= ->]. by eapply Ht.
Qed.

Lemma refs_clearTimer h : keeps (refs_below n) (clearTimer h).
Proof.
  intros w []. constructor; simpl; try done.
  intros h' k q d. rewrite lookup_delete. case_decide; [done|by eauto].
Qed.

Lemma refs_delete_request key w :
  refs_below n w → refs_below n (set_requests (delete key (requests w)) w).
Proof.
  intros []. constructor; simpl; try done.
  intros k r. rewrite lookup_delete. case_decide; [done|by eauto].
Qed.

Lemma refs_insert_request key r w :
  promise r < n → refs_below n w →
  refs_below n (set_requests (<[key := r]> (requests w)) w).
Proof.
  intros Hr []. constructor; simpl; try done.
  intros k r'. rewrite lookup_insert. case_decide; [by intros [= <-]|by eauto].
Qed.

Lemma refs_register key q : q < n → keeps (refs_below n) (register key q).
Proof.
  intros Hq w Hw. unfold register, bind, gets. simpl.
  destruct (negb (requestTimeout (options w) =? 0)%Z).
  - pose proof (refs_setTimer (RequestTimer key q (requestTimeout (options w)))) as Ht.
    specialize (Ht ltac:(by intros ??? [= _ <- _]) w Hw).
    unfold setTimer, fresh, bind, modify, ret in *. simpl in *.
    exact (refs_insert_request key (mkResolver q (Some (next_id w))) _ Hq Ht).
  - exact (refs_insert_request key (mkResolver q None) _ Hq Hw).
Qed.

Lemma refs_continue_all ks :
  Forall (names_below n) ks → keeps (refs_below n) (continue_all ks).
Proof.
  induction 1 as [|k rest Hk _ IH]; simpl; [apply keeps_ret|].
  apply keeps_bind; [|by intros _].
  destruct k as [| |key q]; simpl; try apply keeps_ret.
  by apply refs_register.
Qed.

Lemma refs_send_all jobs : keeps (refs_below n) (send_all jobs).
Proof. by apply keeps_refs_preserves, send_all_preserves. Qed.

(** What [send_all] hands on are continuations of the jobs it was given. *)
Lemma send_all_continuations (Q : Continuation → Prop) jobs w :
  Forall (fun job => Q (job_then job)) jobs →
  ∀ ks, fst (send_all jobs w) = Normal ks → Forall Q ks.
Proof.
  intros Hjobs. revert w.
  induction Hjobs as [|job rest Hjob _ IH]; intros w ks; simpl.
  - intros [= <-]. constructor.
  - unfold bind, try_catch, ret.
    destruct (socket_send (job_data job) w) as [[[]|ex] w1]; simpl.
    + specialize (IH w1).
      destruct (send_all rest w1) as [[ks'|ex'] w2]; simpl in *; [|done].
      intros [= <-]. constructor; [done|by apply IH].
    + specialize (IH w1).
      destruct (send_all rest w1) as [[ks'|ex'] w2]; simpl in *; [|done].
      intros [= <-]. by apply IH.
Qed.

Lemma refs_run_thens jobs :
  Forall (fun job => names_below n (job_then job)) jobs →
  keeps (refs_below n) (run_thens jobs).
Proof.
  intros Hjobs w Hw. unfold run_thens, bind.
  pose proof (refs_send_all jobs w Hw) as Hw1.
  pose proof (send_all_continuations (names_below n) jobs w Hjobs) as Hks.
  destruct (send_all jobs w) as [[ks|ex] w1]; simpl in *; [|done].
  by apply refs_continue_all; [apply Hks|].
Qed.

Lemma refs_waitForConnection : keeps (refs_below n) waitForConnection.
Proof.
  intros w Hw. destruct (connectingPromise w) as [p|] eqn:Hcp.
  - by rewrite (waitForConnection_again w p).
  - rewrite waitForConnection_first by done. destruct Hw.
    constructor; simpl; try done.
    + intros h k q d. rewrite lookup_insert. case_decide; [done|by eauto].
    + intros cp jobs job k q. rewrite lookup_insert. case_decide.
      * intros [= <-] Hin. by apply elem_of_nil in Hin.
      * by eauto.
Qed.

Lemma refs_jobs_of w p thens :
  refs_below n w → waiting w !! p = Some (Waiting thens) →
  Forall (fun job => names_below n (job_then job)) thens.
Proof.
  intros Hw Hp. apply Forall_forall. intros job Hjob.
  destruct (job_then job) as [| |k q] eqn:Hthen; simpl; try done.
  by eapply (refs_jobs n w Hw p thens job k q).
Qed.

Lemma refs_then_ p job :
  names_below n (job_then job) → keeps (refs_below n) (then_ p job).
Proof.
  intros Hjob w Hw. unfold then_, bind, gets. simpl.
  destruct (waiting w !! p) as [[thens|s]|] eqn:Hp; simpl; [| |done].
  - pose proof (refs_jobs_of w p thens Hw Hp) as Hthens.
    destruct Hw. constructor; simpl; try done.
    intros cp jobs job' k q. rewrite lookup_insert. case_decide; [|by eauto].
    intros [= <-] Hin Hthen. apply elem_of_app in Hin as [Hin|Hin].
    + by eapply refs_jobs0.
    + apply list_elem_of_singleton in Hin as ->. by rewrite Hthen in Hjob.
  - apply refs_run_thens; [|done]. by repeat constructor.
Qed.

Lemma refs__send data k :
  names_below n k → keeps (refs_below n) (_send data k).
Proof.
  intros Hk. unfold _send. apply keeps_bind; [apply refs_waitForConnection|].
  intros p. by apply refs_then_.
Qed.

Lemma refs_connect : keeps (refs_below n) connect.
Proof. apply keeps_refs_preserves. by apply connect_preserves. Qed.

Lemma refs_settle p outcome : keeps (refs_below n) (settle p outcome).
Proof. apply keeps_refs_preserves. by apply settle_preserves. Qed.

Lemma refs_callInterceptors event args :
  keeps (refs_below n) (callInterceptors run event args).
Proof. apply keeps_refs_preserves. by apply callInterceptors_preserves. Qed.

Lemma refs_poll handle p : keeps (refs_below n) (poll handle p).
Proof.
  intros w Hw.
  destruct (socket w) as [s|] eqn:Hs;
    [destruct (sockets w !! s) as [ws|] eqn:Hws;
     [destruct (decide (readyState ws = OPEN)) as [Hopen|Hclosed]|]|].
  2-4: rewrite poll_not_ready; [done|intros s' ws' Hs' Hws'; congruence].
  unfold poll, bind, gets. simpl. rewrite Hs, Hws, decide_True by done.
  unfold clearTimer, resolve_connecting. run_m.
  destruct (waiting w !! p) as [[thens|s']|] eqn:Hp; run_m.
  - apply refs_run_thens; [by eapply refs_jobs_of|].
    destruct Hw. constructor; simpl; try done.
    + intros h k q d. rewrite lookup_delete. case_decide; [done|by eauto].
    + intros cp jobs job k q. rewrite lookup_insert. case_decide; [done|by eauto].
  - apply (refs_agree (after (clearTimer handle) w)); [done|].
    by apply refs_clearTimer.
  - apply (refs_agree (after (clearTimer handle) w)); [done|].
    by apply refs_clearTimer.
Qed.

Lemma refs_fire handle : keeps (refs_below n) (fire handle).
Proof.
  intros w Hw. unfold fire, bind, gets. simpl.
  destruct (timers w !! handle) as [[delay|key p delay|p every]|] eqn:Hh; simpl.
  - apply refs_connect. by apply refs_clearTimer.
  - unfold request_timeout, bind, modify. simpl.
    apply refs_settle.
    apply (refs_delete_request key (after (clearTimer handle) w)).
    by apply refs_clearTimer.
  - by apply refs_poll.
  - done.
Qed.

Lemma refs_onclose event : keeps (refs_below n) (onclose run event).
Proof.
  unfold onclose. repeat keeps_step.
  all: first [ apply keeps_ret | apply refs_callInterceptors
             | by apply refs_setTimer | idtac ].
  apply keeps_refs_preserves. frame.
Qed.

Lemma refs_onmessage text : keeps (refs_below n) (onmessage JSON_parse run text).
Proof.
  unfold onmessage.
  destruct (String.eqb text "ping"); [by apply refs__send|].
  apply keeps_try_catch;
    [|intros ex; by apply keeps_refs_preserves, report_preserves].
  destruct (split_frame text) as [key _data].
  apply keeps_bind.
  { unfold JSON_parse_or_throw. destruct (JSON_parse _); [apply keeps_ret|apply keeps_throw]. }
  intros data. destruct (String.eqb key "@"); [apply refs_callInterceptors|].
  apply keeps_bind; [apply keeps_gets|]. intros resolver.
  apply keeps_bind; [|intros _; apply refs_callInterceptors].
  destruct resolver as [r| |].
  - apply keeps_bind.
    { unfold error_code. destruct (Json.get data "error"); [apply keeps_throw|apply keeps_ret]. }
    intros c. apply keeps_bind.
    + unfold resolver_reject, resolver_resolve.
      destruct (Json.truthy c); [apply refs_settle|].
      apply keeps_bind; [|intros _; apply refs_settle].
      destruct (timeout_handle r); [apply refs_clearTimer|apply keeps_ret].
    + intros ? w Hw. by apply refs_delete_request.
  - apply keeps_bind.
    { unfold error_code. destruct (Json.get data "error"); [apply keeps_throw|apply keeps_ret]. }
    intros c. destruct (Json.truthy c); apply keeps_throw.
  - apply keeps_ret.
Qed.

End Refs.

Section Sound.

Variable JSON_parse : string → option JsonValue.
Variable JSON_stringify : JsonValue → string.
Variable run : Handler → list Arg → option Exception.

Lemma refs_request random action data w :
  refs_below (next_id w) w →
  refs_below (next_id (after (request JSON_stringify random action data) w))
    (after (request JSON_stringify random action data) w).
Proof.
  intros Hw. set (key := generateKey random).
  set (w0 := set_promises (<[next_id w := Pending]> (promises w))
               (set_next_id (S (next_id w)) w)).
  assert (refs_below (S (next_id w)) w0) as Hw0.
  { apply (refs_mono (next_id w)); [lia|]. by apply (refs_agree _ w). }
  pose proof (refs__send (S (next_id w))
                (request_frame JSON_stringify key action data)
                (AfterRequest key (next_id w)) ltac:(simpl; lia) w0 Hw0) as Hw1.
  pose proof (grows__send (request_frame JSON_stringify key action data)
                (AfterRequest key (next_id w)) w0) as Hgrow.
  unfold after, request, bind, fresh, modify. simpl. fold key w0.
  destruct (_send _ _ w0) as [[[]|ex] w1]; simpl in *;
    by apply (refs_mono (S (next_id w))).
Qed.

Lemma refs_step w i :
  refs_below (next_id w) w →
  refs_below (next_id (step JSON_parse JSON_stringify run w i))
    (step JSON_parse JSON_stringify run w i).
Proof.
  intros Hw.
  destruct i as [s|s event|s|s text|handle|data|random action data
                |event handler|event handler].
  7: { pose proof (refs_request random action data w Hw) as H.
       unfold step, after in *. simpl. unfold bind, ret.
       by destruct (request _ _ _ _ w) as [[p|ex] w1]. }
  all: apply (refs_mono (next_id w)); [apply grows_deliver|].
  all: unfold step, after; simpl.
  - apply keeps_bind; [|intros _; apply refs_callInterceptors|done].
    apply keeps_refs_preserves. unfold set_readyState. frame.
  - apply keeps_bind; [|intros _; apply refs_onclose|done].
    apply keeps_refs_preserves. unfold set_readyState. frame.
  - by apply refs_callInterceptors.
  - by apply refs_onmessage.
  - by apply refs_fire.
  - by apply refs__send.
  - apply (keeps_refs_preserves _ (intercept event handler)); [|done].
    unfold intercept. frame.
  - apply (keeps_refs_preserves _ (unsubscribe event handler)); [|done].
    unfold unsubscribe. frame.
Qed.

Lemma sound_new_DarkWS opts : sound (new_DarkWS opts).
Proof.
  split; [apply wf_new_DarkWS|].
  constructor; unfold new_DarkWS, after; simpl; intros; by simplify_map_eq.
Qed.

Lemma sound_step w i : sound w → sound (step JSON_parse JSON_stringify run w i).
Proof. intros [Hwf Hrefs]. split; [by apply wf_step|by apply refs_step]. Qed.

Lemma sound_steps inputs w :
  sound w → sound (steps JSON_parse JSON_stringify run w inputs).
Proof.
  revert w. induction inputs as [|i rest IH]; intros w Hw; simpl; [done|].
  by apply IH, sound_step.
Qed.

Lemma reachable_sound w : reachable JSON_parse JSON_stringify run w → sound w.
Proof.
  induction 1 as [opts|w i _ IH]; [apply sound_new_DarkWS|by apply sound_step].
Qed.

End Sound.

(** ** A pending request stays pending until its response or its timeout *)

Section Held.

Variable JSON_parse : string → option JsonValue.
Variable JSON_stringify : JsonValue → string.
Variable run : Handler → list Arg → option Exception.
Variable key : string.
Variable p : nat.
Variable timer : option (nat * string * Z).

Lemma safe_agree w w' : safe_fields w' = safe_fields w → safe key p w → safe key p w'.
Proof.
  unfold safe_fields. intros [= Ht Hp Hw Hr] [].
  constructor; rewrite ?Ht, ?Hp, ?Hw, ?Hr; done.
Qed.

Lemma held_agree w w' :
  wf_fields w' = wf_fields w → held key p timer w → held key p timer w'.
Proof.
  intros Hfields (Hwf & Hsafe & Htimer).
  pose proof Hfields as [= Hn Ht Hp Hw Hr Hc].
  split; [by apply (wf_agree w)|]. split.
  - apply (safe_agree w); [|done]. unfold safe_fields. congruence.
  - unfold scheduled in *. destruct timer as [[[h k] d]|]; [|done]. by rewrite Ht.
Qed.

Lemma held_preserves {X} (m : M X) :
  preserves wf_fields m → keeps (held key p timer) m.
Proof. intros Hm w Hw. by apply (held_agree w), Hw. Qed.

(** Nothing in the world names a promise that is still fresh. *)
Lemma safe_of_refs w :
  refs_below p w → promises w !! p = Some Pending → safe key p w.
Proof.
  intros [] Hp. constructor; [done| | |].
  - intros k r Hr Hpr. apply refs_entries0 in Hr. lia.
  - intros k r h k' d _ _ Ht. apply refs_timers0 in Ht. lia.
  - intros cp jobs job k Hcp Hin Hthen.
    pose proof (refs_jobs0 cp jobs job k p Hcp Hin Hthen). lia.
Qed.

Lemma scheduled_below w :
  wf w → scheduled timer p w → spares timer (next_id w).
Proof.
  intros Hwf. unfold scheduled, spares. destruct timer as [[[h k] d]|]; [|done].
  intros Hh Heq. rewrite (wf_timers w Hwf) in Hh; [done|lia].
Qed.

Lemma held_fresh : keeps (held key p timer) fresh.
Proof.
  intros w (Hwf & Hsafe & Htimer). split; [by apply wf_fresh|].
  split; [by apply (safe_agree w)|done].
Qed.

Lemma held_setTimer t : is_poll t = false → keeps (held key p timer) (setTimer t).
Proof.
  intros Ht w (Hwf & Hsafe & Htimer).
  split; [by apply wf_setTimer|]. split.
  - destruct Hsafe. constructor; simpl; try done.
    intros k r h k' d Hr Hh. destruct (wf_handles w Hwf k r h t Hr Hh) as [Hlt _].
    rewrite lookup_insert_ne by lia. by eauto.
  - pose proof (scheduled_below w Hwf Htimer) as Hspare.
    unfold scheduled, spares in *. destruct timer as [[[h k] d]|]; [|done].
    simpl. by rewrite lookup_insert_ne.
Qed.

Lemma held_clearTimer h' w :
  spares timer h' → (∀ t, timers w !! h' = Some t → is_poll t = false) →
  held key p timer w → held key p timer (after (clearTimer h') w).
Proof.
  intros Hspare Hnopoll (Hwf & Hsafe & Htimer).
  split; [by apply wf_clearTimer|]. split.
  - destruct Hsafe. constructor; simpl; try done.
    intros k r h k' d Hr Hh. rewrite lookup_delete. case_decide; [done|by eauto].
  - unfold scheduled, spares in *. destruct timer as [[[h k] d]|]; [|done].
    simpl. by rewrite lookup_delete_ne.
Qed.

Lemma held_settle q outcome :
  q ≠ p → keeps (held key p timer) (settle q outcome).
Proof.
  intros Hq w (Hwf & Hsafe & Htimer).
  split; [by apply wf_settle|].
  unfold settle, bind, gets, modify. simpl.
  destruct (promises w !! q) as [[| |]|]; simpl; try done.
  split; [|done]. destruct Hsafe. constructor; simpl; try done.
  by rewrite lookup_insert_ne.
Qed.

Lemma held_delete_request k w :
  held key p timer w → held key p timer (set_requests (delete k (requests w)) w).
Proof.
  intros (Hwf & Hsafe & Htimer). split; [by apply wf_delete_request|].
  split; [|done]. destruct Hsafe. constructor; simpl; try done.
  - intros k' r. rewrite lookup_delete. case_decide; [done|by eauto].
  - intros k' r h k'' d. rewrite lookup_delete. case_decide; [done|by eauto].
Qed.

Lemma held_register k q :
  (q = p → k = key) → keeps (held key p timer) (register k q).
Proof.
  intros Hunder w Hw. pose proof Hw as (Hwf & Hsafe & Htimer).
  split; [by apply wf_register|].
  unfold register, bind, gets. simpl.
  destruct (negb (requestTimeout (options w) =? 0)%Z).
  - destruct (held_setTimer (RequestTimer k q (requestTimeout (options w)))
                eq_refl w Hw) as (_ & Hsafe' & Htimer').
    unfold setTimer, fresh, bind, modify, ret in *. simpl in *.
    split; [|done]. destruct Hsafe'. constructor; simpl in *; try done.
    + intros k' r. rewrite lookup_insert. case_decide; [|by eauto].
      intros [= <-]. simpl. subst. by auto.
    + intros k' r h k'' d. rewrite lookup_insert. case_decide.
      * intros [= <-] [= <-]. rewrite lookup_insert_eq.
        intros [= <- <- <-]. subst. by auto.
      * by eauto.
  - unfold modify. simpl. split; [|done].
    destruct Hsafe. constructor; simpl; try done.
    + intros k' r. rewrite lookup_insert. case_decide; [|by eauto].
      intros [= <-]. simpl. subst. by auto.
    + intros k' r h k'' d. rewrite lookup_insert. case_decide; [|by eauto].
      by intros [= <-] [=].
Qed.

Lemma held_continue_all ks :
  Forall (under key p) ks → keeps (held key p timer) (continue_all ks).
Proof.
  induction 1 as [|k rest Hk _ IH]; simpl; [apply keeps_ret|].
  apply keeps_bind; [|by intros _].
  destruct k as [| |k q]; simpl; try apply keeps_ret.
  by apply held_register.
Qed.

Lemma held_run_thens jobs :
  Forall (fun job => under key p (job_then job)) jobs →
  keeps (held key p timer) (run_thens jobs).
Proof.
  intros Hjobs w Hw. unfold run_thens, bind.
  pose proof (held_preserves (send_all jobs)
                ltac:(by apply send_all_preserves) w Hw) as Hw1.
  pose proof (send_all_continuations (under key p) jobs w Hjobs) as Hks.
  destruct (send_all jobs w) as [[ks|ex] w1]; simpl in *; [|done].
  by apply held_continue_all; [apply Hks|].
Qed.

Lemma held_jobs_of w cp thens :
  safe key p w → waiting w !! cp = Some (Waiting thens) →
  Forall (fun job => under key p (job_then job)) thens.
Proof.
  intros Hsafe Hcp. apply Forall_forall. intros job Hjob.
  destruct (job_then job) as [| |k q] eqn:Hthen; simpl; try done.
  intros ->. by eapply (safe_jobs key p w Hsafe cp thens job k).
Qed.

Lemma held_waitForConnection : keeps (held key p timer) waitForConnection.
Proof.
  intros w Hw. pose proof Hw as (Hwf & Hsafe & Htimer).
  split; [by apply wf_waitForConnection|].
  destruct (connectingPromise w) as [cp|] eqn:Hcp.
  { by rewrite (waitForConnection_again w cp). }
  rewrite waitForConnection_first by done. simpl. split.
  - destruct Hsafe. constructor; simpl; try done.
    + intros k r h k' d Hr Hh.
      destruct (wf_handles w Hwf k r h (PollTimer 0 0) Hr Hh) as [Hlt _].
      rewrite lookup_insert_ne by lia. by eauto.
    + intros cp jobs job k. rewrite lookup_insert. case_decide; [|by eauto].
      intros [= <-] Hin. by apply elem_of_nil in Hin.
  - unfold scheduled in *. destruct timer as [[[h k] d]|]; [|done]. simpl.
    rewrite lookup_insert_ne; [done|]. intros <-.
    rewrite (wf_timers w Hwf) in Htimer; [done|lia].
Qed.

Lemma held_attach w cp thens job :
  under key p (job_then job) → waiting w !! cp = Some (Waiting thens) →
  held key p timer w →
  held key p timer (set_waiting (<[cp := Waiting (thens ++ [job])]> (waiting w)) w).
Proof.
  intros Hjob Hcp (Hwf & Hsafe & Htimer). split; [by apply wf_attach|].
  split; [|done].
  pose proof (held_jobs_of w cp thens Hsafe Hcp) as Hthens.
  rewrite Forall_forall in Hthens.
  destruct Hsafe. constructor; simpl; try done.
  intros cp' jobs job' k. rewrite lookup_insert. case_decide; [|by eauto].
  intros [= <-] Hin Hthen. apply elem_of_app in Hin as [Hin|Hin].
  - specialize (Hthens job' Hin). rewrite Hthen in Hthens. by apply Hthens.
  - apply list_elem_of_singleton in Hin as ->. rewrite Hthen in Hjob. by apply Hjob.
Qed.

Lemma held__send data k :
  under key p k → keeps (held key p timer) (_send data k).
Proof.
  intros Hk w Hw. pose proof Hw as (Hwf & _).
  pose proof (held_waitForConnection w Hw) as Hw'.
  destruct (_send_attaches data k w Hwf) as (cp & thens & Heq & _ & Hthens & _).
  simpl in Heq. rewrite Heq. simpl. by apply held_attach.
Qed.

Lemma held_connect : keeps (held key p timer) connect.
Proof.
  intros w (Hwf & Hsafe & Htimer). split; [by apply wf_connect|]. split.
  - apply (safe_agree w); [|done]. by apply (connect_preserves safe_fields).
  - unfold scheduled in *. destruct timer as [[[h k] d]|]; [|done].
    by rewrite (connect_preserves timers).
Qed.

Lemma held_callInterceptors event args :
  keeps (held key p timer) (callInterceptors run event args).
Proof. apply held_preserves. by apply callInterceptors_preserves. Qed.

End Held.

Section HeldSteps.

Variable JSON_parse : string → option JsonValue.
Variable JSON_stringify : JsonValue → string.
Variable run : Handler → list Arg → option Exception.
Variable key : string.
Variable p : nat.
Variable timer : option (nat * string * Z).

(** A handle that holds a timer other than the one of the request. *)
Lemma spares_other w h' t :
  timers w !! h' = Some t → (∀ k d, t ≠ RequestTimer k p d) →
  scheduled timer p w → spares timer h'.
Proof.
  intros Ht Hother. unfold scheduled, spares.
  destruct timer as [[[h k] d]|]; [|done].
  intros Hh ->. rewrite Hh in Ht. injection Ht as <-. by eapply Hother.
Qed.

Lemma held_poll handle cp every w :
  timers w !! handle = Some (PollTimer cp every) →
  held key p timer w → held key p timer (after (poll handle cp) w).
Proof.
  intros Hh Hw. pose proof Hw as (Hwf & Hsafe & Htimer). unfold after.
  destruct (socket w) as [s|] eqn:Hs;
    [destruct (sockets w !! s) as [ws|] eqn:Hws;
     [destruct (decide (readyState ws = OPEN)) as [Hopen|Hclosed]|]|].
  2-4: rewrite poll_not_ready; [done|intros s' ws' Hs' Hws'; congruence].
  pose proof Hh as Hcp.
  apply (wf_poll_current w Hwf), (wf_connecting w Hwf) in Hcp as [thens Hthens].
  rewrite (poll_ready handle cp w s ws thens) by done.
  apply held_run_thens; [by eapply held_jobs_of|].
  split; [by eapply wf_resolved|]. split.
  - destruct Hsafe. constructor; simpl; try done.
    + intros k r h k' d Hr Hth. rewrite lookup_delete. case_decide; [done|by eauto].
    + intros cp' jobs job k. rewrite lookup_insert. case_decide; [done|by eauto].
  - pose proof (spares_other w handle _ Hh ltac:(done) Htimer) as Hspare.
    unfold scheduled, spares in *. destruct timer as [[[h k] d]|]; [|done].
    simpl. by rewrite lookup_delete_ne.
Qed.

Lemma held_fire handle w :
  (∀ k d, timers w !! handle ≠ Some (RequestTimer k p d)) →
  held key p timer w → held key p timer (after (fire handle) w).
Proof.
  intros Hquiet Hw. pose proof Hw as (Hwf & Hsafe & Htimer).
  unfold after, fire, bind, gets. simpl.
  destruct (timers w !! handle) as [[delay|k q delay|cp every]|] eqn:Hh; simpl.
  - apply held_connect.
    apply held_clearTimer; [by eapply spares_other| |done].
    intros t. rewrite Hh. by intros [= <-].
  - assert (q ≠ p) as Hq by (intros ->; by eapply Hquiet).
    assert (held key p timer (after (clearTimer handle) w)) as Hw1.
    { apply held_clearTimer; [|intros t; rewrite Hh; by intros [= <-]|done].
      eapply spares_other; [done| |done]. intros k' d' [= _ -> _]. done. }
    unfold request_timeout, bind, modify. simpl.
    apply held_settle; [done|].
    exact (held_delete_request key p timer k (after (clearTimer handle) w) Hw1).
  - by eapply held_poll.
  - done.
Qed.

Lemma held_onclose event : keeps (held key p timer) (onclose run event).
Proof.
  unfold onclose. repeat keeps_step.
  all: first [ apply keeps_ret | apply held_callInterceptors
             | by apply held_setTimer | idtac ].
  apply held_preserves. frame.
Qed.

Lemma held_resolved k r data w :
  k ≠ key → requests w !! k = Some r →
  held key p timer w →
  held key p timer (after (resolver_resolve r data) w)
  ∧ held key p timer (after (resolver_reject r data) w).
Proof.
  intros Hk Hr Hw. pose proof Hw as (Hwf & Hsafe & Htimer).
  assert (promise r ≠ p) as Hpr.
  { intros Heq. by apply Hk, (safe_entries key p w Hsafe k r). }
  split; [|by apply held_settle].
  unfold after, resolver_resolve, bind.
  destruct (timeout_handle r) as [h'|] eqn:Hh'; simpl; [|by apply held_settle].
  apply held_settle; [done|]. apply held_clearTimer; [| |done].
  - unfold spares, scheduled in *. destruct timer as [[[h k'] d]|]; [|done].
    intros ->. by apply Hk, (safe_handles key p w Hsafe k r h k' d).
  - intros t Ht. by destruct (wf_handles w Hwf k r h' t Hr Hh') as [_ ->].
Qed.

Lemma held_onmessage text w :
  text = "ping" ∨ fst (split_frame text) ≠ key →
  held key p timer w → held key p timer (after (onmessage JSON_parse run text) w).
Proof.
  intros Hquiet. revert w. change (keeps (held key p timer) (onmessage JSON_parse run text)).
  unfold onmessage.
  destruct (String.eqb text "ping") eqn:Hping; [by apply held__send|].
  destruct Hquiet as [->|Hkey]; [done|].
  apply keeps_try_catch;
    [|intros ex; by apply held_preserves, report_preserves].
  destruct (split_frame text) as [k _data]. simpl in Hkey.
  apply keeps_bind.
  { unfold JSON_parse_or_throw.
    destruct (JSON_parse _); [apply keeps_ret|apply keeps_throw]. }
  intros data. destruct (String.eqb k "@"); [apply held_callInterceptors|].
  apply keeps_gets_bind. intros w Hw.
  destruct (requests_get k w) as [r| |] eqn:Hget.
  - apply requests_get_Own in Hget.
    destruct (held_resolved k r data w Hkey Hget Hw) as [Hresolve Hreject].
    unfold after in *. unfold error_code.
    destruct (Json.get data "error") as [ex|err]; [done|]. run_m.
    destruct (Json.truthy (Json.get_opt err "code")).
    + destruct (resolver_reject r data w) as [[[]|ex] w1]; simpl in *; [|done].
      apply (held_callInterceptors _ _ _ _ Message).
      by apply held_delete_request.
    + destruct (resolver_resolve r data w) as [[[]|ex] w1]; simpl in *; [|done].
      apply (held_callInterceptors _ _ _ _ Message).
      by apply held_delete_request.
  - unfold error_code.
    destruct (Json.get data "error") as [ex|err]; [done|]. run_m.
    by destruct (Json.truthy (Json.get_opt err "code")).
  - run_m. by apply (held_callInterceptors _ _ _ _ Message).
Qed.

Lemma held_new_promise w :
  held key p timer w →
  held key p timer (set_promises (<[next_id w := Pending]> (promises w))
                      (set_next_id (S (next_id w)) w)).
Proof.
  intros (Hwf & Hsafe & Htimer). split; [by apply wf_new_promise|].
  split; [|done]. destruct Hsafe. constructor; simpl; try done.
  rewrite lookup_insert_ne; [done|]. intros Heq.
  rewrite (wf_promises w Hwf p) in safe_pending0; [done|lia].
Qed.

Lemma held_request random action data :
  keeps (held key p timer) (request JSON_stringify random action data).
Proof.
  intros w Hw. pose proof Hw as (Hwf & Hsafe & _).
  pose proof (held_new_promise w Hw) as Hw0.
  assert (next_id w ≠ p) as Hfresh.
  { intros Heq. pose proof (safe_pending key p w Hsafe) as Hp.
    rewrite (wf_promises w Hwf p) in Hp; [done|lia]. }
  pose proof (held__send key p timer
                (request_frame JSON_stringify (generateKey random) action data)
                (AfterRequest (generateKey random) (next_id w))
                ltac:(by intros ?) _ Hw0) as Hw1.
  unfold request, bind, fresh, modify. simpl.
  destruct (_send _ _ _) as [[[]|ex] w1]; simpl in *; done.
Qed.

(** One input that neither answers the request nor times it out. *)
Lemma held_step w i :
  quiet key p w i → held key p timer w →
  held key p timer (step JSON_parse JSON_stringify run w i).
Proof.
  intros Hquiet Hw. unfold step, after.
  destruct i as [s|s event|s|s text|handle|data|random action data
                |event handler|event handler]; simpl in *.
  - apply keeps_bind; [|intros _; apply held_callInterceptors|done].
    apply held_preserves. unfold set_readyState. frame.
  - apply keeps_bind; [|intros _; apply held_onclose|done].
    apply held_preserves. unfold set_readyState. frame.
  - by apply held_callInterceptors.
  - by apply held_onmessage.
  - by apply held_fire.
  - by apply held__send.
  - apply keeps_bind; [apply held_request|intros _; apply keeps_ret|done].
  - apply (held_preserves _ _ _ (intercept event handler)); [|done].
    unfold intercept. frame.
  - apply (held_preserves _ _ _ (unsubscribe event handler)); [|done].
    unfold unsubscribe. frame.
Qed.

Lemma held_steps inputs w :
  quiet_run JSON_parse JSON_stringify run key p w inputs →
  held key p timer w →
  held key p timer (steps JSON_parse JSON_stringify run w inputs).
Proof.
  revert w. induction inputs as [|i rest IH]; intros w; simpl; [done|].
  intros [Hquiet Hrest] Hw. by apply IH, held_step.
Qed.

End HeldSteps.

Section Lifecycle.

Variable JSON_parse : string → option JsonValue.
Variable JSON_stringify : JsonValue → string.
Variable run : Handler → list Arg → option Exception.

(** [request] returns a fresh pending promise, named by nothing but the
    job it queued. *)
Lemma request_held random action data w :
  sound w →
  fst (request JSON_stringify random action data w) = Normal (next_id w)
  ∧ held (generateKey random) (next_id w) None
      (after (request JSON_stringify random action data) w).
Proof.
  intros [Hwf Hrefs]. set (key := generateKey random). set (p := next_id w).
  set (w0 := set_promises (<[p := Pending]> (promises w)) (set_next_id (S p) w)).
  assert (held key p None w0) as Hw0.
  { split; [by apply wf_new_promise|]. split; [|done].
    apply safe_of_refs; [by apply (refs_agree _ w)|apply lookup_insert_eq]. }
  pose proof (held__send key p None
                (request_frame JSON_stringify key action data)
                (AfterRequest key p) ltac:(by intros ?) w0 Hw0) as Hw1.
  pose proof (_send_returns (request_frame JSON_stringify key action data)
                (AfterRequest key p) w0) as [[] Hret].
  unfold after, request, bind, fresh, modify. simpl. fold key p w0.
  destruct (_send _ _ w0) as [[[]|ex] w1]; simpl in *; done.
Qed.

End Lifecycle.

(** * Further properties of the client *)

(** ** The address of the socket *)

Section Address.

Lemma digit_of_pretty d : (d < 10)%N → digit_of (pretty_N_char d) = Some d.
Proof.
  intros Hd.
  assert (d = 0 ∨ d = 1 ∨ d = 2 ∨ d = 3 ∨ d = 4 ∨ d = 5 ∨ d = 6 ∨ d = 7
          ∨ d = 8 ∨ d = 9)%N as Hcases by lia.
  repeat destruct Hcases as [->|Hcases]; subst; reflexivity.
Qed.

(** Reading the decimal text of a number gives the number back. *)
Lemma parseInt_pretty_go x :
  (0 < x)%N →
  ∃ k, ∀ s acc,
    parseInt_from acc (pretty_N_go x s)
    = parseInt_from (Some (default 0 acc * k + x)%N) s.
Proof.
  induction (N.lt_wf_0 x) as [x _ IH]. intros Hx.
  pose proof (N.mod_lt x 10 ltac:(done)) as Hmod.
  pose proof (N.div_mod x 10 ltac:(done)) as Hdiv.
  pose proof (pretty_N_go_step x) as Hstep.
  revert Hmod Hdiv Hstep.
  generalize (x `mod` 10)%N (x `div` 10)%N. intros r q Hmod Hdiv Hstep.
  destruct (decide (q = 0)%N) as [->|Hbig].
  - exists 10%N. intros s acc. rewrite Hstep by done.
    rewrite pretty_N_go_0. simpl. rewrite digit_of_pretty by done.
    f_equal. f_equal. generalize (default 0%N acc). intros a. lia.
  - destruct (IH q) as [k Hk]; [lia|lia|].
    exists (10 * k)%N. intros s acc. rewrite Hstep by done.
    rewrite Hk. simpl. rewrite digit_of_pretty by done.
    f_equal. f_equal. generalize (default 0%N acc). intros a. lia.
Qed.

Lemma parseInt_pretty (n : N) : parseInt (pretty n) = Some n.
Proof.
  unfold pretty, pretty_N, parseInt. case_decide as Hn; [by subst|].
  destruct (parseInt_pretty_go n) as [k Hk]; [lia|].
  rewrite Hk. simpl. f_equal; lia.
Qed.

Lemma strip_slashes_slashes k p : strip_slashes (slashes k p) = strip_slashes p.
Proof. induction k as [|k IH]; simpl; done. Qed.

Lemma append_assoc (a b c : string) : (a +:+ b) +:+ c = a +:+ b +:+ c.
Proof.
  induction a as [|x a IH]; [done|].
  change (String x ((a +:+ b) +:+ c) = String x (a +:+ b +:+ c)).
  by rewrite IH.
Qed.

End Address.

(** X1.  The getter [url] drops every leading slash of the path before it
    puts its own slash after the host and the port: a path written with any
    number of leading slashes, none included, gives the same URL. *)
Theorem url_ignores_leading_slashes (o : UrlOptions) (k : nat) :
  url (mkUrlOptions (protocol o) (host o) (port o) (slashes k (path o))) = url o.
Proof.
  unfold url. simpl. do 4 f_equal.
  destruct k as [|k]; [done|].
  change (slashes (S k) (path o)) with (String "/" (slashes k (path o))).
  simpl. rewrite strip_slashes_slashes. by destruct (path o).
Qed.

(** X2.  The URL of a client made without [host] and [port], on a page
    served from a port.  [defaultOptions] takes the host from
    [location.host], which in a browser is the host name followed by the
    port, and the port from [location.port]; [url] then writes the port
    after the host once more: on [http://localhost:8080] the socket is
    opened at [ws://localhost:8080:8080/ws/]. *)
Theorem default_url_repeats_port (location : Location) (hostname : string) (n : N) :
  n ≠ 0%N →
  location_port location = pretty n →
  location_host location = hostname +:+ ":" +:+ pretty n →
  url (defaultUrlOptions location)
  = protocol_text (protocol (defaultUrlOptions location))
    +:+ "://" +:+ hostname +:+ ":" +:+ pretty n +:+ ":" +:+ pretty n +:+ "/ws/".
Proof.
  intros Hn Hport Hhost. unfold url, defaultUrlOptions. simpl.
  rewrite Hport, Hhost, parseInt_pretty.
  assert (String.eqb (pretty n) "" = false) as ->.
  { apply String.eqb_neq. intros Hempty.
    pose proof (parseInt_pretty n) as Hparse. by rewrite Hempty in Hparse. }
  simpl. apply N.eqb_neq in Hn. rewrite Hn.
  by rewrite !append_assoc.
Qed.

Lemma default_url_repeats_port_witness :
  url (defaultUrlOptions (mkLocation "http:" "localhost:8080" "8080"))
  = "ws://localhost:8080:8080/ws/".
Proof.
  exact (default_url_repeats_port (mkLocation "http:" "localhost:8080" "8080")
           "localhost" 8080 ltac:(done) eq_refl eq_refl).
Defined.

(** ** Inbound texts *)

Section Inbound.

Variable JSON_parse : string → option JsonValue.
Variable run : Handler → list Arg → option Exception.

Lemma split_free sep s :
  sep ∉ String.list_ascii_of_string s → Js.split sep s = [s].
Proof.
  induction s as [|c rest IH]; simpl; intros Hfree; [done|].
  destruct (Ascii.eqb c sep) eqn:Hc.
  - apply Ascii.eqb_eq in Hc. subst. exfalso. apply Hfree. by left.
  - rewrite IH; [done|]. intros Hin. apply Hfree. by right.
Qed.

Lemma onmessage_invalid text w :
  text ≠ "ping" →
  JSON_parse (ToString (snd (split_frame text))) = None →
  onmessage JSON_parse run text w
  = (Normal tt, set_trace (trace w ++ [Warned "Received invalid JSON."]) w).
Proof.
  intros Hping Hdata. unfold onmessage.
  apply String.eqb_neq in Hping. rewrite Hping.
  destruct (split_frame text) as [key _data]. simpl in *.
  unfold try_catch, bind, JSON_parse_or_throw. by rewrite Hdata.
Qed.

End Inbound.

(** X3.  The decoding of an inbound text undoes the framing [key|payload]
    whenever neither part holds the delimiter: the key and the whole
    payload come back.  This is the case of every broadcast and response
    whose JSON text is free of ['|']. *)
Theorem split_frame_round_trip (key payload : string) :
  "|"%char ∉ String.list_ascii_of_string key →
  "|"%char ∉ String.list_ascii_of_string payload →
  split_frame (key +:+ "|" +:+ payload) = (key, Some payload).
Proof.
  intros Hkey Hpayload. unfold split_frame, Js.split_limit.
  change (key +:+ "|" +:+ payload) with (key +:+ String "|" payload).
  rewrite split_app by done. by rewrite split_free.
Qed.

Lemma split_frame_round_trip_witness :
  split_frame ("12pa03" +:+ "|" +:+ JsonText.q "{'a':1}")
  = ("12pa03", Some (JsonText.q "{'a':1}")).
Proof.
  apply split_frame_round_trip; vm_compute;
    intros Hin; repeat (apply elem_of_cons in Hin as [Hin|Hin]; [done|]);
    by apply elem_of_nil in Hin.
Defined.

(** X4.  An inbound text other than [ping] whose payload [JSON.parse]
    refuses does nothing but warn [Received invalid JSON.]: no handler is
    invoked, no request is settled, and the handler returns.  A text
    without the delimiter is always such a text, even when it is JSON
    itself, because what is parsed then is [undefined]. *)
Theorem invalid_json_only_warns JSON_parse run (text : string) (w : World) :
  text ≠ "ping" →
  JSON_parse (ToString (snd (split_frame text))) = None
  ∨ (("|"%char ∉ String.list_ascii_of_string text)
     ∧ JSON_parse "undefined" = None) →
  onmessage JSON_parse run text w
  = (Normal tt, set_trace (trace w ++ [Warned "Received invalid JSON."]) w).
Proof.
  intros Hping [Hdata|[Hfree Hundefined]].
  - by apply onmessage_invalid.
  - apply onmessage_invalid; [done|].
    unfold split_frame, Js.split_limit. by rewrite split_free.
Qed.

Lemma invalid_json_only_warns_witness :
  onmessage JsonText.parse Examples.run (JsonText.q "{'a':1}") Examples.opened
  = (Normal tt,
     set_trace (trace Examples.opened ++ [Warned "Received invalid JSON."])
       Examples.opened).
Proof.
  apply invalid_json_only_warns; [done|]. right. split; [|by vm_compute].
  vm_compute. intros Hin.
  repeat (apply elem_of_cons in Hin as [Hin|Hin]; [done|]).
  by apply elem_of_nil in Hin.
Defined.

(** X5.  On a broadcast, and on a directed text for which no request is
    stored (a late or a repeated response), the message handler itself
    does nothing but dispatch, whatever the payload holds.  With handlers
    that leave the client alone while they run, which is what [run] can
    express, nothing in the client changes but the trace: the handlers of
    [broadcast], respectively of [message], are invoked with the payload up
    to the first that throws, and no request, promise, timer or socket is
    touched.  What a handler throws is caught: an [Error] ends in a
    warning with its message and the message handler returns; [null] or
    [undefined] makes the [catch] itself raise a TypeError, which leaves
    the message handler with nothing warned. *)
Theorem unrequested_text_only_dispatches JSON_parse run (text : string)
    (data : JsonValue) (w : World) :
  text ≠ "ping" →
  JSON_parse (ToString (snd (split_frame text))) = Some data →
  fst (split_frame text) = "@"
  ∨ requests_get (fst (split_frame text)) w = Undefined →
  let event := if String.eqb (fst (split_frame text)) "@" then Broadcast else Message in
  let args := [ArgJson data; ArgEvent (MessageEvent text)] in
  onmessage JSON_parse run text w
  = (match raised run (interceptors w event) args with
     | None | Some (mkException _ _) => Normal tt
     | Some (ThrownValue None) =>
         Throw (mkException false (Json.undefined_read_message "message"))
     | Some (ThrownValue (Some value)) =>
         match Json.get value "message" with
         | inl raised_ => Throw raised_
         | inr _ => Normal tt
         end
     end,
     set_trace
       (trace w ++ guarded_dispatch_trace run event (interceptors w event)
                     [ArgJson data; ArgEvent (MessageEvent text)]) w).
Proof.
  intros Hping Hdata Hkey event args.
  assert (onmessage JSON_parse run text w
          = (guarded_completion run (interceptors w event) args,
             set_trace
               (trace w ++ guarded_dispatch_trace run event (interceptors w event) args)
               w)) as ->.
  { unfold event, args.
    destruct (String.eqb (fst (split_frame text)) "@") eqn:Hat.
    - apply String.eqb_eq in Hat. by apply onmessage_broadcast.
    - apply String.eqb_neq in Hat. destruct Hkey as [Hkey|Hkey]; [done|].
      by apply onmessage_unmatched. }
  f_equal. unfold guarded_completion, reported.
  destruct (raised run (interceptors w event) args) as [[syntax message|[value|]]|];
    try done.
  by destruct (Json.get value "message").
Qed.

Lemma unrequested_text_only_dispatches_witness :
  onmessage JsonText.parse Examples.run
    (JsonText.q "@|{'error':{'code':'E42'}}") Examples.requested
  = (Normal tt,
     set_trace
       (trace Examples.requested
        ++ guarded_dispatch_trace Examples.run Broadcast
             (interceptors Examples.requested Broadcast)
             [ArgJson (JObject [("error", JObject [("code", JString "E42")])]);
              ArgEvent (MessageEvent (JsonText.q "@|{'error':{'code':'E42'}}"))])
       Examples.requested).
Proof.
  apply (unrequested_text_only_dispatches JsonText.parse Examples.run
           (JsonText.q "@|{'error':{'code':'E42'}}")
           (JObject [("error", JObject [("code", JString "E42")])])
           Examples.requested).
  - done.
  - by vm_compute.
  - left. by vm_compute.
Defined.

(** ** Responses *)

Section Responses.

Variable JSON_parse : string → option JsonValue.
Variable run : Handler → list Arg → option Exception.

(** The trace of a response that finds its request. *)
Lemma onmessage_found_trace text data err r w :
  text ≠ "ping" → fst (split_frame text) ≠ "@" →
  JSON_parse (ToString (snd (split_frame text))) = Some data →
  requests w !! fst (split_frame text) = Some r →
  Json.get data "error" = inr err →
  fst (onmessage JSON_parse run text w)
  = guarded_completion run (interceptors w Message)
      [ArgJson data; ArgEvent (MessageEvent text)]
  ∧ trace (after (onmessage JSON_parse run text) w)
    = trace w ++ guarded_dispatch_trace run Message (interceptors w Message)
                   [ArgJson data; ArgEvent (MessageEvent text)].
Proof.
  intros Hping Hkey Hdata Hr Herr. unfold after, onmessage.
  apply String.eqb_neq in Hping. rewrite Hping.
  destruct (split_frame text) as [key _data]. simpl in *.
  apply String.eqb_neq in Hkey. rewrite Hkey.
  unfold try_catch, bind, JSON_parse_or_throw, gets, requests_get, error_code.
  rewrite Hdata. simpl. rewrite Hr, Herr. simpl.
  unfold resolver_reject, resolver_resolve, settle, clearTimer,
    guarded_dispatch_trace, guarded_completion.
  destruct (Json.truthy (Json.get_opt err "code"));
    destruct (timeout_handle r) as [handle|]; run_m;
    destruct (promises w !! promise r) as [[| |]|]; run_m;
    rewrite callInterceptors_spec; simpl;
    match goal with
    | |- context [raised ?f ?funcs ?args] => destruct (raised f funcs args)
    end; simpl; rewrite ?report_spec; simpl;
    rewrite <- ?app_assoc, ?app_nil_r; done.
Qed.

(** The reply to a [ping] stores no request. *)
Lemma _send_ping_requests data : preserves requests (_send data AfterPing).
Proof.
  unfold _send, then_. frame.
  - by apply waitForConnection_preserves.
  - intros w.
    pose proof (socket_send_preserves requests data ltac:(done) w) as Hsend.
    unfold run_thens. simpl. run_m.
    destruct (socket_send data w) as [[[]|ex] w']; simpl in *; done.
Qed.

(** A text whose key has no stored request leaves the requests alone. *)
Lemma onmessage_unknown_key_requests text w :
  requests w !! fst (split_frame text) = None →
  requests (after (onmessage JSON_parse run text) w) = requests w.
Proof.
  intros Hnone. unfold after, onmessage.
  destruct (String.eqb text "ping").
  { by apply _send_ping_requests. }
  destruct (split_frame text) as [key _data]. simpl in Hnone.
  assert (∀ r, requests_get key w ≠ Own r) as Hget.
  { intros r Hr. apply requests_get_Own in Hr. congruence. }
  unfold try_catch, bind, JSON_parse_or_throw, gets, error_code.
  destruct (JSON_parse (ToString _data)) as [data|]; simpl; [|done].
  destruct (String.eqb key "@").
  { rewrite callInterceptors_spec.
    destruct (raised run (interceptors w Broadcast) _); simpl;
      rewrite ?report_spec; done. }
  destruct (requests_get key w) as [r| |] eqn:Hr; [by destruct (Hget r)| |].
  - destruct (Json.get data "error") as [ex|err]; simpl;
      [by rewrite report_spec|].
    by destruct (Json.truthy (Json.get_opt err "code")).
  - unfold ret. rewrite callInterceptors_spec.
    destruct (raised run (interceptors w Message) _); simpl;
      rewrite ?report_spec; done.
Qed.

End Responses.

(** X6.  The response to a pending request, with handlers that leave the
    client alone while they run.  The promise of the request is fulfilled
    with the payload, or rejected with it when the payload carries a truthy
    [error.code]; no other promise changes; the entry of the request is
    removed before the handlers of [message] are invoked with the payload,
    and a handler that throws undoes none of it.  What a handler throws is
    caught after the settlement: an [Error] ends in a warning and the
    message handler returns; for [null] or [undefined] the [catch] raises a
    TypeError that leaves the message handler, with nothing warned.  A
    second text with the same key then settles nothing and stores
    nothing. *)
Theorem response_settles_once JSON_parse run (text : string) (data : JsonValue)
    (err : JsValue) (r : Resolver) (w : World) :
  text ≠ "ping" → fst (split_frame text) ≠ "@" →
  JSON_parse (ToString (snd (split_frame text))) = Some data →
  requests w !! fst (split_frame text) = Some r →
  promises w !! promise r = Some Pending →
  Json.get data "error" = inr err →
  let w' := after (onmessage JSON_parse run text) w in
  let args := [ArgJson data; ArgEvent (MessageEvent text)] in
  fst (onmessage JSON_parse run text w)
  = match raised run (interceptors w Message) args with
    | None | Some (mkException _ _) => Normal tt
    | Some (ThrownValue None) =>
        Throw (mkException false (Json.undefined_read_message "message"))
    | Some (ThrownValue (Some value)) =>
        match Json.get value "message" with
        | inl raised_ => Throw raised_
        | inr _ => Normal tt
        end
    end
  ∧ promises w' !! promise r
    = Some (if Json.truthy (Json.get_opt err "code") then Rejected data
            else Fulfilled data)
  ∧ (∀ p, p ≠ promise r → promises w' !! p = promises w !! p)
  ∧ requests w' = delete (fst (split_frame text)) (requests w)
  ∧ trace w'
    = trace w ++ guarded_dispatch_trace run Message (interceptors w Message)
                   [ArgJson data; ArgEvent (MessageEvent text)]
  ∧ ∀ text',
      fst (split_frame text') = fst (split_frame text) →
      promises (after (onmessage JSON_parse run text') w') = promises w'
      ∧ requests (after (onmessage JSON_parse run text') w') = requests w'.
Proof.
  intros Hping Hkey Hdata Hr Hpending Herr w' args.
  destruct (onmessage_found JSON_parse run text data err r w
              Hping Hkey Hdata Hr Herr) as (Hrequests & Hpromises & _).
  destruct (onmessage_found_trace JSON_parse run text data err r w
              Hping Hkey Hdata Hr Herr) as (Hret & Htrace).
  fold w' in Hrequests, Hpromises, Htrace. rewrite Hpending in Hpromises.
  split.
  { rewrite Hret. unfold guarded_completion, reported. fold args.
    destruct (raised run (interceptors w Message) args)
      as [[syntax message|[value|]]|]; try done.
    by destruct (Json.get value "message"). }
  split; [by rewrite Hpromises, lookup_insert_eq|].
  split; [by intros p Hp; rewrite Hpromises, lookup_insert_ne|].
  split; [done|]. split; [done|].
  intros text' Hsame.
  assert (requests w' !! fst (split_frame text') = None) as Hgone.
  { rewrite Hsame, Hrequests. apply lookup_delete_eq. }
  split.
  - by apply onmessage_unknown_key.
  - by apply onmessage_unknown_key_requests.
Qed.

Lemma response_settles_once_witness :
  promises (Examples.play Examples.requested [SocketReceives 0 Examples.echo_reply]) !! 1
  = Some (Fulfilled (JObject [("a", JNumber 1 0)])).
Proof.
  assert (requests Examples.requested !! fst (split_frame Examples.echo_reply)
          = Some (mkResolver 1 (Some 4))) as Hr by (by vm_compute).
  destruct (response_settles_once JsonText.parse Examples.run
              Examples.echo_reply (JObject [("a", JNumber 1 0)]) None
              (mkResolver 1 (Some 4)) Examples.requested)
    as (_ & Hp & _).
  - done.
  - by vm_compute.
  - by vm_compute.
  - exact Hr.
  - by vm_compute.
  - by vm_compute.
  - exact Hp.
Defined.

(** ** Sending *)

Section Sending.

Variable JSON_parse : string → option JsonValue.
Variable JSON_stringify : JsonValue → string.
Variable run : Handler → list Arg → option Exception.

Lemma set_waiting_id w : set_waiting (waiting w) w = w.
Proof. by destruct w. Qed.

Lemma set_waiting_set_waiting a b w :
  set_waiting a (set_waiting b w) = set_waiting a w.
Proof. done. Qed.

(** While the promise of [waitForConnection] is pending, [_send] only
    attaches its job to it. *)
Lemma _send_pending data k w p queued :
  connectingPromise w = Some p → waiting w !! p = Some (Waiting queued) →
  _send data k w
  = (Normal tt,
     set_waiting (<[p := Waiting (queued ++ [mkJob data k])]> (waiting w)) w).
Proof.
  intros Hcp Hqueued. unfold _send, bind.
  rewrite (waitForConnection_again w p) by done.
  unfold then_, bind, gets, modify. simpl. by rewrite Hqueued.
Qed.

Lemma sends_pending datas w p queued :
  connectingPromise w = Some p → waiting w !! p = Some (Waiting queued) →
  steps JSON_parse JSON_stringify run w (map CallSend datas)
  = set_waiting
      (<[p := Waiting (queued ++ map (send_job JSON_stringify) datas)]> (waiting w)) w.
Proof.
  revert w queued. induction datas as [|data rest IH]; intros w queued Hcp Hqueued.
  - simpl. by rewrite app_nil_r, insert_id, set_waiting_id.
  - assert (step JSON_parse JSON_stringify run w (CallSend data)
            = set_waiting
                (<[p := Waiting (queued ++ [send_job JSON_stringify data])]> (waiting w)) w)
      as Hstep.
    { unfold step, after. simpl. unfold send.
      by rewrite (_send_pending _ _ w p queued). }
    change (steps JSON_parse JSON_stringify run w (map CallSend (data :: rest)))
      with (steps JSON_parse JSON_stringify run
              (step JSON_parse JSON_stringify run w (CallSend data))
              (map CallSend rest)).
    rewrite Hstep.
    rewrite (IH _ (queued ++ [send_job JSON_stringify data]));
      [|done|apply lookup_insert_eq].
    simpl. by rewrite set_waiting_set_waiting, insert_insert_eq, <- app_assoc.
Qed.

End Sending.

(** X7.  [send] writes nothing to the socket itself, even when the socket
    is open: each call only queues its text [@|json] on the promise of
    [waitForConnection].  The tick of the poll that finds the socket open
    then sends what was queued before and these texts, in the order of the
    calls. *)
Theorem sends_go_out_in_order JSON_parse JSON_stringify run (w : World)
    (s : nat) (ws : WebSocket) (datas : list JsonValue) :
  wf w → datas ≠ [] →
  socket w = Some s → sockets w !! s = Some ws → readyState ws = OPEN →
  let w1 := steps JSON_parse JSON_stringify run w (map CallSend datas) in
  sockets w1 = sockets w
  ∧ ∃ p handle queued,
      match connectingPromise w with
      | Some p' => p' = p ∧ waiting w !! p = Some (Waiting queued)
      | None => queued = []
      end
      ∧ connectingPromise w1 = Some p
      ∧ timers w1 !! handle = Some (PollTimer p 50)
      ∧ sockets (step JSON_parse JSON_stringify run w1 (TimerFires handle)) !! s
        = Some (mkWebSocket OPEN
                  (sent ws ++ map job_data queued
                   ++ map (fun data => "@|" +:+ JSON_stringify data) datas)).
Proof.
  intros Hw Hdatas Hs Hws Hopen w1.
  destruct datas as [|data rest]; [done|]. clear Hdatas.
  assert (wf w1) as Hw1 by (by apply wf_steps).
  set (job := send_job JSON_stringify data).
  destruct (_send_attaches (job_data job) AfterSend w Hw)
    as (p & queued & Hsend & Hcp & Hqueued & Hold).
  simpl in Hsend, Hcp, Hqueued.
  set (w' := snd (waitForConnection w)) in *.
  set (wa := set_waiting (<[p := Waiting (queued ++ [job])]> (waiting w')) w').
  assert (step JSON_parse JSON_stringify run w (CallSend data) = wa) as Hstep.
  { unfold step, after. simpl. unfold send. fold (job_data job).
    by rewrite Hsend. }
  assert (w1 = set_waiting
                 (<[p := Waiting ((queued ++ [job])
                                  ++ map (send_job JSON_stringify) rest)]> (waiting wa))
                 wa) as Hw1eq.
  { unfold w1.
    change (steps JSON_parse JSON_stringify run w (map CallSend (data :: rest)))
      with (steps JSON_parse JSON_stringify run
              (step JSON_parse JSON_stringify run w (CallSend data))
              (map CallSend rest)).
    rewrite Hstep. apply sends_pending; [done|apply lookup_insert_eq]. }
  assert (sockets w' = sockets w) as Hsockets.
  { unfold w'. by rewrite (waitForConnection_preserves sockets). }
  assert (socket w' = socket w) as Hsocket.
  { unfold w'. by rewrite (waitForConnection_preserves socket). }
  assert (connectingPromise w1 = Some p) as Hcp1 by (by rewrite Hw1eq).
  destruct (wf_poll _ Hw1 p Hcp1) as [handle Hhandle].
  split; [by rewrite Hw1eq|].
  exists p, handle, queued. split.
  { destruct (connectingPromise w) as [p'|] eqn:Hcpw; [|done].
    split; [|done]. unfold w' in Hcp.
    rewrite (waitForConnection_again w p') in Hcp by done. simpl in Hcp.
    congruence. }
  split; [done|]. split; [done|].
  assert (waiting w1 !! p
          = Some (Waiting ((queued ++ [job]) ++ map (send_job JSON_stringify) rest)))
    as Hjobs.
  { rewrite Hw1eq. apply lookup_insert_eq. }
  destruct (fire_ready handle p 50 w1 s ws _ Hw1 Hhandle Hjobs)
    as (_ & _ & Hsent & _).
  - rewrite Hw1eq. simpl. congruence.
  - rewrite Hw1eq. simpl. congruence.
  - done.
  - unfold step. simpl. rewrite Hsent, lookup_insert_eq.
    do 2 f_equal. rewrite !map_app, map_map. simpl. by rewrite <- app_assoc.
Qed.

Lemma sends_go_out_in_order_witness :
  sockets (Examples.play Examples.opened
             [CallSend (JObject [("a", JNumber 1 0)]); CallSend JNull])
  = sockets Examples.opened.
Proof.
  assert (wf Examples.opened) as Hwf by apply wf_steps, wf_new_DarkWS.
  destruct (sends_go_out_in_order JsonText.parse Examples.stringify Examples.run
              Examples.opened 0 (mkWebSocket OPEN [])
              [JObject [("a", JNumber 1 0)]; JNull] Hwf)
    as [Hsockets _].
  - done.
  - by vm_compute.
  - by vm_compute.
  - done.
  - exact Hsockets.
Defined.

(** ** The timers a run can add *)

Section OldTimers.

Variable JSON_parse : string → option JsonValue.
Variable JSON_stringify : JsonValue → string.
Variable run : Handler → list Arg → option Exception.
Variable kind : Timer → bool.
Variable w0 : World.

Hypothesis kind_poll : ∀ p every, kind (PollTimer p every) = false.
Hypothesis kind_request : ∀ key p delay,
  kind (RequestTimer key p delay) = true → requestTimeout (options w0) = 0%Z.

Lemma old_agree w w' : timers_fields w' = timers_fields w → (old_timers kind w0) w → (old_timers kind w0) w'.
Proof.
  unfold timers_fields. intros [= Ho Ht] [Hopts Hold].
  split; [congruence|]. by rewrite Ht.
Qed.

Lemma old_preserves {X} (m : M X) : preserves timers_fields m → keeps (old_timers kind w0) m.
Proof. intros Hm w Hw. by apply (old_agree w), Hw. Qed.

Lemma old_setTimer t : kind t = false → keeps (old_timers kind w0) (setTimer t).
Proof.
  intros Hkind w [Hopts Hold]. unfold setTimer, fresh. run_m. split; [done|].
  simpl. intros h t'. rewrite lookup_insert. case_decide.
  - intros [= <-]. congruence.
  - apply Hold.
Qed.

Lemma old_clearTimer h : keeps (old_timers kind w0) (clearTimer h).
Proof.
  intros w [Hopts Hold]. split; [done|]. simpl. intros h' t.
  rewrite lookup_delete. case_decide; [done|apply Hold].
Qed.

Lemma old_register key p : keeps (old_timers kind w0) (register key p).
Proof.
  intros w Hw. destruct (decide (requestTimeout (options w) = 0%Z)) as [Hzero|Hnonzero].
  - rewrite register_without_timeout by done. by apply (old_agree w).
  - rewrite register_with_timeout by done.
    apply (old_agree (snd (setTimer (RequestTimer key p (requestTimeout (options w))) w)));
      [done|].
    apply old_setTimer; [|done].
    destruct (kind (RequestTimer key p (requestTimeout (options w)))) eqn:Hkind; [|done].
    apply kind_request in Hkind. destruct Hw as [Hopts _]. congruence.
Qed.

Lemma old_continue_all ks : keeps (old_timers kind w0) (continue_all ks).
Proof.
  induction ks as [|k rest IH]; simpl; repeat keeps_step; [|done].
  destruct k; simpl; [apply keeps_ret..|apply old_register].
Qed.

Lemma old_run_thens jobs : keeps (old_timers kind w0) (run_thens jobs).
Proof.
  unfold run_thens. repeat keeps_step; [|apply old_continue_all].
  by apply old_preserves, send_all_preserves.
Qed.

Lemma old_waitForConnection : keeps (old_timers kind w0) waitForConnection.
Proof.
  unfold waitForConnection. repeat keeps_step.
  all: first [ by apply old_setTimer | apply old_preserves; frame ].
  by apply fresh_preserves.
Qed.

Lemma old__send data k : keeps (old_timers kind w0) (_send data k).
Proof.
  unfold _send, then_. repeat keeps_step.
  all: first [ apply old_waitForConnection | apply old_run_thens
             | apply old_preserves; frame ].
Qed.

Lemma old_connect : keeps (old_timers kind w0) connect.
Proof. by apply old_preserves, connect_preserves. Qed.

Lemma old_settle p outcome : keeps (old_timers kind w0) (settle p outcome).
Proof. by apply old_preserves, settle_preserves. Qed.

Lemma old_callInterceptors event args : keeps (old_timers kind w0) (callInterceptors run event args).
Proof. by apply old_preserves, callInterceptors_preserves. Qed.

Lemma old_poll handle p : keeps (old_timers kind w0) (poll handle p).
Proof.
  unfold poll, resolve_connecting. repeat keeps_step.
  all: first [ apply old_clearTimer | apply old_run_thens
             | apply old_preserves; frame ].
Qed.

Lemma old_fire handle : keeps (old_timers kind w0) (fire handle).
Proof.
  unfold fire, request_timeout. repeat keeps_step.
  all: first [ apply old_clearTimer | apply old_connect | apply old_settle
             | apply old_poll | apply old_preserves; frame ].
Qed.

Lemma old_onmessage text : keeps (old_timers kind w0) (onmessage JSON_parse run text).
Proof.
  unfold onmessage.
  destruct (String.eqb text "ping"); [by apply old__send|].
  destruct (split_frame text) as [key _data].
  unfold JSON_parse_or_throw, error_code, resolver_reject, resolver_resolve.
  repeat keeps_step.
  all: first [ apply old_callInterceptors | apply old_settle
             | apply old_clearTimer
             | by apply old_preserves, report_preserves
             | apply old_preserves; frame ].
Qed.

Lemma old_request random action data :
  keeps (old_timers kind w0) (request JSON_stringify random action data).
Proof.
  unfold request. repeat keeps_step.
  all: first [ apply old__send | apply old_preserves; frame ].
  by apply fresh_preserves.
Qed.

Lemma old_onclose event w :
  (wasClean event = false →
   reconnect (options w)
   && Nat.ltb (reconnectAttempt w) (reconnectAttempts (options w)) = true →
   kind (ReconnectTimer (reconnectTimeout (options w))) = false) →
  (old_timers kind w0) w → (old_timers kind w0) (after (onclose run event) w).
Proof.
  intros Hkind Hw. unfold after.
  destruct (wasClean event) eqn:Hclean;
  [|destruct (reconnect (options w)
                && Nat.ltb (reconnectAttempt w) (reconnectAttempts (options w)))
        eqn:Hretry].
  - rewrite onclose_no_retry by auto. by apply old_callInterceptors.
  - rewrite onclose_retry by done.
    apply keeps_bind; [apply old_callInterceptors|intros _; apply old_callInterceptors|].
    apply (old_agree
             (snd (setTimer (ReconnectTimer (reconnectTimeout (options w))) w)));
      [done|].
    apply old_setTimer; [|done]. by apply Hkind.
  - rewrite onclose_no_retry by auto. by apply old_callInterceptors.
Qed.

Lemma old_step w i :
  (retries w i = true → kind (ReconnectTimer (reconnectTimeout (options w))) = false) →
  (old_timers kind w0) w → (old_timers kind w0) (step JSON_parse JSON_stringify run w i).
Proof.
  intros Hkind Hw. unfold step, after.
  destruct i as [s|s event|s|s text|handle|data|random action data
                |event handler|event handler]; simpl in *.
  - apply keeps_bind; [|intros _; apply old_callInterceptors|done].
    apply old_preserves. unfold set_readyState. frame.
  - unfold bind, set_readyState, modify. simpl.
    apply (old_onclose event (set_sockets _ w)); [|by apply (old_agree w)].
    simpl. intros Hclean Hretry. apply Hkind. by rewrite Hclean.
  - by apply old_callInterceptors.
  - by apply old_onmessage.
  - by apply old_fire.
  - by apply old__send.
  - apply keeps_bind; [apply old_request|intros _; apply keeps_ret|done].
  - apply (old_preserves (intercept event handler)); [|done].
    unfold intercept. frame.
  - apply (old_preserves (unsubscribe event handler)); [|done].
    unfold unsubscribe. frame.
Qed.

End OldTimers.

(** ** The reconnect counter *)

Section Counter.

Variable JSON_parse : string → option JsonValue.
Variable JSON_stringify : JsonValue → string.
Variable run : Handler → list Arg → option Exception.

Lemma reachable_steps inputs w :
  reachable JSON_parse JSON_stringify run w →
  reachable JSON_parse JSON_stringify run
    (steps JSON_parse JSON_stringify run w inputs).
Proof.
  revert w. induction inputs as [|i rest IH]; intros w Hw; simpl; [done|].
  apply IH. by constructor.
Qed.

(** No input changes the options. *)
Lemma step_options w i :
  options (step JSON_parse JSON_stringify run w i) = options w.
Proof.
  assert (old_timers (fun _ => false) w w) as Hw by done.
  by destruct (old_step JSON_parse JSON_stringify run (fun _ => false) w
                 ltac:(done) ltac:(done) w i ltac:(done) Hw).
Qed.

(** The counter moves with the reconnects that are scheduled, and with
    nothing else. *)
Lemma step_reconnectAttempt w i :
  reconnectAttempt (step JSON_parse JSON_stringify run w i)
  = if retries w i then S (reconnectAttempt w) else reconnectAttempt w.
Proof.
  unfold step, after. destruct i; simpl.
  - rewrite (preserves_bind reconnectAttempt); [done| |intros _].
    + unfold set_readyState. frame.
    + apply onopen_preserves_reconnectAttempt.
  - unfold bind, set_readyState, modify. simpl.
    set (w' := set_sockets _ w).
    destruct (wasClean event) eqn:Hclean; simpl;
    [|destruct (reconnect (options w)
                  && Nat.ltb (reconnectAttempt w) (reconnectAttempts (options w)))
          eqn:Hretry].
    + rewrite (onclose_no_retry run event w') by auto.
      by rewrite (callInterceptors_preserves run reconnectAttempt).
    + rewrite (onclose_retry run event w') by done.
      rewrite (preserves_bind reconnectAttempt); simpl; [done| |intros _].
      all: by apply callInterceptors_preserves.
    + rewrite (onclose_no_retry run event w') by auto.
      by rewrite (callInterceptors_preserves run reconnectAttempt).
  - unfold onerror. by rewrite (callInterceptors_preserves run reconnectAttempt).
  - by rewrite (onmessage_preserves JSON_parse run reconnectAttempt).
  - by rewrite (fire_preserves reconnectAttempt).
  - by rewrite (send_preserves JSON_stringify reconnectAttempt).
  - rewrite (preserves_bind reconnectAttempt); [done| |intros _; frame].
    by apply request_preserves.
  - done.
  - done.
Qed.

Lemma retries_stopped w i :
  reconnect (options w) = false
  ∨ reconnectAttempts (options w) ≤ reconnectAttempt w →
  retries w i = false.
Proof.
  intros Hstop. destruct i; try done. simpl.
  destruct (wasClean event); [done|]. simpl.
  destruct Hstop as [->|Hlimit]; [done|].
  apply andb_false_intro2. apply Nat.ltb_ge. lia.
Qed.

End Counter.

(** X8.  When the configured limit [reconnectAttempts] is a count, that is
    a natural number, as it is documented and as the options hold it here,
    the reconnect counter stays within it over the whole life of a client.
    A limit that is negative, fractional or [NaN], which the type [number]
    of the source allows, is outside this statement. *)
Theorem reconnect_attempts_bounded JSON_parse JSON_stringify run (w : World) :
  reachable JSON_parse JSON_stringify run w →
  reconnectAttempt w ≤ reconnectAttempts (options w).
Proof.
  induction 1 as [opts|w i Hw IH].
  - simpl. lia.
  - rewrite step_reconnectAttempt, step_options.
    destruct (retries w i) eqn:Hretries; [|done].
    destruct i; try done. simpl in Hretries.
    apply andb_prop in Hretries as [_ Hlt]. apply Nat.ltb_lt in Hlt. lia.
Qed.

Lemma reconnect_attempts_bounded_witness :
  reconnectAttempt Examples.reopened ≤ reconnectAttempts (options Examples.reopened).
Proof.
  apply (reconnect_attempts_bounded JsonText.parse Examples.stringify Examples.run).
  apply reachable_steps. constructor.
Defined.

(** X9.  Once reconnection is disabled, or the counter has reached the
    configured number of attempts, it is over for good: whatever happens
    afterwards, a later successful open included, the counter stays where
    it is and no reconnect is ever scheduled again. *)
Theorem reconnect_stops_for_good JSON_parse JSON_stringify run (w : World)
    (inputs : list Input) :
  reconnect (options w) = false
  ∨ reconnectAttempts (options w) ≤ reconnectAttempt w →
  let w' := steps JSON_parse JSON_stringify run w inputs in
  reconnectAttempt w' = reconnectAttempt w
  ∧ ∀ h delay,
      timers w' !! h = Some (ReconnectTimer delay) →
      timers w !! h = Some (ReconnectTimer delay).
Proof.
  intros Hstop w'.
  cut (old_timers is_reconnect w w' ∧ reconnectAttempt w' = reconnectAttempt w).
  { intros [[_ Hold] Hcount]. split; [done|]. intros h delay Hh. by apply Hold. }
  unfold w'. clear w'.
  assert (∀ w1,
            old_timers is_reconnect w w1
            ∧ reconnectAttempt w1 = reconnectAttempt w →
            old_timers is_reconnect w (steps JSON_parse JSON_stringify run w1 inputs)
            ∧ reconnectAttempt (steps JSON_parse JSON_stringify run w1 inputs)
              = reconnectAttempt w) as Hrun.
  { induction inputs as [|i rest IH]; intros w1 [Hold Hcount]; simpl; [done|].
    assert (retries w1 i = false) as Hretries.
    { apply retries_stopped. destruct Hold as [-> _]. by rewrite Hcount. }
    apply IH. split.
    - apply old_step; [done|done|by rewrite Hretries|done].
    - by rewrite step_reconnectAttempt, Hretries. }
  by apply Hrun.
Qed.

Lemma reconnect_stops_for_good_witness :
  reconnectAttempt
    (Examples.play (new_DarkWS (mkOptions false 1000 120 300000))
       [SocketCloses 0 Examples.unclean; SocketOpens 0]) = 0.
Proof.
  apply (reconnect_stops_for_good JsonText.parse Examples.stringify Examples.run
           (new_DarkWS (mkOptions false 1000 120 300000))
           [SocketCloses 0 Examples.unclean; SocketOpens 0]).
  by left.
Defined.

(** X10.  A reconnect is scheduled by the unclean close of a socket, with
    reconnection enabled and attempts left, and by nothing else: not by an
    error of the socket, a clean close, an open, a message, a timer or a
    call of the client. *)
Theorem only_unclean_close_schedules_reconnect JSON_parse JSON_stringify run
    (w : World) (i : Input) (h : nat) (delay : Z) :
  timers (step JSON_parse JSON_stringify run w i) !! h = Some (ReconnectTimer delay) →
  timers w !! h = Some (ReconnectTimer delay)
  ∨ ∃ s event,
      i = SocketCloses s event ∧ wasClean event = false
      ∧ reconnect (options w) = true
      ∧ reconnectAttempt w < reconnectAttempts (options w).
Proof.
  intros Hh. destruct (retries w i) eqn:Hretries.
  - right. destruct i as [|s event| | | | | | |]; try done. simpl in Hretries.
    apply andb_prop in Hretries as [Hretries Hlt].
    apply andb_prop in Hretries as [Hclean Hreconnect].
    exists s, event. apply Nat.ltb_lt in Hlt.
    by destruct (wasClean event).
  - left.
    assert (old_timers is_reconnect w w) as Hw by done.
    destruct (old_step JSON_parse JSON_stringify run is_reconnect w
                ltac:(done) ltac:(done) w i ltac:(by rewrite Hretries) Hw)
      as [_ Hold].
    by apply Hold.
Qed.

Lemma only_unclean_close_schedules_reconnect_witness :
  timers (new_DarkWS defaultOptions) !! 1 = Some (ReconnectTimer 1000)
  ∨ ∃ s event,
      SocketCloses 0 Examples.unclean = SocketCloses s event
      ∧ wasClean event = false
      ∧ reconnect (options (new_DarkWS defaultOptions)) = true
      ∧ reconnectAttempt (new_DarkWS defaultOptions)
        < reconnectAttempts (options (new_DarkWS defaultOptions)).
Proof.
  apply (only_unclean_close_schedules_reconnect JsonText.parse Examples.stringify
           Examples.run (new_DarkWS defaultOptions)
           (SocketCloses 0 Examples.unclean) 1 1000).
  by vm_compute.
Defined.

(** ** Requests without a timeout *)

Section Untimed.

Variable JSON_parse : string → option JsonValue.
Variable JSON_stringify : JsonValue → string.
Variable run : Handler → list Arg → option Exception.

(** With [requestTimeout] zero a run schedules no timeout of a request. *)
Lemma untimed_steps w0 inputs w :
  requestTimeout (options w0) = 0%Z →
  old_timers is_request w0 w →
  old_timers is_request w0 (steps JSON_parse JSON_stringify run w inputs).
Proof.
  intros Hzero. revert w.
  induction inputs as [|i rest IH]; intros w Hw; simpl; [done|].
  apply IH. by apply old_step.
Qed.

Lemma untimed_quiet_run w0 key p inputs w :
  requestTimeout (options w0) = 0%Z →
  (∀ h t, timers w0 !! h = Some t → is_request t = false) →
  old_timers is_request w0 w →
  Forall (unanswered key) inputs →
  quiet_run JSON_parse JSON_stringify run key p w inputs.
Proof.
  intros Hzero Hnone. revert w.
  induction inputs as [|i rest IH]; intros w Hw Hinputs; simpl; [done|].
  apply Forall_cons in Hinputs as [Hi Hrest]. split.
  - destruct i; try done. simpl. intros k d Hh.
    destruct Hw as [_ Hold]. apply Hold in Hh; [|done].
    by apply Hnone in Hh.
  - apply IH; [|done]. by apply old_step.
Qed.

End Untimed.

(** X11.  With [requestTimeout] set to zero a request has no timeout at
    all: no timer is scheduled for it, and as long as no message framed by
    its key arrives its promise stays pending, whatever else happens to
    the client, closes and reconnects included. *)
Theorem zero_timeout_never_rejects JSON_parse JSON_stringify run
    (random : Random) (action : string) (data : option JsonValue) (w : World)
    (inputs : list Input) :
  sound w →
  requestTimeout (options w) = 0%Z →
  (∀ h t, timers w !! h = Some t → is_request t = false) →
  Forall (unanswered (generateKey random)) inputs →
  let w1 := after (request JSON_stringify random action data) w in
  let w2 := steps JSON_parse JSON_stringify run w1 inputs in
  fst (request JSON_stringify random action data w) = Normal (next_id w)
  ∧ promises w2 !! next_id w = Some Pending
  ∧ ∀ h t, timers w2 !! h = Some t → is_request t = false.
Proof.
  intros Hw Hzero Hnone Hinputs w1 w2.
  destruct (request_held JSON_stringify random action data w Hw) as [Hp Hheld].
  fold w1 in Hheld.
  assert (old_timers is_request w w1) as Hold1.
  { by apply (old_request JSON_stringify is_request w ltac:(done) ltac:(done)
                random action data w). }
  pose proof (untimed_quiet_run JSON_parse JSON_stringify run w
                (generateKey random) (next_id w) inputs w1 Hzero Hnone Hold1
                Hinputs) as Hquiet.
  pose proof (held_steps JSON_parse JSON_stringify run _ _ None inputs w1
                Hquiet Hheld) as (_ & Hsafe & _).
  fold w2 in Hsafe.
  split; [done|]. split; [by destruct Hsafe|].
  intros h t Hh. destruct (is_request t) eqn:Hkind; [|done].
  destruct (untimed_steps JSON_parse JSON_stringify run w inputs w1 Hzero Hold1)
    as [_ Hold2].
  fold w2 in Hold2. apply Hold2 in Hh; [|done]. apply Hnone in Hh. congruence.
Qed.

Lemma zero_timeout_never_rejects_witness :
  promises
    (Examples.play
       (after (request Examples.stringify Examples.random "echo" None)
          (new_DarkWS (mkOptions true 1000 120 0)))
       [SocketOpens 0; TimerFires 3; SocketCloses 0 Examples.unclean;
        TimerFires 4; SocketReceives 5 "ping"]) !! 1
  = Some Pending.
Proof.
  destruct (zero_timeout_never_rejects JsonText.parse Examples.stringify
              Examples.run Examples.random "echo" None
              (new_DarkWS (mkOptions true 1000 120 0))
              [SocketOpens 0; TimerFires 3; SocketCloses 0 Examples.unclean;
               TimerFires 4; SocketReceives 5 "ping"])
    as (_ & Hpending & _).
  - apply sound_new_DarkWS.
  - done.
  - intros h t. change (timers (new_DarkWS (mkOptions true 1000 120 0))) with
      (∅ : gmap nat Timer). by rewrite lookup_empty.
  - repeat constructor.
  - exact Hpending.
Defined.

(** ** Subscriptions *)

Section Subscriptions.

Variable JSON_parse : string → option JsonValue.
Variable JSON_stringify : JsonValue → string.
Variable run : Handler → list Arg → option Exception.

Lemma intercepts_append event handlers w :
  let w1 := steps JSON_parse JSON_stringify run w (map (CallIntercept event) handlers) in
  w1 = set_interceptors (interceptors w1) w
  ∧ interceptors w1 event = interceptors w event ++ handlers
  ∧ ∀ event', event' ≠ event → interceptors w1 event' = interceptors w event'.
Proof.
  revert w. induction handlers as [|handler rest IH]; intros w; simpl.
  - rewrite app_nil_r. by destruct w.
  - destruct (IH (step JSON_parse JSON_stringify run w (CallIntercept event handler)))
      as (Hworld & Hevent & Hothers).
    split; [|split].
    + rewrite Hworld at 1. done.
    + rewrite Hevent. unfold step, after. simpl.
      by rewrite update_same, <- app_assoc.
    + intros event' Hne. rewrite Hothers by done. unfold step, after. simpl.
      by rewrite update_other.
Qed.

End Subscriptions.

(** X12.  Subscribing a handler and calling the action [intercept]
    returned restores every category when the handler was not subscribed
    to the category before.  When it was, the action removes the earlier
    subscription, not the one just made: the handler ends up last. *)
Theorem subscribe_then_unsubscribe (event : Category) (handler : Handler) (w : World) :
  let w' := after (unsubscribe event handler) (after (intercept event handler) w) in
  (handler ∉ interceptors w event →
   ∀ event', interceptors w' event' = interceptors w event')
  ∧ (∀ before after_,
       interceptors w event = before ++ handler :: after_ → handler ∉ before →
       interceptors w' event = before ++ after_ ++ [handler]).
Proof.
  intros w'. split.
  - intros Habsent event'.
    destruct (unsubscribe_present event handler (after (intercept event handler) w)
                (interceptors w event) []) as [Hevent Hothers]; [|done|].
    { rewrite intercept_spec. by rewrite decide_True. }
    destruct (decide (event' = event)) as [->|Hne].
    + unfold w'. rewrite Hevent. by rewrite app_nil_r.
    + unfold w'. rewrite Hothers by done. rewrite intercept_spec.
      by rewrite decide_False.
  - intros before after_ Hgroup Hfirst.
    destruct (unsubscribe_present event handler (after (intercept event handler) w)
                before (after_ ++ [handler])) as [Hevent _]; [|done|done].
    rewrite intercept_spec, decide_True by done.
    rewrite Hgroup. by rewrite <- app_assoc.
Qed.

Lemma subscribe_then_unsubscribe_witness :
  interceptors
    (after (unsubscribe Message 2) (after (intercept Message 2) Examples.opened))
    Message
  = interceptors Examples.opened Message
  ∧ interceptors
      (after (unsubscribe Broadcast 7)
         (after (intercept Broadcast 7) Examples.with_thrower))
      Broadcast
    = [] ++ [4] ++ [7].
Proof.
  split.
  - destruct (subscribe_then_unsubscribe Message 2 Examples.opened) as [Hfresh _].
    apply Hfresh. vm_compute. apply not_elem_of_nil.
  - destruct (subscribe_then_unsubscribe Broadcast 7 Examples.with_thrower)
      as [_ Hagain].
    apply Hagain; [by vm_compute|apply not_elem_of_nil].
Defined.

(** X13.  Handlers are invoked in the order of their subscription.  After
    [intercept] is called for a list of handlers on one category, the
    category holds the earlier subscribers followed by that list and the
    other categories are as before.  Firing the category then goes through
    that array by index: when none of its handlers throws, and none
    subscribes to the category or unsubscribes from it while the dispatch
    runs (the handlers may send, request, and subscribe elsewhere), exactly
    these handlers are invoked, each once, in that order. *)
Theorem handlers_run_in_subscription_order JSON_parse JSON_stringify run
    (behaviour : Handler → list Arg → list Live.Call * option Exception)
    (fuel : nat) (event : Category) (handlers : list Handler) (args : list Arg)
    (w : World) :
  let w1 := steps JSON_parse JSON_stringify run w (map (CallIntercept event) handlers) in
  let group := interceptors w event ++ handlers in
  let r := Live.callInterceptors JSON_stringify behaviour fuel event args w1 in
  interceptors w1 event = group
  ∧ (∀ event', event' ≠ event → interceptors w1 event' = interceptors w event')
  ∧ trace w1 = trace w
  ∧ ((∀ func, func ∈ group → snd (behaviour func args) = None) →
     (∀ func c, func ∈ group → c ∈ fst (behaviour func args) →
        Live.subscribes event c = false) →
     length group < fuel →
     fst r = Normal true
     ∧ trace (snd r)
       = trace w ++ Fired event args :: map (fun func => Called func args) group).
Proof.
  intros w1 group r.
  destruct (intercepts_append JSON_parse JSON_stringify run event handlers w)
    as (Hworld & Hevent & Hothers).
  fold w1 in Hworld, Hevent, Hothers.
  assert (trace w1 = trace w) as Htrace by (by rewrite Hworld).
  split; [done|]. split; [done|]. split; [done|].
  intros Hquiet Hsteady Hfuel.
  destruct (live_dispatch_steady JSON_stringify behaviour fuel event args w1)
    as (Hret & Hcalled & _); [by rewrite Hevent|by rewrite Hevent|].
  fold r in Hret, Hcalled. rewrite Hevent in Hret, Hcalled. fold group in Hret, Hcalled.
  assert (raised (fun func args => snd (behaviour func args)) group args = None)
    as Hnone by (by apply raised_None).
  rewrite Hnone in Hret. split; [done|].
  rewrite Hcalled, Htrace. unfold dispatch_trace. by rewrite invoked_all.
Qed.

Lemma handlers_run_in_subscription_order_witness :
  trace (snd (Live.callInterceptors Examples.stringify Examples.calm 3 Open
                [ArgEvent OpenEvent]
                (Examples.play Examples.opened
                   [CallIntercept Open 3; CallIntercept Open 1])))
  = trace Examples.opened
    ++ [Fired Open [ArgEvent OpenEvent]; Called 3 [ArgEvent OpenEvent];
        Called 1 [ArgEvent OpenEvent]].
Proof.
  destruct (handlers_run_in_subscription_order JsonText.parse Examples.stringify
              Examples.run Examples.calm 3 Open [3; 1] [ArgEvent OpenEvent]
              Examples.opened)
    as (_ & _ & _ & Hcall).
  destruct Hcall as [_ Htrace].
  - intros func Hfunc.
    change (interceptors Examples.opened Open) with (@nil Handler) in Hfunc.
    apply elem_of_cons in Hfunc as [->|Hfunc]; [done|].
    apply elem_of_cons in Hfunc as [->|Hfunc]; [done|].
    by apply elem_of_nil in Hfunc.
  - intros func c _ Hc. by apply elem_of_nil in Hc.
  - vm_compute. lia.
  - exact Htrace.
Defined.

(** ** Reconnecting *)

Section Reconnecting.

Variable JSON_parse : string → option JsonValue.
Variable JSON_stringify : JsonValue → string.
Variable run : Handler → list Arg → option Exception.

(** [connect]: the socket at hand is closed, and a fresh one, to which
    nothing has been sent, takes its place. *)
Lemma connect_spec w :
  connect w
  = (Normal tt,
     set_socket (Some (next_id w))
       (set_sockets
          (<[next_id w := mkWebSocket CONNECTING []]>
             (match socket w with
              | Some s => alter close_socket s (sockets w)
              | None => sockets w
              end))
          (set_next_id (S (next_id w)) w))).
Proof. unfold connect, WebSocket_close, fresh. run_m. by destruct (socket w). Qed.

(** The timer of a reconnect comes due. *)
Lemma fire_reconnect handle delay w :
  timers w !! handle = Some (ReconnectTimer delay) →
  fire handle w
  = (Normal tt,
     set_socket (Some (next_id w))
       (set_sockets
          (<[next_id w := mkWebSocket CONNECTING []]>
             (match socket w with
              | Some s => alter close_socket s (sockets w)
              | None => sockets w
              end))
          (set_next_id (S (next_id w))
             (set_timers (delete handle (timers w)) w)))).
Proof.
  intros Hh. unfold fire, bind, gets. simpl. rewrite Hh.
  unfold clearTimer, modify. simpl. by rewrite connect_spec.
Qed.

(** The socket opens. *)
Lemma step_opens s w :
  step JSON_parse JSON_stringify run w (SocketOpens s)
  = set_trace
      (trace w ++ dispatch_trace run Open (interceptors w Open) [ArgEvent OpenEvent])
      (set_sockets (alter (fun ws => mkWebSocket OPEN (sent ws)) s (sockets w)) w).
Proof.
  unfold step, after. simpl. unfold bind, set_readyState, modify, onopen. simpl.
  by rewrite callInterceptors_spec.
Qed.

End Reconnecting.

(** X14.  What was queued while the client had no open socket goes out on
    the socket of the reconnect.  With texts queued on the promise of
    [waitForConnection], the timer of a reconnect makes a fresh socket; the
    ticks of the poll until that socket opens change nothing; the first
    tick after it has opened sends the queued texts, in order, on the new
    socket and on no other; nothing that went out on an earlier socket is
    sent again, and the socket the client had before is closing or
    closed. *)
Theorem queued_texts_go_to_the_new_socket JSON_parse JSON_stringify run
    (w : World) (handle : nat) (delay : Z) (p : nat) (jobs : list Job) :
  wf w →
  timers w !! handle = Some (ReconnectTimer delay) →
  connectingPromise w = Some p → waiting w !! p = Some (Waiting jobs) →
  let s' := next_id w in
  let w1 := step JSON_parse JSON_stringify run w (TimerFires handle) in
  let w2 := step JSON_parse JSON_stringify run w1 (SocketOpens s') in
  socket w1 = Some s'
  ∧ sockets w1 !! s' = Some (mkWebSocket CONNECTING [])
  ∧ ∃ poll_handle,
      timers w1 !! poll_handle = Some (PollTimer p 50)
      ∧ step JSON_parse JSON_stringify run w1 (TimerFires poll_handle) = w1
      ∧ let w3 := step JSON_parse JSON_stringify run w2 (TimerFires poll_handle) in
        sockets w3 !! s' = Some (mkWebSocket OPEN (map job_data jobs))
        ∧ connectingPromise w3 = None
        ∧ ∀ s ws,
            s ≠ s' → sockets w !! s = Some ws →
            ∃ state,
              sockets w3 !! s = Some (mkWebSocket state (sent ws))
              ∧ (socket w = Some s → state ≠ OPEN ∧ state ≠ CONNECTING).
Proof.
  intros Hw Hh Hcp Hjobs s' w1 w2.
  assert (wf w1) as Hw1 by (by apply wf_step).
  assert (wf w2) as Hw2 by (by apply wf_step).
  assert (w1 = snd (fire handle w)) as Hw1eq by done.
  rewrite (fire_reconnect handle delay) in Hw1eq by done. simpl in Hw1eq.
  assert (w2 = _) as Hw2eq by apply step_opens.
  destruct (wf_poll w Hw p Hcp) as [poll_handle Hpoll].
  assert (poll_handle ≠ handle) as Hne by (intros ->; congruence).
  assert (timers w1 !! poll_handle = Some (PollTimer p 50)) as Hpoll1.
  { rewrite Hw1eq. simpl. by rewrite lookup_delete_ne. }
  assert (sockets w1 !! s' = Some (mkWebSocket CONNECTING [])) as Hnew.
  { rewrite Hw1eq. simpl. apply lookup_insert_eq. }
  assert (socket w1 = Some s') as Hs1 by (by rewrite Hw1eq).
  split; [done|]. split; [done|].
  exists poll_handle. split; [done|]. split.
  { unfold step, after. simpl. rewrite (fire_poll poll_handle p 50) by done.
    rewrite poll_not_ready; [done|].
    intros s ws Hs Hws. rewrite Hs1 in Hs. injection Hs as <-.
    rewrite Hnew in Hws. by injection Hws as <-. }
  intros w3.
  assert (sockets w2 !! s' = Some (mkWebSocket OPEN [])) as Hopen.
  { rewrite Hw2eq. simpl. rewrite lookup_alter_eq, Hnew. done. }
  destruct (fire_ready poll_handle p 50 w2 s' (mkWebSocket OPEN []) jobs)
    as (_ & _ & Hsent & _ & Hcp3 & _); try done.
  { by rewrite Hw2eq. }
  { rewrite Hw2eq. simpl. by rewrite Hw1eq. }
  { by rewrite Hw2eq. }
  assert (w3 = after (fire poll_handle) w2) as -> by done.
  split; [by rewrite Hsent, lookup_insert_eq|]. split; [done|].
  intros s ws Hs Hws.
  rewrite Hsent, lookup_insert_ne by done.
  rewrite Hw2eq. simpl. rewrite lookup_alter_ne by done.
  rewrite Hw1eq. simpl. rewrite lookup_insert_ne by done.
  destruct (socket w) as [s0|]; [|by exists (readyState ws); destruct ws].
  destruct (decide (s = s0)) as [->|Hother].
  - rewrite lookup_alter_eq, Hws. simpl. unfold close_socket.
    destruct ws as [[] texts]; simpl; by eexists.
  - rewrite lookup_alter_ne by done. exists (readyState ws).
    split; [by destruct ws|]. intros [= ->]. done.
Qed.

Lemma queued_texts_go_to_the_new_socket_witness :
  socket (Examples.play Examples.disconnected [TimerFires 1])
  = Some (next_id Examples.disconnected).
Proof.
  assert (wf Examples.disconnected) as Hwf by apply wf_steps, wf_new_DarkWS.
  destruct (queued_texts_go_to_the_new_socket JsonText.parse Examples.stringify
              Examples.run Examples.disconnected 1 1000 2
              [mkJob "@|null" AfterSend] Hwf)
    as (Hsocket & _).
  - by vm_compute.
  - by vm_compute.
  - by vm_compute.
  - exact Hsocket.
Defined.

(** ** Two requests under one key *)

Section Collision.

Variable JSON_parse : string → option JsonValue.
Variable JSON_stringify : JsonValue → string.
Variable run : Handler → list Arg → option Exception.

(** The first [request] while no promise of [waitForConnection] is
    pending. *)
Lemma request_first random action data w :
  connectingPromise w = None →
  let n := next_id w in
  let key := generateKey random in
  request JSON_stringify random action data w
  = (Normal n,
     mkWorld (options w) (socket w) (requests w) (Some (S n)) (reconnectAttempt w)
       (interceptors w) (sockets w) (<[n := Pending]> (promises w))
       (<[S n := Waiting [mkJob (request_frame JSON_stringify key action data)
                                (AfterRequest key n)]]> (waiting w))
       (<[S (S n) := PollTimer (S n) 50]> (timers w)) (S (S (S n))) (trace w)).
Proof.
  intros Hcp n key. unfold request, bind, fresh, modify. simpl.
  unfold _send, bind. rewrite waitForConnection_first by done. simpl.
  unfold then_, bind, gets, modify. simpl. rewrite lookup_insert_eq. simpl.
  unfold ret, set_waiting. simpl. by rewrite insert_insert_eq.
Qed.

(** A [request] while one is pending. *)
Lemma request_again random action data w cp queued :
  connectingPromise w = Some cp → waiting w !! cp = Some (Waiting queued) →
  let n := next_id w in
  let key := generateKey random in
  request JSON_stringify random action data w
  = (Normal n,
     mkWorld (options w) (socket w) (requests w) (Some cp) (reconnectAttempt w)
       (interceptors w) (sockets w) (<[n := Pending]> (promises w))
       (<[cp := Waiting (queued ++ [mkJob (request_frame JSON_stringify key action data)
                                          (AfterRequest key n)])]> (waiting w))
       (timers w) (S n) (trace w)).
Proof.
  intros Hcp Hqueued n key. unfold request, bind, fresh, modify. simpl.
  rewrite (_send_pending _ _ _ cp queued) by done. simpl.
  unfold ret, set_waiting. simpl. by rewrite Hcp.
Qed.

End Collision.

(** X15.  Two requests that draw the same key before either is answered.
    Once their texts have gone out, [this.requests] holds one entry under
    the key, that of the later request, while both timeouts are scheduled.
    The timeout of the earlier request, if it comes first, removes that
    entry although it belongs to the later one.  The first response with
    the key settles the later request, whichever of the two it answers,
    and removes the entry; the earlier request can then no longer be
    answered and is rejected by its timeout. *)
Theorem colliding_keys JSON_parse JSON_stringify run (random : Random)
    (action1 action2 : string) (data1 data2 : option JsonValue)
    (w : World) (s : nat) (ws : WebSocket) :
  connectingPromise w = None →
  socket w = Some s → sockets w !! s = Some ws → readyState ws = OPEN →
  requestTimeout (options w) ≠ 0%Z →
  let key := generateKey random in
  let delay := requestTimeout (options w) in
  ∃ p1 p2 poll_handle h1 h2,
    p1 ≠ p2 ∧ h1 ≠ h2
    ∧ fst (request JSON_stringify random action1 data1 w) = Normal p1
    ∧ fst (request JSON_stringify random action2 data2
             (after (request JSON_stringify random action1 data1) w)) = Normal p2
    ∧ let w2 := steps JSON_parse JSON_stringify run w
                  [CallRequest random action1 data1;
                   CallRequest random action2 data2;
                   TimerFires poll_handle] in
      requests w2 = <[key := mkResolver p2 (Some h2)]> (requests w)
      ∧ timers w2 !! h1 = Some (RequestTimer key p1 delay)
      ∧ timers w2 !! h2 = Some (RequestTimer key p2 delay)
      ∧ promises w2 !! p1 = Some Pending
      ∧ promises w2 !! p2 = Some Pending
      ∧ requests (step JSON_parse JSON_stringify run w2 (TimerFires h1)) !! key = None
      ∧ ∀ text data err,
          text ≠ "ping" → fst (split_frame text) = key →
          JSON_parse (ToString (snd (split_frame text))) = Some data →
          Json.get data "error" = inr err →
          let w3 := step JSON_parse JSON_stringify run w2 (SocketReceives s text) in
          promises w3 !! p2
          = Some (if Json.truthy (Json.get_opt err "code") then Rejected data
                  else Fulfilled data)
          ∧ promises w3 !! p1 = Some Pending
          ∧ requests w3 !! key = None
          ∧ promises (step JSON_parse JSON_stringify run w3 (TimerFires h1)) !! p1
            = Some (Rejected timeout_error).
Proof.
  intros Hcp Hs Hws Hopen Htimeout key delay.
  set (n := next_id w).
  exists n, (S (S (S n))), (S (S n)), (S (S (S (S n)))), (S (S (S (S (S n))))).
  split; [lia|]. split; [lia|].
  pose proof (request_first JSON_stringify random action1 data1 w Hcp) as Hreq1.
  simpl in Hreq1. fold n key in Hreq1.
  set (job1 := mkJob (request_frame JSON_stringify key action1 data1)
                 (AfterRequest key n)) in Hreq1.
  set (wa := mkWorld _ _ _ _ _ _ _ _ _ _ _ _) in Hreq1.
  pose proof (request_again JSON_stringify random action2 data2 wa (S n) [job1]
                eq_refl (lookup_insert_eq _ _ _)) as Hreq2.
  cbv zeta in Hreq2. fold key in Hreq2.
  set (job2 := mkJob (request_frame JSON_stringify key action2 data2)
                 (AfterRequest key (next_id wa))) in Hreq2.
  set (wb := mkWorld _ _ _ _ _ _ _ _ _ _ _ _) in Hreq2.
  split; [by rewrite Hreq1|].
  split.
  { unfold after. rewrite Hreq1. cbn [snd]. by rewrite Hreq2. }
  intros w2.
  assert (w2 = after (fire (S (S n))) wb) as Hw2.
  { assert (step JSON_parse JSON_stringify run w (CallRequest random action1 data1)
            = wa) as Hstep1.
    { unfold step, after. cbn [deliver]. unfold bind. by rewrite Hreq1. }
    assert (step JSON_parse JSON_stringify run wa (CallRequest random action2 data2)
            = wb) as Hstep2.
    { unfold step, after. cbn [deliver]. unfold bind. by rewrite Hreq2. }
    unfold w2, steps. cbn [fold_left]. by rewrite Hstep1, Hstep2. }
  assert (timers wb !! S (S n) = Some (PollTimer (S n) 50)) as Hpoll
    by apply lookup_insert_eq.
  assert (waiting wb !! S n = Some (Waiting [job1; job2])) as Hjobs
    by apply lookup_insert_eq.
  unfold after in Hw2. rewrite (fire_poll _ (S n) 50) in Hw2 by done.
  rewrite (poll_ready _ _ wb s ws [job1; job2]) in Hw2 by done.
  unfold run_thens, bind in Hw2.
  rewrite (send_all_open _ _ s ws) in Hw2 by done.
  simpl in Hw2. unfold bind in Hw2.
  rewrite register_with_timeout in Hw2 by done. simpl in Hw2.
  rewrite register_with_timeout in Hw2 by done. simpl in Hw2.
  unfold ret in Hw2. simpl in Hw2. fold delay in Hw2.
  assert (requests w2 = <[key := mkResolver (S (S (S n))) (Some (S (S (S (S (S n))))))]>
                          (requests w)) as Hrequests.
  { rewrite Hw2. simpl. apply insert_insert_eq. }
  assert (timers w2 !! S (S (S (S n))) = Some (RequestTimer key n delay)) as Hh1.
  { rewrite Hw2. simpl. rewrite lookup_insert_ne by lia. apply lookup_insert_eq. }
  assert (timers w2 !! S (S (S (S (S n)))) = Some (RequestTimer key (S (S (S n))) delay))
    as Hh2.
  { rewrite Hw2. simpl. apply lookup_insert_eq. }
  assert (promises w2 !! n = Some Pending) as Hp1.
  { rewrite Hw2. simpl. rewrite lookup_insert_ne by lia. apply lookup_insert_eq. }
  assert (promises w2 !! S (S (S n)) = Some Pending) as Hp2.
  { rewrite Hw2. simpl. apply lookup_insert_eq. }
  split; [done|]. split; [done|]. split; [done|]. split; [done|]. split; [done|].
  clearbody w2. clear Hw2.
  split.
  { unfold step, after. simpl.
    rewrite (fire_request_timeout _ key n delay) by done. simpl.
    apply lookup_delete_eq. }
  intros text data err Hping Hkey Hdata Herr w3.
  assert (fst (split_frame text) ≠ "@") as Hat.
  { rewrite Hkey. apply generateKey_not_at. }
  assert (requests w2 !! fst (split_frame text)
          = Some (mkResolver (S (S (S n))) (Some (S (S (S (S (S n)))))))) as Hr.
  { rewrite Hkey, Hrequests. apply lookup_insert_eq. }
  destruct (onmessage_found JSON_parse run text data err _ w2
              Hping Hat Hdata Hr Herr) as (Hrequests3 & Hpromises3 & Htimers3).
  simpl in Hpromises3, Htimers3. rewrite Hp2 in Hpromises3.
  change (after (onmessage JSON_parse run text) w2) with w3
    in Hrequests3, Hpromises3, Htimers3.
  assert (promises w3 !! n = Some Pending) as Hp1'.
  { rewrite Hpromises3, lookup_insert_ne by lia. done. }
  split; [by rewrite Hpromises3, lookup_insert_eq|]. split; [done|].
  split; [by rewrite Hrequests3, Hkey, lookup_delete_eq|].
  assert (timers w3 !! S (S (S (S n))) = Some (RequestTimer key n delay)) as Hh1'.
  { rewrite Htimers3. destruct (Json.truthy (Json.get_opt err "code")); [done|].
    by rewrite lookup_delete_ne by lia. }
  unfold step, after. simpl.
  rewrite (fire_request_timeout _ key n delay) by done. simpl.
  apply lookup_insert_eq.
Qed.

Lemma colliding_keys_witness :
  ∃ p1 p2 poll_handle,
    p1 ≠ p2
    ∧ fst (request Examples.stringify Examples.random "first" None Examples.opened)
      = Normal p1
    ∧ fst (request Examples.stringify Examples.random "second" None
             (after (request Examples.stringify Examples.random "first" None)
                Examples.opened))
      = Normal p2
    ∧ let w2 := steps JsonText.parse Examples.stringify Examples.run Examples.opened
                  [CallRequest Examples.random "first" None;
                   CallRequest Examples.random "second" None;
                   TimerFires poll_handle] in
      let w3 := step JsonText.parse Examples.stringify Examples.run w2
                  (SocketReceives 0 Examples.echo_reply) in
      promises w3 !! p2 = Some (Fulfilled (JObject [("a", JNumber 1 0)]))
      ∧ promises w3 !! p1 = Some Pending.
Proof.
  destruct (colliding_keys JsonText.parse Examples.stringify Examples.run
              Examples.random "first" "second" None None Examples.opened
              0 (mkWebSocket OPEN []))
    as (p1 & p2 & poll_handle & h1 & h2 & Hne & _ & Hp1 & Hp2 & Hw2).
  - done.
  - by vm_compute.
  - by vm_compute.
  - done.
  - done.
  - exists p1, p2, poll_handle.
    split; [exact Hne|]. split; [exact Hp1|]. split; [exact Hp2|].
    destruct Hw2 as (_ & _ & _ & _ & _ & _ & Hresponse).
    destruct (Hresponse Examples.echo_reply (JObject [("a", JNumber 1 0)]) None)
      as (Hsecond & Hfirst & _).
    + done.
    + by vm_compute.
    + by vm_compute.
    + done.
    + split; [exact Hsecond|exact Hfirst].
Defined.

(** ** Settled promises *)

Section Settled.

Variable JSON_parse : string → option JsonValue.
Variable JSON_stringify : JsonValue → string.
Variable run : Handler → list Arg → option Exception.
Variable p : nat.
Variable state : Promise.

Hypothesis state_settled : state ≠ Pending.

Lemma settled_frame {X} (m : M X) :
  preserves promises m → grows m → keeps (settled p state) m.
Proof.
  intros Hpromises Hgrows w [Hp Hlt]. split; [by rewrite Hpromises|].
  eapply Nat.lt_le_trans; [exact Hlt|apply Hgrows].
Qed.

Lemma settled_settle q outcome : keeps (settled p state) (settle q outcome).
Proof.
  intros w [Hp Hlt]. unfold settle, bind, gets. simpl.
  destruct (promises w !! q) as [[| |]|] eqn:Hq; simpl; try done.
  split; [|done]. simpl. rewrite lookup_insert_ne; [done|].
  intros ->. rewrite Hp in Hq. by injection Hq.
Qed.

Lemma settled_callInterceptors event args :
  keeps (settled p state) (callInterceptors run event args).
Proof.
  apply settled_frame; [by apply callInterceptors_preserves|].
  apply grows_callInterceptors.
Qed.

Lemma settled__send data k : keeps (settled p state) (_send data k).
Proof. apply settled_frame; [by apply _send_preserves|apply grows__send]. Qed.

Lemma settled_modify g :
  (∀ w, promises (g w) = promises w) → (∀ w, next_id (g w) = next_id w) →
  keeps (settled p state) (modify g).
Proof. intros Hpromises Hnext w [Hp Hlt]. split; simpl; congruence. Qed.

Lemma settled_clearTimer h : keeps (settled p state) (clearTimer h).
Proof. by apply settled_modify. Qed.

Lemma settled_poll handle cp : keeps (settled p state) (poll handle cp).
Proof.
  unfold poll, resolve_connecting. repeat keeps_step.
  all: first [ apply settled_clearTimer | by apply settled_modify | idtac ].
  apply settled_frame; [by apply run_thens_preserves|apply grows_run_thens].
Qed.

Lemma settled_fire handle : keeps (settled p state) (fire handle).
Proof.
  unfold fire, request_timeout. repeat keeps_step.
  all: first [ apply settled_clearTimer | apply settled_settle | apply settled_poll
             | by apply settled_modify | idtac ].
  apply settled_frame; [by apply connect_preserves|apply grows_connect].
Qed.

Lemma settled_onmessage text : keeps (settled p state) (onmessage JSON_parse run text).
Proof.
  unfold onmessage.
  destruct (String.eqb text "ping"); [by apply settled__send|].
  destruct (split_frame text) as [key _data].
  unfold JSON_parse_or_throw, error_code, resolver_reject, resolver_resolve.
  repeat keeps_step.
  all: first [ apply settled_callInterceptors | apply settled_settle
             | apply settled_clearTimer | by apply settled_modify
             | apply settled_frame;
               [by apply report_preserves
               |by apply grows_preserves, report_preserves] ].
Qed.

Lemma settled_request random action data :
  keeps (settled p state) (request JSON_stringify random action data).
Proof.
  intros w [Hp Hlt]. unfold request, bind, fresh, modify. simpl.
  set (w0 := set_promises _ _).
  assert (settled p state w0) as Hw0.
  { split; simpl; [|lia]. rewrite lookup_insert_ne by lia. done. }
  pose proof (settled__send (request_frame JSON_stringify (generateKey random) action data)
                (AfterRequest (generateKey random) (next_id w)) w0 Hw0) as Hsend.
  destruct (_send _ _ w0) as [[[]|ex] w1]; done.
Qed.

Lemma settled_step w i :
  settled p state w → settled p state (step JSON_parse JSON_stringify run w i).
Proof.
  intros Hw. unfold step, after.
  destruct i as [s|s event|s|s text|handle|data|random action data
                |event handler|event handler]; simpl.
  - apply keeps_bind; [|intros _; apply settled_callInterceptors|done].
    unfold set_readyState. by apply settled_modify.
  - apply (settled_frame (bind (set_readyState s CLOSED) (fun _ => onclose run event)));
      [|apply (grows_deliver JSON_parse JSON_stringify run (SocketCloses s event))|done].
    unfold set_readyState, onclose. frame.
    all: first [ by apply callInterceptors_preserves | by apply setTimer_preserves ].
  - by apply settled_callInterceptors.
  - by apply settled_onmessage.
  - by apply settled_fire.
  - by apply settled__send.
  - apply keeps_bind; [apply settled_request|intros _; apply keeps_ret|done].
  - apply (settled_modify _ ltac:(done) ltac:(done)). done.
  - apply (settled_modify _ ltac:(done) ltac:(done)). done.
Qed.

End Settled.

(** X16.  A promise is settled once: when the promise of a request has
    been fulfilled or rejected, no response, timeout or other event ever
    changes its state or its value again. *)
Theorem settled_promises_are_final JSON_parse JSON_stringify run (w : World)
    (p : nat) (state : Promise) (inputs : list Input) :
  wf w → promises w !! p = Some state → state ≠ Pending →
  promises (steps JSON_parse JSON_stringify run w inputs) !! p = Some state.
Proof.
  intros Hw Hp Hstate.
  assert (settled p state w) as Hsettled.
  { split; [done|]. destruct (decide (p < next_id w)) as [|Hge]; [done|].
    rewrite (wf_promises w Hw p) in Hp by lia. done. }
  clear Hw Hp. revert w Hsettled.
  induction inputs as [|i rest IH]; intros w Hsettled; simpl.
  - by destruct Hsettled.
  - apply IH. by apply settled_step.
Qed.

Lemma settled_promises_are_final_witness :
  promises
    (Examples.play Examples.rejected
       [SocketReceives 0 Examples.echo_reply; TimerFires 4]) !! 1
  = Some (Rejected (JObject [("error", JObject [("code", JString "E42")])])).
Proof.
  apply (settled_promises_are_final JsonText.parse Examples.stringify Examples.run).
  - apply wf_steps, wf_steps, wf_steps, wf_new_DarkWS.
  - by vm_compute.
  - done.
Defined.

(** ** The socket at hand *)

Section Socket.

Variable JSON_parse : string → option JsonValue.
Variable JSON_stringify : JsonValue → string.
Variable run : Handler → list Arg → option Exception.

Lemma has_socket_frame {X} (m : M X) :
  preserves socket_fields m → keeps has_socket m.
Proof.
  intros Hm w (s & Hs & Hws). specialize (Hm w). unfold socket_fields in Hm.
  injection Hm as Hsocket Hsockets. exists s. by rewrite Hsocket, Hsockets.
Qed.

Lemma has_socket_alter g s' :
  keeps has_socket (modify (fun w => set_sockets (alter g s' (sockets w)) w)).
Proof.
  intros w (s & Hs & Hws). exists s. split; [done|]. simpl.
  destruct (decide (s = s')) as [->|Hne].
  - rewrite lookup_alter_eq. by apply fmap_is_Some.
  - by rewrite lookup_alter_ne.
Qed.

Lemma has_socket_socket_send data : keeps has_socket (socket_send data).
Proof.
  intros w (s & Hs & [ws Hws]). unfold socket_send, bind, gets. simpl.
  rewrite Hs, Hws.
  destruct (readyState ws); simpl; exists s; (split; [done|]); simpl;
    rewrite ?lookup_insert_eq, ?Hws; by eexists.
Qed.

Lemma has_socket_send_all jobs : keeps has_socket (send_all jobs).
Proof.
  induction jobs as [|job rest IH]; simpl; repeat keeps_step; try done.
  apply has_socket_socket_send.
Qed.

Lemma has_socket_run_thens jobs : keeps has_socket (run_thens jobs).
Proof.
  unfold run_thens. repeat keeps_step; [apply has_socket_send_all|].
  by apply has_socket_frame, continue_all_preserves.
Qed.

Lemma has_socket__send data k : keeps has_socket (_send data k).
Proof.
  unfold _send, then_. repeat keeps_step.
  all: first [ apply has_socket_run_thens | apply has_socket_frame; frame ].
  by apply waitForConnection_preserves.
Qed.

Lemma has_socket_callInterceptors event args :
  keeps has_socket (callInterceptors run event args).
Proof. by apply has_socket_frame, callInterceptors_preserves. Qed.

Lemma has_socket_connect w : has_socket (snd (connect w)).
Proof.
  rewrite connect_spec. exists (next_id w). split; [done|]. simpl.
  by rewrite lookup_insert_eq.
Qed.

Lemma has_socket_poll handle p : keeps has_socket (poll handle p).
Proof.
  unfold poll, resolve_connecting, clearTimer. repeat keeps_step.
  all: first [ apply has_socket_run_thens | apply has_socket_frame; frame ].
Qed.

Lemma has_socket_fire handle : keeps has_socket (fire handle).
Proof.
  unfold fire, request_timeout, clearTimer. repeat keeps_step.
  all: first [ apply has_socket_poll | by intros w _; apply has_socket_connect
             | apply has_socket_frame; frame ].
  all: by apply settle_preserves.
Qed.

Lemma has_socket_onmessage text : keeps has_socket (onmessage JSON_parse run text).
Proof.
  unfold onmessage.
  destruct (String.eqb text "ping"); [by apply has_socket__send|].
  apply has_socket_frame.
  destruct (split_frame text) as [key _data].
  unfold JSON_parse_or_throw, error_code, resolver_reject, resolver_resolve.
  frame.
  all: first [ by apply callInterceptors_preserves | by apply settle_preserves
             | by apply clearTimer_preserves | by apply report_preserves ].
Qed.

Lemma has_socket_step w i :
  has_socket w → has_socket (step JSON_parse JSON_stringify run w i).
Proof.
  intros Hw. unfold step, after.
  destruct i as [s|s event|s|s text|handle|data|random action data
                |event handler|event handler]; simpl.
  - apply keeps_bind; [|intros _; apply has_socket_callInterceptors|done].
    apply has_socket_alter.
  - apply keeps_bind; [apply has_socket_alter| |done]. intros _.
    apply has_socket_frame. unfold onclose. frame.
    all: first [ by apply callInterceptors_preserves | by apply setTimer_preserves ].
  - by apply has_socket_callInterceptors.
  - by apply has_socket_onmessage.
  - by apply has_socket_fire.
  - by apply has_socket__send.
  - apply keeps_bind; [|intros _; apply keeps_ret|done].
    unfold request. repeat keeps_step.
    all: first [ apply has_socket__send | apply has_socket_frame; frame ].
    by apply fresh_preserves.
  - apply (has_socket_frame (intercept event handler)); [|done].
    unfold intercept. frame.
  - apply (has_socket_frame (unsubscribe event handler)); [|done].
    unfold unsubscribe. frame.
Qed.

End Socket.

(** X17.  From its construction on a client has a socket at hand:
    [this.socket] is never [null] again and always is a socket object the
    client made, so that no text handed to [this.socket?.send] is skipped
    for want of a socket. *)
Theorem socket_always_at_hand JSON_parse JSON_stringify run (w : World) :
  reachable JSON_parse JSON_stringify run w →
  ∃ s ws, socket w = Some s ∧ sockets w !! s = Some ws.
Proof.
  intros Hw.
  assert (has_socket w) as (s & Hs & [ws Hws]).
  { induction Hw as [opts|w i Hw IH].
    - apply has_socket_connect.
    - by apply has_socket_step. }
  by exists s, ws.
Qed.

Lemma socket_always_at_hand_witness :
  ∃ s ws, socket Examples.reopened = Some s ∧ sockets Examples.reopened !! s = Some ws.
Proof.
  apply (socket_always_at_hand JsonText.parse Examples.stringify Examples.run).
  apply reachable_steps. constructor.
Defined.

(** ** Responses that raise *)

Section Raising.

Variable JSON_parse : string → option JsonValue.
Variable run : Handler → list Arg → option Exception.

Lemma requests_get_Inherited key w :
  requests w !! key = None → key ∈ Object_prototype_keys →
  requests_get key w = Inherited.
Proof.
  intros Hnone Hin. unfold requests_get. rewrite Hnone.
  by rewrite bool_decide_eq_true_2.
Qed.

End Raising.

(** X18.  A text framed by a property name that every object inherits,
    such as [toString] or [constructor], is not taken for a response
    without a request: [this.requests[key]] is then the inherited property,
    the call of its [resolve] or [reject] raises a TypeError inside the
    [try], and the text ends in a warning carrying that message; the
    handlers of [message] are not invoked and nothing else changes. *)
Theorem inherited_key_only_warns JSON_parse run (text : string) (data : JsonValue)
    (err : JsValue) (w : World) :
  text ≠ "ping" →
  fst (split_frame text) ∈ Object_prototype_keys →
  requests w !! fst (split_frame text) = None →
  JSON_parse (ToString (snd (split_frame text))) = Some data →
  Json.get data "error" = inr err →
  onmessage JSON_parse run text w
  = (Normal tt,
     set_trace
       (trace w
        ++ [Warned (if Json.truthy (Json.get_opt err "code")
                    then "resolver.reject is not a function"
                    else "resolver.resolve is not a function")]) w).
Proof.
  intros Hping Hin Hnone Hdata Herr. unfold onmessage.
  apply String.eqb_neq in Hping. rewrite Hping.
  pose proof (requests_get_Inherited _ w Hnone Hin) as Hget.
  destruct (split_frame text) as [key _data]. simpl in *.
  assert (String.eqb key "@" = false) as ->.
  { apply String.eqb_neq. intros ->. vm_compute in Hin.
    repeat (apply elem_of_cons in Hin as [Hin|Hin]; [done|]).
    by apply elem_of_nil in Hin. }
  unfold try_catch, bind, JSON_parse_or_throw, gets, error_code.
  rewrite Hdata. simpl. rewrite Hget, Herr. simpl.
  by destruct (Json.truthy (Json.get_opt err "code")).
Qed.

Lemma inherited_key_only_warns_witness :
  onmessage JsonText.parse Examples.run (JsonText.q "toString|{'a':1}")
    Examples.opened
  = (Normal tt,
     set_trace
       (trace Examples.opened ++ [Warned "resolver.resolve is not a function"])
       Examples.opened).
Proof.
  apply (inherited_key_only_warns JsonText.parse Examples.run
           (JsonText.q "toString|{'a':1}") (JObject [("a", JNumber 1 0)]) None
           Examples.opened).
  - done.
  - vm_compute. do 6 right. left.
  - by vm_compute.
  - by vm_compute.
  - done.
Defined.

(** X19.  The response [null].  When the payload of a directed text is
    [null] and its key has a stored request, or is an inherited property
    name, reading [data.error] raises a TypeError inside the [try]: the
    text ends in a warning, the request is neither settled nor removed,
    its timeout stays scheduled, and the handlers of [message] are not
    invoked. *)
Theorem null_response_only_warns JSON_parse run (text : string) (w : World) :
  text ≠ "ping" → fst (split_frame text) ≠ "@" →
  JSON_parse (ToString (snd (split_frame text))) = Some JNull →
  requests_get (fst (split_frame text)) w ≠ Undefined →
  onmessage JSON_parse run text w
  = (Normal tt,
     set_trace (trace w ++ [Warned (Json.null_read_message "error")]) w).
Proof.
  intros Hping Hkey Hdata Hget. unfold onmessage.
  apply String.eqb_neq in Hping. rewrite Hping.
  destruct (split_frame text) as [key _data]. simpl in *.
  apply String.eqb_neq in Hkey. rewrite Hkey.
  unfold try_catch, bind, JSON_parse_or_throw, gets, error_code.
  rewrite Hdata. simpl.
  by destruct (requests_get key w).
Qed.

Lemma null_response_only_warns_witness :
  onmessage JsonText.parse Examples.run "12pa03|null" Examples.requested
  = (Normal tt,
     set_trace
       (trace Examples.requested ++ [Warned (Json.null_read_message "error")])
       Examples.requested).
Proof.
  apply null_response_only_warns.
  - done.
  - by vm_compute.
  - by vm_compute.
  - by vm_compute.
Defined.

(** * Waiting for the connection *)

(** What [_send] queues stays queued until a tick of the poll finds the
    socket open. *)

Section Waiting.

Variable JSON_parse : string → option JsonValue.
Variable JSON_stringify : JsonValue → string.
Variable run : Handler → list Arg → option Exception.

Lemma extends_refl w : extends w w.
Proof.
  constructor; try done.
  - intros p jobs Hp Hjobs. split; [done|]. exists []. by rewrite app_nil_r.
  - intros s ws Hws. right. by exists ws.
Qed.

Lemma extends_trans w0 w1 w2 : extends w0 w1 → extends w1 w2 → extends w0 w2.
Proof.
  intros H1 H2. constructor.
  - intros p jobs Hp Hjobs.
    destruct (ext_queue _ _ H1 p jobs Hp Hjobs) as (Hp1 & more & Hjobs1).
    destruct (ext_queue _ _ H2 p _ Hp1 Hjobs1) as (Hp2 & more' & Hjobs2).
    split; [done|]. exists (more ++ more'). by rewrite app_assoc.
  - intros h p every Hh. by apply (ext_poll _ _ H2), (ext_poll _ _ H1).
  - intros h t Ht Hkind.
    apply (ext_timers _ _ H1); [|done]. by apply (ext_timers _ _ H2).
  - intros k r Hr. by apply (ext_requests _ _ H1), (ext_requests _ _ H2).
  - intros s ws Hws.
    destruct (ext_sent _ _ H2 s ws Hws) as [Hnil|(ws1 & Hws1 & Hsent)]; [by left|].
    destruct (ext_sent _ _ H1 s ws1 Hws1) as [Hnil|(ws0 & Hws0 & Hsent0)].
    + left. congruence.
    + right. exists ws0. split; [done|congruence].
  - intros q Hq Hentries Htimers.
    apply (ext_pending _ _ H2).
    + by apply (ext_pending _ _ H1).
    + intros k r Hr. apply (Hentries k r). by apply (ext_requests _ _ H1).
    + intros h k d Hh. apply (Htimers h k d). by apply (ext_timers _ _ H1 h _ Hh).
Qed.

Lemma extends_agree w0 w w' :
  still_fields w' = still_fields w → extends w0 w → extends w0 w'.
Proof.
  unfold still_fields. intros [= Hn Ht Hp Hw Hr Hc Hs] [].
  constructor; rewrite ?Ht, ?Hp, ?Hw, ?Hr, ?Hc, ?Hs; done.
Qed.

Lemma extends_frame {X} w0 (m : M X) :
  preserves still_fields m → keeps (extends w0) m.
Proof. intros Hm w Hw. by apply (extends_agree w0 w), Hw. Qed.

Lemma extends_alter w0 g s :
  (∀ ws, sent (g ws) = sent ws) →
  keeps (extends w0) (modify (fun w => set_sockets (alter g s (sockets w)) w)).
Proof.
  intros Hg w []. constructor; simpl; try done.
  intros s' ws. destruct (decide (s' = s)) as [->|Hne].
  - rewrite lookup_alter_eq. destruct (sockets w !! s) as [ws1|] eqn:Hws1; [|done].
    simpl. intros [= <-]. rewrite Hg. by apply (ext_sent0 s).
  - rewrite lookup_alter_ne by done. apply ext_sent0.
Qed.

Lemma extends_callInterceptors w0 event args :
  keeps (extends w0) (callInterceptors run event args).
Proof. by apply extends_frame, callInterceptors_preserves. Qed.

(** A timer that is no timeout of a request, scheduled under a fresh
    handle. *)
Lemma extends_setTimer w0 t w :
  is_request t = false → wf w → extends w0 w → extends w0 (snd (setTimer t w)).
Proof.
  intros Ht Hw []. constructor; simpl; try done.
  - intros h p every Hh. rewrite lookup_insert_ne; [by apply ext_poll0|].
    intros <-. apply ext_poll0 in Hh. by rewrite (wf_timers w Hw) in Hh.
  - intros h t'. rewrite lookup_insert. case_decide; [|by apply ext_timers0].
    intros [= <-]. congruence.
Qed.

Lemma extends_clearTimer w0 h :
  (∀ p every, timers w0 !! h ≠ Some (PollTimer p every)) →
  keeps (extends w0) (clearTimer h).
Proof.
  intros Hh w []. constructor; simpl; try done.
  - intros h' p every Hh'. rewrite lookup_delete_ne; [by apply ext_poll0|].
    intros <-. by apply Hh in Hh'.
  - intros h' t. rewrite lookup_delete. case_decide; [done|]. apply ext_timers0.
Qed.

Lemma extends_delete_request w0 key :
  keeps (extends w0) (modify (fun w => set_requests (delete key (requests w)) w)).
Proof.
  intros w []. constructor; simpl; try done.
  intros k r. rewrite lookup_delete. case_decide; [done|]. apply ext_requests0.
Qed.

(** Settling a promise that a stored request or a timeout names. *)
Lemma extends_settle w0 q outcome :
  (∃ k r, requests w0 !! k = Some r ∧ promise r = q)
  ∨ (∃ h k d, timers w0 !! h = Some (RequestTimer k q d)) →
  keeps (extends w0) (settle q outcome).
Proof.
  intros Hnamed w []. unfold settle, bind, gets. simpl.
  destruct (promises w !! q) as [[| |]|] eqn:Hq; simpl; try done.
  constructor; simpl; try done.
  intros q' Hq' Hentries Htimers.
  rewrite lookup_insert_ne; [by apply ext_pending0|].
  intros <-. destruct Hnamed as [(k & r & Hr & Hp)|(h & k & d & Hh)].
  - by apply (Hentries k r).
  - by apply (Htimers h k d).
Qed.

Lemma extends_connect w0 : keeps (extends w0) connect.
Proof.
  intros w []. rewrite connect_spec. constructor; simpl; try done.
  intros s ws. rewrite lookup_insert. case_decide; [intros [= <-]; by left|].
  destruct (socket w) as [s0|]; [|apply ext_sent0].
  destruct (decide (s = s0)) as [->|Hne].
  - rewrite lookup_alter_eq. destruct (sockets w !! s0) as [ws1|] eqn:Hws1; [|done].
    simpl. intros [= <-].
    assert (sent (close_socket ws1) = sent ws1) as ->
      by (unfold close_socket; by destruct (readyState ws1)).
    by apply (ext_sent0 s0).
  - rewrite lookup_alter_ne by done. apply ext_sent0.
Qed.

(** [_send] puts its job at the end of the queue. *)
Lemma _send_extends data k w : wf w → extends w (snd (_send data k w)).
Proof.
  intros Hw.
  destruct (_send_attaches data k w Hw) as (p & thens & Heq & Hcp & Hthens & Hold).
  simpl in Heq. rewrite Heq. simpl. clear Heq.
  destruct (connectingPromise w) as [p'|] eqn:Hcpw.
  - rewrite (waitForConnection_again w p') in * by done. simpl in *.
    assert (p' = p) as -> by congruence.
    constructor; simpl; try done.
    + intros p0 jobs Hp0 Hjobs. assert (p0 = p) as -> by congruence.
      split; [done|].
      exists [mkJob data k]. rewrite lookup_insert_eq. congruence.
    + intros s ws Hws. right. by exists ws.
  - rewrite waitForConnection_first in * by done. simpl in *.
    constructor; simpl; try done.
    + intros p0 jobs Hp0. congruence.
    + intros h p0 every Hh. rewrite lookup_insert_ne; [done|].
      intros <-. by rewrite (wf_timers w Hw) in Hh by lia.
    + intros h t. rewrite lookup_insert. case_decide; [|done].
      by intros [= <-].
    + intros s ws Hws. right. by exists ws.
Qed.

Lemma onclose_extends event w : wf w → extends w (after (onclose run event) w).
Proof.
  intros Hw. unfold after.
  destruct (wasClean event) eqn:Hclean;
  [|destruct (reconnect (options w)
              && Nat.ltb (reconnectAttempt w) (reconnectAttempts (options w)))
      eqn:Hretry].
  - rewrite onclose_no_retry by auto.
    apply extends_callInterceptors, extends_refl.
  - rewrite onclose_retry by done.
    apply keeps_bind;
      [apply extends_callInterceptors|intros _; apply extends_callInterceptors|].
    pose proof (extends_setTimer w (ReconnectTimer (reconnectTimeout (options w))) w
                  eq_refl Hw (extends_refl w)) as Hset.
    revert Hset. apply extends_agree. done.
  - rewrite onclose_no_retry by auto.
    apply extends_callInterceptors, extends_refl.
Qed.

Lemma onmessage_extends text w :
  wf w → text ≠ "ping" → extends w (after (onmessage JSON_parse run text) w).
Proof.
  intros Hw Hping. unfold after, onmessage.
  apply String.eqb_neq in Hping. rewrite Hping.
  generalize (extends_refl w). generalize w at 2 4. 
  change (keeps (extends w)
            (try_catch
               (let '(key, _data) := split_frame text in
                data <- JSON_parse_or_throw JSON_parse (ToString _data) ;;
                if String.eqb key "@" then
                  callInterceptors run Broadcast
                    [ArgJson data; ArgEvent (MessageEvent text)]
                else
                  resolver <- gets (requests_get key) ;;
                  match resolver with
                  | Undefined => ret tt
                  | Inherited =>
                      c <- error_code data ;;
                      if Json.truthy c
                      then throw (mkException false "resolver.reject is not a function")
                      else throw (mkException false "resolver.resolve is not a function")
                  | Own resolver =>
                      c <- error_code data ;;
                      (if Json.truthy c then resolver_reject resolver data
                       else resolver_resolve resolver data) ;;;
                      modify (fun w => set_requests (delete key (requests w)) w)
                  end ;;;
                  callInterceptors run Message
                    [ArgJson data; ArgEvent (MessageEvent text)])
               report)).
  apply keeps_try_catch;
    [|intros ex; by apply extends_frame, report_preserves].
  destruct (split_frame text) as [key _data].
  apply keeps_bind; [unfold JSON_parse_or_throw; repeat keeps_step|]. intros data.
  destruct (String.eqb key "@"); [apply extends_callInterceptors|].
  apply keeps_gets_bind. intros w' Hw'.
  destruct (requests_get key w') as [r| |] eqn:Hget.
  - apply requests_get_Own, (ext_requests _ _ Hw') in Hget.
    revert w' Hw'.
    change (keeps (extends w)
              ((c <- error_code data ;;
                (if Json.truthy c then resolver_reject r data
                 else resolver_resolve r data) ;;;
                modify (fun w => set_requests (delete key (requests w)) w)) ;;;
               callInterceptors run Message
                 [ArgJson data; ArgEvent (MessageEvent text)])).
    assert (keeps (extends w) (settle (promise r) (Fulfilled data))
            ∧ keeps (extends w) (settle (promise r) (Rejected data))) as [Hf Hr].
    { split; apply extends_settle; left; by exists key, r. }
    unfold error_code, resolver_reject, resolver_resolve.
    repeat keeps_step.
    all: first [ apply extends_callInterceptors | apply extends_delete_request
               | done | idtac ].
    apply extends_clearTimer. intros p every Hh.
    match goal with
    | H : timeout_handle r = Some ?h |- _ =>
        by destruct (wf_handles w Hw key r h (PollTimer p every) Hget H) as [_ Hnp];
          specialize (Hnp Hh)
    end.
  - unfold error_code.
    destruct (Json.get data "error") as [ex|err]; [done|].
    run_m. by destruct (Json.truthy (Json.get_opt err "code")).
  - run_m. by apply (extends_callInterceptors w Message).
Qed.

Lemma not_ready w :
  ready w = false →
  ∀ s ws, socket w = Some s → sockets w !! s = Some ws → readyState ws ≠ OPEN.
Proof.
  unfold ready. intros Hready s ws Hs Hws. rewrite Hs, Hws in Hready.
  by apply bool_decide_eq_false in Hready.
Qed.

Lemma is_ready w :
  ready w = true →
  ∃ s ws, socket w = Some s ∧ sockets w !! s = Some ws ∧ readyState ws = OPEN.
Proof.
  unfold ready. intros Hready.
  destruct (socket w) as [s|]; [|done].
  destruct (sockets w !! s) as [ws|] eqn:Hws; [|done].
  apply bool_decide_eq_true in Hready. by exists s, ws.
Qed.

(** A tick of the poll that finds the socket not open changes nothing. *)
Lemma fire_not_ready handle p every w :
  timers w !! handle = Some (PollTimer p every) → ready w = false →
  fire handle w = (Normal tt, w).
Proof.
  intros Hh Hready. rewrite (fire_poll handle p every) by done.
  by apply poll_not_ready, not_ready.
Qed.

Lemma fire_extends handle w :
  wf w → ready_tick w (TimerFires handle) = false →
  extends w (after (fire handle) w).
Proof.
  intros Hw Htick. simpl in Htick. unfold after.
  destruct (timers w !! handle) as [[delay|key p delay|p every]|] eqn:Hh.
  - rewrite (fire_reconnect handle delay) by done.
    assert (extends w (set_timers (delete handle (timers w)) w)) as Hcleared.
    { apply (extends_clearTimer w handle); [|apply extends_refl].
      intros p every. by rewrite Hh. }
    pose proof (extends_connect w _ Hcleared) as Hconnect.
    by rewrite connect_spec in Hconnect.
  - unfold fire, bind, gets. simpl. rewrite Hh.
    change (extends w (snd (request_timeout key p (after (clearTimer handle) w)))).
    unfold request_timeout.
    apply keeps_bind; [apply extends_delete_request|intros _|].
    + apply extends_settle. right. by exists handle, key, delay.
    + apply (extends_clearTimer w handle); [|apply extends_refl].
      intros p' every. by rewrite Hh.
  - rewrite (fire_not_ready handle p every) by done. apply extends_refl.
  - rewrite fire_cleared by done. apply extends_refl.
Qed.

Lemma request_extends random action data w :
  wf w → extends w (after (request JSON_stringify random action data) w).
Proof.
  intros Hw. set (key := generateKey random). set (p := next_id w).
  set (w0 := set_promises (<[p := Pending]> (promises w)) (set_next_id (S p) w)).
  assert (extends w w0) as Hw0.
  { destruct (extends_refl w). constructor; simpl; try done.
    intros q Hq _ _. rewrite lookup_insert. by case_decide. }
  pose proof (_send_extends (request_frame JSON_stringify key action data)
                (AfterRequest key p) w0 (wf_new_promise w Hw)) as Hsend.
  pose proof (_send_returns (request_frame JSON_stringify key action data)
                (AfterRequest key p) w0) as [[] Hret].
  unfold after, request, bind, fresh, modify. simpl. fold key p w0.
  destruct (_send _ _ w0) as [[[]|ex] w1]; simpl in *; [|done].
  by apply (extends_trans w w0).
Qed.

(** An input other than a tick of the poll that finds the socket open lets
    nothing go. *)
Lemma step_extends w i :
  wf w → ready_tick w i = false →
  extends w (step JSON_parse JSON_stringify run w i).
Proof.
  intros Hw Htick. unfold step, after.
  destruct i as [s|s event|s|s text|handle|data|random action data
                |event handler|event handler]; simpl.
  - apply keeps_bind; [|intros _; apply extends_callInterceptors|apply extends_refl].
    unfold set_readyState. by apply extends_alter.
  - unfold bind, set_readyState, modify. simpl.
    set (w1 := set_sockets _ w).
    assert (extends w w1) as Hw1
      by (apply (extends_alter w (fun ws => mkWebSocket CLOSED (sent ws)) s);
          [done|apply extends_refl]).
    apply (extends_trans w w1); [done|].
    by apply onclose_extends, (wf_agree w).
  - apply extends_callInterceptors, extends_refl.
  - destruct (decide (text = "ping")) as [->|Hping].
    + by apply _send_extends.
    + by apply onmessage_extends.
  - by apply fire_extends.
  - by apply _send_extends.
  - pose proof (request_extends random action data w Hw) as Hrequest.
    unfold after, bind in *.
    by destruct (request JSON_stringify random action data w) as [[q|ex] w1].
  - apply (extends_frame w (intercept event handler)); [|apply extends_refl].
    unfold intercept. frame.
  - apply (extends_frame w (unsubscribe event handler)); [|apply extends_refl].
    unfold unsubscribe. frame.
Qed.

Lemma waits_extends inputs w :
  wf w → waits JSON_parse JSON_stringify run w inputs →
  extends w (steps JSON_parse JSON_stringify run w inputs).
Proof.
  revert w. induction inputs as [|i rest IH]; intros w Hw; simpl.
  - intros _. apply extends_refl.
  - intros [Htick Hrest].
    apply (extends_trans w (step JSON_parse JSON_stringify run w i)).
    + by apply step_extends.
    + apply IH; [by apply wf_step|done].
Qed.

Lemma steps_options inputs w :
  options (steps JSON_parse JSON_stringify run w inputs) = options w.
Proof.
  revert w. induction inputs as [|i rest IH]; intros w; simpl; [done|].
  by rewrite IH, step_options.
Qed.

(** The continuations only add to the stored requests. *)
Lemma continue_all_requests ks w key :
  is_Some (requests w !! key) →
  is_Some (requests (after (continue_all ks) w) !! key).
Proof.
  revert w. induction ks as [|k rest IH]; intros w Hkey; simpl; [done|].
  unfold after, bind.
  assert (is_Some (requests (snd (continue k w)) !! key)) as Hk.
  { destruct k as [| |key' p]; simpl; try done.
    unfold register, setTimer, fresh. run_m.
    destruct (negb (requestTimeout (options w) =? 0)%Z); simpl;
      (rewrite lookup_insert; by case_decide). }
  pose proof (continue_all_returns [k] w) as [[] Hret].
  destruct (continue k w) as [[[]|ex] w1] eqn:Hcontinue; simpl in *.
  - by apply IH.
  - done.
Qed.

(** With a nonzero timeout, the continuation of every request that is run
    stores the request and schedules its timer. *)
Lemma continue_all_registers ks w key p :
  wf w → AfterRequest key p ∈ ks → requestTimeout (options w) ≠ 0%Z →
  ∃ h, timers (after (continue_all ks) w) !! h
       = Some (RequestTimer key p (requestTimeout (options w)))
       ∧ is_Some (requests (after (continue_all ks) w) !! key).
Proof.
  revert w. induction ks as [|k rest IH]; intros w Hw Hin Htimeout;
    [by apply elem_of_nil in Hin|].
  apply elem_of_cons in Hin as [<-|Hin]; simpl; unfold after, bind.
  - rewrite register_with_timeout by done. simpl.
    set (w1 := set_requests _ _).
    exists (next_id w).
    destruct (continue_all_old_timers rest w1 (next_id w)) as [Hold _];
      [simpl; lia|].
    unfold after in Hold. rewrite Hold. simpl. rewrite lookup_insert_eq.
    split; [done|].
    apply (continue_all_requests rest w1). simpl. by rewrite lookup_insert_eq.
  - pose proof (continue_all_returns [k] w) as [[] Hret].
    simpl in Hret. unfold bind in Hret.
    assert (wf (snd (continue k w))) as Hw1.
    { pose proof (wf_continue_all [k] w Hw) as Hone.
      unfold after in Hone. simpl in Hone. unfold bind in Hone.
      destruct (continue k w) as [[[]|ex] w1]; done. }
    assert (options (snd (continue k w)) = options w) as Hoptions.
    { destruct k as [| |key' p']; simpl; try done.
      unfold register, setTimer, fresh. run_m.
      by destruct (negb (requestTimeout (options w) =? 0)%Z). }
    destruct (continue k w) as [[[]|ex] w1] eqn:Hcontinue; simpl in *; [|done].
    rewrite <- Hoptions. apply IH; [done|done|by rewrite Hoptions].
Qed.

(** The tick of the poll that finds the socket open sends every queued
    text, in order, and registers every queued request. *)
Lemma fire_ready_registers handle p every w s ws jobs key q :
  wf w → timers w !! handle = Some (PollTimer p every) →
  waiting w !! p = Some (Waiting jobs) →
  socket w = Some s → sockets w !! s = Some ws → readyState ws = OPEN →
  AfterRequest key q ∈ map job_then jobs → requestTimeout (options w) ≠ 0%Z →
  ∃ h, timers (after (fire handle) w) !! h
       = Some (RequestTimer key q (requestTimeout (options w)))
       ∧ is_Some (requests (after (fire handle) w) !! key).
Proof.
  intros Hw Hh Hp Hs Hws Hopen Hin Htimeout.
  unfold after. rewrite (fire_poll handle p every) by done.
  rewrite (poll_ready handle p w s ws jobs) by done.
  set (w1 := set_connectingPromise None _).
  unfold run_thens, bind.
  rewrite (send_all_open jobs w1 s ws) by done.
  set (w2 := set_sockets _ w1).
  apply (continue_all_registers (map job_then jobs) w2); [|done|done].
  apply (wf_agree w1); [done|]. by eapply wf_resolved.
Qed.

(** [request] queues its job behind what waits already. *)
Lemma request_queued random action data w :
  wf w →
  let w1 := after (request JSON_stringify random action data) w in
  ∃ cp handle queued,
    connectingPromise w1 = Some cp
    ∧ timers w1 !! handle = Some (PollTimer cp 50)
    ∧ waiting w1 !! cp
      = Some (Waiting (queued
                       ++ [request_job JSON_stringify random action data (next_id w)]))
    ∧ options w1 = options w.
Proof.
  intros Hw w1. unfold w1, after.
  destruct (connectingPromise w) as [cp|] eqn:Hcp.
  - destruct (wf_connecting w Hw cp Hcp) as [queued Hqueued].
    destruct (wf_poll w Hw cp Hcp) as [handle Hhandle].
    rewrite (request_again JSON_stringify random action data w cp queued) by done.
    exists cp, handle, queued. simpl. by rewrite lookup_insert_eq.
  - rewrite request_first by done.
    exists (S (next_id w)), (S (S (next_id w))), []. simpl.
    by rewrite !lookup_insert_eq.
Qed.

(** While no tick finds the socket open, every tick leaves the world as it
    is when the timers are polls. *)
Lemma idle_ticks w handles :
  ready w = false → (∀ h t, timers w !! h = Some t → is_poll t = true) →
  steps JSON_parse JSON_stringify run w (map TimerFires handles) = w.
Proof.
  intros Hready Hpolls. induction handles as [|h rest IH]; simpl; [done|].
  assert (step JSON_parse JSON_stringify run w (TimerFires h) = w) as ->; [|done].
  unfold step, after. simpl.
  destruct (timers w !! h) as [t|] eqn:Hh.
  - pose proof (Hpolls h t Hh) as Hpoll. destruct t as [| |p every]; try done.
    by rewrite (fire_not_ready h p every).
  - by rewrite fire_cleared.
Qed.

End Waiting.



(** C8.  On the text [ping] the message handler does nothing but
    [_send('pong')]: [JSON.parse] is not consulted, it returns without a
    throw, nothing is dispatched or warned, and no request or promise of a
    request changes.  The [pong] is not sent by the handler: it is queued
    once on the pending promise of [waitForConnection], behind what was
    queued before.  Through every run in which no tick of the poll finds
    the socket open it stays queued, no socket is handed a text, and a
    tick that finds the socket not open changes nothing.  The first tick
    that finds the socket open sends what was queued, with [pong] in its
    place, once, and dispatches nothing; the cleared poll sends nothing
    again. *)
Theorem ping_keepalive JSON_parse JSON_stringify run w :
  wf w →
  let w1 := after (onmessage JSON_parse run "ping") w in
  onmessage JSON_parse run "ping" w = _send "pong" AfterPing w
  ∧ fst (onmessage JSON_parse run "ping" w) = Normal tt
  ∧ trace w1 = trace w
  ∧ requests w1 = requests w
  ∧ promises w1 = promises w
  ∧ sockets w1 = sockets w
  ∧ ∃ p handle queued,
      match connectingPromise w with
      | Some p' => p' = p ∧ waiting w !! p = Some (Waiting queued)
      | None => queued = []
      end
      ∧ connectingPromise w1 = Some p
      ∧ timers w1 !! handle = Some (PollTimer p 50)
      ∧ waiting w1 !! p = Some (Waiting (queued ++ [mkJob "pong" AfterPing]))
      ∧ ∀ inputs,
          waits JSON_parse JSON_stringify run w1 inputs →
          let w2 := steps JSON_parse JSON_stringify run w1 inputs in
          (∀ s ws2,
             sockets w2 !! s = Some ws2 →
             sent ws2 = [] ∨ ∃ ws, sockets w !! s = Some ws ∧ sent ws2 = sent ws)
          ∧ timers w2 !! handle = Some (PollTimer p 50)
          ∧ (ready w2 = false → fire handle w2 = (Normal tt, w2))
          ∧ ∃ more,
              waiting w2 !! p
              = Some (Waiting (queued ++ [mkJob "pong" AfterPing] ++ more))
              ∧ (ready w2 = true →
                 ∃ s ws,
                   socket w2 = Some s ∧ sockets w2 !! s = Some ws
                   ∧ let w3 := after (fire handle) w2 in
                     sockets w3 !! s
                     = Some (mkWebSocket OPEN
                               (sent ws ++ map job_data queued ++ ["pong"]
                                ++ map job_data more))
                     ∧ trace w3 = trace w2
                     ∧ timers w3 !! handle = None
                     ∧ waiting w3 !! p = Some (Connected s)
                     ∧ connectingPromise w3 = None
                     ∧ fire handle w3 = (Normal tt, w3)).
Proof.
  intros Hw w1.
  assert (onmessage JSON_parse run "ping" w = _send "pong" AfterPing w) as Hsend
    by done.
  assert (wf w1) as Hw1 by apply wf_onmessage, Hw.
  unfold w1, after in *. rewrite Hsend in *. clear Hsend w1.
  destruct (_send_attaches "pong" AfterPing w Hw)
    as (p & queued & Heq & Hcp & Hqueued & Hold).
  simpl in Heq. rewrite Heq in *. simpl in *.
  split; [done|]. split; [done|].
  split; [by rewrite (waitForConnection_preserves trace)|].
  split; [by rewrite (waitForConnection_preserves requests)|].
  split; [by rewrite (waitForConnection_preserves promises)|].
  split; [by rewrite (waitForConnection_preserves sockets)|].
  destruct (wf_poll _ Hw1 p Hcp) as [handle Hhandle]. simpl in Hhandle.
  exists p, handle, queued.
  split.
  { destruct (connectingPromise w) as [p'|] eqn:Hcpw; [|done].
    split; [|done]. rewrite (waitForConnection_again w p') in Hcp by done.
    simpl in Hcp. congruence. }
  split; [done|]. split; [done|].
  split; [by rewrite lookup_insert_eq|].
  intros inputs Hwaits.
  set (w1 := set_waiting _ _) in *.
  assert (sockets w1 = sockets w) as Hsockets1
    by (unfold w1; simpl; by rewrite (waitForConnection_preserves sockets)).
  assert (waiting w1 !! p = Some (Waiting (queued ++ [mkJob "pong" AfterPing])))
    as Hqueued1 by (unfold w1; simpl; by rewrite lookup_insert_eq).
  pose proof (waits_extends JSON_parse JSON_stringify run inputs w1 Hw1 Hwaits)
    as Hext.
  pose proof (wf_steps JSON_parse JSON_stringify run inputs w1 Hw1) as Hw2.
  set (w2 := steps JSON_parse JSON_stringify run w1 inputs) in *.
  destruct (ext_queue _ _ Hext p _ Hcp Hqueued1) as (Hcp2 & more & Hmore).
  pose proof (ext_poll _ _ Hext handle p 50%Z Hhandle) as Hhandle2.
  split.
  { intros s ws2 Hws2. rewrite <- Hsockets1. by apply (ext_sent _ _ Hext). }
  split; [done|].
  split; [by apply (fire_not_ready handle p 50)|].
  exists more. rewrite <- app_assoc in Hmore. split; [done|].
  intros Hready. destruct (is_ready w2 Hready) as (s & ws & Hs & Hws & Hopen).
  exists s, ws. split; [done|]. split; [done|].
  destruct (fire_ready handle p 50 w2 s ws _ Hw2 Hhandle2 Hmore Hs Hws Hopen)
    as (_ & _ & Hsockets & Hwaiting & Hnone & Hcleared & Htrace & _).
  unfold after in *.
  rewrite Hsockets, Hwaiting, Htrace, !lookup_insert_eq, !map_app.
  repeat (split; [done|]). by apply fire_cleared.
Qed.

Lemma ping_keepalive_witness :
  wf Examples.opened
  ∧ trace (after (onmessage JsonText.parse Examples.run "ping") Examples.opened)
    = trace Examples.opened
  ∧ ∃ handle,
      sockets
        (after (fire handle)
           (after (onmessage JsonText.parse Examples.run "ping") Examples.opened))
      !! 0
      = Some (mkWebSocket OPEN ["pong"]).
Proof.
  assert (wf Examples.opened) as Hwf by apply wf_steps, wf_new_DarkWS.
  split; [exact Hwf|].
  destruct (ping_keepalive JsonText.parse Examples.stringify Examples.run
              Examples.opened Hwf)
    as (_ & _ & Htrace & _ & _ & _ & p & handle & queued & Hqueued & Hcp & _ & _ & Hrun).
  split; [exact Htrace|].
  exists handle.
  assert (queued = []) as -> by exact Hqueued.
  destruct (Hrun [] I) as (_ & _ & _ & more & Hmore & Hready).
  assert (p = 1) as -> by (clear -Hcp; vm_compute in Hcp; congruence).
  assert (more = []) as ->.
  { clear -Hmore. vm_compute in Hmore. congruence. }
  destruct (Hready eq_refl) as (s & ws & Hs & Hws & Hsent & _).
  assert (s = 0) as -> by (clear -Hs; vm_compute in Hs; congruence).
  assert (ws = mkWebSocket OPEN []) as ->
    by (clear -Hws; vm_compute in Hws; congruence).
  exact Hsent.
Defined.

(** C8 refuted as stated.  The server pings and then closes the connection
    for good: the [pong] is queued, and whatever timers come due afterwards, in any number and
    order, it stays queued and no socket is handed a text. *)
Lemma ping_without_pong :
  Examples.pinged_then_closed
  = Examples.play Examples.opened
      [SocketReceives 0 "ping"; SocketCloses 0 Examples.clean]
  ∧ ∀ handles,
      let w := Examples.play Examples.pinged_then_closed (map TimerFires handles) in
      sockets w = {[0 := mkWebSocket CLOSED []]}
      ∧ connectingPromise w = Some 1
      ∧ waiting w !! 1 = Some (Waiting [mkJob "pong" AfterPing]).
Proof.
  split; [done|]. intros handles.
  unfold Examples.play.
  rewrite idle_ticks.
  - repeat apply conj; by vm_compute.
  - by vm_compute.
  - assert (timers Examples.pinged_then_closed = {[2 := PollTimer 1 50]}) as ->
      by (by vm_compute).
    intros h t Ht. apply lookup_singleton_Some in Ht as [_ <-]. done.
Qed.

(** C7.  [request] returns a fresh promise, and as long as no message
    framed by the key of the request arrives and the timer of the request
    does not come due, that promise stays pending and the timer, once
    scheduled, stays scheduled.  The timer is not started by the call: the
    text of the request is queued on the pending promise of
    [waitForConnection], and through every run in which no tick of the
    poll finds the socket open it stays queued, the promise stays pending,
    the request is not stored and no timer names it; a tick that finds the
    socket not open changes nothing.  With a nonzero timeout, the tick that
    finds the socket open sends the text, stores the request and schedules
    a timer of the configured duration.  When that timer comes due and the
    promise is still pending, the promise is rejected with the error object
    whose code is [timeout], the entry under the key of the request and the
    timer are removed, and the other promises are left alone; a message
    that arrives for that key afterwards settles no promise. *)
Theorem request_timeout_rejects JSON_parse JSON_stringify run :
  (∀ random action data w inputs,
     sound w →
     let key := generateKey random in
     let p := next_id w in
     let w1 := after (request JSON_stringify random action data) w in
     quiet_run JSON_parse JSON_stringify run key p w1 inputs →
     let w2 := steps JSON_parse JSON_stringify run w1 inputs in
     fst (request JSON_stringify random action data w) = Normal p
     ∧ promises w2 !! p = Some Pending
     ∧ ∀ handle k delay inputs',
         timers w2 !! handle = Some (RequestTimer k p delay) →
         quiet_run JSON_parse JSON_stringify run key p w2 inputs' →
         let w3 := steps JSON_parse JSON_stringify run w2 inputs' in
         timers w3 !! handle = Some (RequestTimer k p delay)
         ∧ promises w3 !! p = Some Pending)
  ∧ (∀ random action data w inputs,
       sound w →
       let key := generateKey random in
       let p := next_id w in
       let job := request_job JSON_stringify random action data p in
       let w1 := after (request JSON_stringify random action data) w in
       waits JSON_parse JSON_stringify run w1 inputs →
       let w2 := steps JSON_parse JSON_stringify run w1 inputs in
       ∃ pending poll_handle queued more,
         connectingPromise w2 = Some pending
         ∧ timers w2 !! poll_handle = Some (PollTimer pending 50)
         ∧ waiting w2 !! pending = Some (Waiting (queued ++ [job] ++ more))
         ∧ promises w2 !! p = Some Pending
         ∧ (∀ k r, requests w2 !! k = Some r → promise r ≠ p)
         ∧ (∀ h k d, timers w2 !! h ≠ Some (RequestTimer k p d))
         ∧ (ready w2 = false → fire poll_handle w2 = (Normal tt, w2))
         ∧ (ready w2 = true →
            ∃ s ws,
              socket w2 = Some s ∧ sockets w2 !! s = Some ws
              ∧ let w3 := after (fire poll_handle) w2 in
                sockets w3 !! s
                = Some (mkWebSocket OPEN
                          (sent ws ++ map job_data queued
                           ++ [request_frame JSON_stringify key action data]
                           ++ map job_data more))
                ∧ promises w3 !! p = Some Pending
                ∧ (requestTimeout (options w) ≠ 0%Z →
                   ∃ handle,
                     timers w3 !! handle
                     = Some (RequestTimer key p (requestTimeout (options w)))
                     ∧ is_Some (requests w3 !! key))))
  ∧ (∀ random action data w s ws,
       wf w → socket w = Some s → sockets w !! s = Some ws → readyState ws = OPEN →
       requestTimeout (options w) ≠ 0%Z →
       let key := generateKey random in
       let w1 := after (request JSON_stringify random action data) w in
       ∃ p pending poll_handle,
         fst (request JSON_stringify random action data w) = Normal p
         ∧ promises w1 !! p = Some Pending
         ∧ connectingPromise w1 = Some pending
         ∧ timers w1 !! poll_handle = Some (PollTimer pending 50)
         ∧ let w2 := after (fire poll_handle) w1 in
           ∃ handle,
             timers w2 !! handle
             = Some (RequestTimer key p (requestTimeout (options w)))
             ∧ requests w2 !! key = Some (mkResolver p (Some handle))
             ∧ promises w2 !! p = Some Pending)
  ∧ (∀ w handle key p delay,
       timers w !! handle = Some (RequestTimer key p delay) →
       promises w !! p = Some Pending →
       let w' := after (fire handle) w in
       promises w' !! p = Some (Rejected timeout_error)
       ∧ Json.get timeout_error "code" = inr (Some (JString "timeout"))
       ∧ requests w' !! key = None
       ∧ timers w' !! handle = None
       ∧ (∀ p', p' ≠ p → promises w' !! p' = promises w !! p')
       ∧ ∀ text,
           fst (split_frame text) = key →
           promises (after (onmessage JSON_parse run text) w') = promises w').
Proof.
  split; [|split; [|split]].
  - intros random action data w inputs Hw key p w1 Hquiet w2.
    destruct (request_held JSON_stringify random action data w Hw)
      as [Hp Hheld].
    fold key p w1 in Hp, Hheld.
    pose proof (held_steps JSON_parse JSON_stringify run key p None
                  inputs w1 Hquiet Hheld) as Hheld2.
    fold w2 in Hheld2. destruct Hheld2 as (Hwf2 & Hsafe2 & _).
    split; [done|]. split; [by destruct Hsafe2|].
    intros handle k delay inputs' Hhandle Hquiet' w3.
    assert (held key p (Some (handle, k, delay)) w2) as Hheld2 by done.
    destruct (held_steps JSON_parse JSON_stringify run key p _
                inputs' w2 Hquiet' Hheld2) as (_ & Hsafe3 & Htimer3).
    split; [done|by destruct Hsafe3].
  - intros random action data w inputs Hsound key p job w1 Hwaits w2.
    pose proof Hsound as [Hw Hrefs].
    destruct (request_held JSON_stringify random action data w Hsound)
      as [_ (Hw1 & Hsafe1 & _)].
    fold key p w1 in Hw1, Hsafe1.
    destruct (request_queued JSON_stringify random action data w Hw)
      as (pending & poll_handle & queued & Hcp & Hpoll & Hqueued & Hoptions).
    fold p job w1 in Hcp, Hpoll, Hqueued, Hoptions.
    pose proof (request_extends JSON_stringify random action data w Hw) as Hext1.
    fold w1 in Hext1.
    pose proof (waits_extends JSON_parse JSON_stringify run inputs w1 Hw1 Hwaits)
      as Hext2.
    pose proof (wf_steps JSON_parse JSON_stringify run inputs w1 Hw1) as Hw2.
    fold w2 in Hext2, Hw2.
    assert (∀ k r, requests w1 !! k = Some r → promise r ≠ p) as Hentries1.
    { intros k r Hr Heq. apply (ext_requests _ _ Hext1) in Hr.
      pose proof (refs_entries _ _ Hrefs k r Hr). unfold p in Heq. lia. }
    assert (∀ h k d, timers w1 !! h ≠ Some (RequestTimer k p d)) as Htimers1.
    { intros h k d Hh. apply (ext_timers _ _ Hext1) in Hh; [|done].
      pose proof (refs_timers _ _ Hrefs h k p d Hh). unfold p in *. lia. }
    destruct (ext_queue _ _ Hext2 pending _ Hcp Hqueued) as (Hcp2 & more & Hmore).
    rewrite <- app_assoc in Hmore.
    pose proof (ext_poll _ _ Hext2 poll_handle pending 50%Z Hpoll) as Hpoll2.
    assert (promises w2 !! p = Some Pending) as Hpending2.
    { apply (ext_pending _ _ Hext2); [by destruct Hsafe1|done|done]. }
    exists pending, poll_handle, queued, more.
    split; [done|]. split; [done|]. split; [done|]. split; [done|].
    split.
    { intros k r Hr. apply (Hentries1 k r). by apply (ext_requests _ _ Hext2). }
    split.
    { intros h k d Hh. apply (Htimers1 h k d).
      by apply (ext_timers _ _ Hext2 h _ Hh). }
    split; [by apply (fire_not_ready poll_handle pending 50)|].
    intros Hready. destruct (is_ready w2 Hready) as (s & ws & Hs & Hws & Hopen).
    exists s, ws. split; [done|]. split; [done|].
    destruct (fire_ready poll_handle pending 50 w2 s ws _ Hw2 Hpoll2 Hmore Hs Hws Hopen)
      as (_ & _ & Hsockets & _ & _ & _ & _ & _ & Hpromises).
    cbv zeta.
    split; [by rewrite Hsockets, lookup_insert_eq, !map_app|].
    split; [by rewrite Hpromises|].
    intros Htimeout.
    assert (options w2 = options w) as Hoptions2
      by (unfold w2; by rewrite steps_options).
    rewrite <- Hoptions2.
    apply (fire_ready_registers poll_handle pending 50 w2 s ws
             (queued ++ [job] ++ more)); try done.
    + rewrite !map_app. apply elem_of_app. right. apply elem_of_app. left.
      simpl. apply elem_of_cons. by left.
    + by rewrite Hoptions2.
  - intros random action data w s ws. apply request_registered.
  - intros w handle key p delay Hh Hp w'. unfold w', after.
    rewrite (fire_request_timeout handle key p delay) by done. simpl.
    split; [apply lookup_insert_eq|]. split; [done|].
    split; [apply lookup_delete_eq|]. split; [apply lookup_delete_eq|].
    split; [intros p' Hp'; by rewrite lookup_insert_ne|].
    intros text Hkey. apply onmessage_unknown_key.
    simpl. rewrite Hkey. apply lookup_delete_eq.
Qed.

Lemma request_timeout_rejects_witness :
  sound Examples.opened
  ∧ timers Examples.requested !! 4 = Some (RequestTimer "12pa03" 1 300000)
  ∧ promises Examples.requested !! 1 = Some Pending
  ∧ promises
      (steps JsonText.parse Examples.stringify Examples.run
         (after (request Examples.stringify Examples.random "echo" None)
            Examples.opened)
         [TimerFires 3]) !! next_id Examples.opened
    = Some Pending
  ∧ promises (after (fire 4) Examples.requested) !! 1
    = Some (Rejected timeout_error)
  ∧ requests (after (fire 4) Examples.requested) !! "12pa03" = None
  ∧ sound (new_DarkWS defaultOptions)
  ∧ ∃ poll_handle handle,
      timers
        (after (fire poll_handle)
           (Examples.play
              (after (request Examples.stringify Examples.random "echo" None)
                 (new_DarkWS defaultOptions))
              [SocketOpens 0])) !! handle
      = Some (RequestTimer "12pa03" 1 300000).
Proof.
  assert (sound Examples.opened) as Hsound
    by apply sound_steps, sound_new_DarkWS.
  assert (sound (new_DarkWS defaultOptions)) as Hnew by apply sound_new_DarkWS.
  assert (timers Examples.requested !! 4 = Some (RequestTimer "12pa03" 1 300000))
    as Htimer by (vm_compute; reflexivity).
  assert (promises Examples.requested !! 1 = Some Pending)
    as Hpending by (vm_compute; reflexivity).
  destruct (request_timeout_rejects JsonText.parse Examples.stringify Examples.run)
    as (Hstays & Hqueued & _ & Hfire).
  split; [exact Hsound|]. split; [exact Htimer|]. split; [exact Hpending|].
  split.
  { refine (proj1 (proj2 (Hstays Examples.random "echo" None Examples.opened
                            [TimerFires 3] Hsound _))).
    split; [|exact I]. intros k d. vm_compute. discriminate. }
  destruct (Hfire Examples.requested 4 "12pa03" 1 300000%Z Htimer Hpending)
    as (Hrejected & _ & Hremoved & _).
  split; [exact Hrejected|]. split; [exact Hremoved|]. split; [exact Hnew|].
  destruct (Hqueued Examples.random "echo" None (new_DarkWS defaultOptions)
              [SocketOpens 0] Hnew (conj eq_refl I))
    as (pending & poll_handle & queued & more & _ & _ & _ & _ & _ & _ & _ & Hready).
  destruct (Hready eq_refl) as (s & ws & _ & _ & _ & _ & Hscheduled).
  destruct Hscheduled as [handle [Hhandle _]]; [discriminate|].
  exists poll_handle, handle. exact Hhandle.
Defined.

(** C7 refuted as stated.  [request('echo')] with the default timeout of
    300000 ms on a client whose connection the server has closed for good: the promise the call
    returned is pending, the only timer is the poll, and whatever timers
    come due afterwards, in any number and order, the promise stays
    pending, the request is not stored and there is no timer to reject
    it. *)
Lemma request_never_times_out :
  Examples.asked_while_closed
  = Examples.play Examples.opened
      [SocketCloses 0 Examples.clean; CallRequest Examples.random "echo" None]
  ∧ requestTimeout (options Examples.asked_while_closed) = 300000%Z
  ∧ fst (request Examples.stringify Examples.random "echo" None
           (Examples.play Examples.opened [SocketCloses 0 Examples.clean]))
    = Normal 1
  ∧ ∀ handles,
      let w := Examples.play Examples.asked_while_closed (map TimerFires handles) in
      promises w !! 1 = Some Pending
      ∧ requests w = ∅
      ∧ timers w = {[3 := PollTimer 2 50]}.
Proof.
  split; [done|]. split; [by vm_compute|]. split; [by vm_compute|].
  intros handles. unfold Examples.play.
  rewrite idle_ticks.
  - repeat apply conj; by vm_compute.
  - by vm_compute.
  - assert (timers Examples.asked_while_closed = {[3 := PollTimer 2 50]}) as ->
      by (by vm_compute).
    intros h t Ht. apply lookup_singleton_Some in Ht as [_ <-]. done.
Qed.
